(** * Response merging and request coding of the query frontend

    Shallow embedding of [pkg/querier/queryrange/codec.go]: the response
    merger ([MergeResponse], [mergeLokiResponse],
    [mergeOrderedNonOverlappingStreams]) and the request codec
    ([EncodeRequest], [DecodeRequest], [DecodeHTTPGrpcRequest]), with the
    properties the specification states about them; then the methods of
    the request variants, [ParamsFromRequest], the response codec
    ([DecodeResponse], [EncodeResponse] and their RPC-wrapped forms) and
    [NewEmptyResponse], with further properties of the code. *)

From Stdlib Require Import ZArith Lia OrderedTypeEx.
From stdpp Require Import gmap strings list sorting pretty.

Local Open Scope Z_scope.

(** ** Go values *)

(** A call either returns or panics (a failed type assertion, a nil
    dereference). *)
Inductive outcome (A : Type) : Type :=
  | Returns (a : A)
  | Panics.
Arguments Returns {A} a.
Arguments Panics {A}.

Global Instance outcome_ret : MRet outcome := fun _ a => Returns a.
Global Instance outcome_bind : MBind outcome := fun _ _ k m =>
  match m with
  | Returns a => k a
  | Panics => Panics
  end.

(** Go's [error] values, as this file builds them. *)
Inductive error : Type :=
  | httpgrpc_Errorf (code : Z) (msg : string)
  | errors_New (msg : string).

Definition StatusBadRequest : Z := 400.
Definition StatusNotFound : Z := 404.
Definition StatusInternalServerError : Z := 500.

(** ** time.Time *)

Module time.

(** An instant: seconds since the Unix epoch and the nanoseconds within
    the second, [0 <= nsec < 10^9]. Locations are not modelled: [UTC]
    changes the location of a time, not its instant. *)
Record Time : Type := mkTime { sec : Z; nsec : Z }.

Definition UTC (t : Time) : Time := t.

Definition int64 (z : Z) : Z := (z + 2 ^ 63) mod 2 ^ 64 - 2 ^ 63.

(** [time.Unix(sec, nsec)]: [nsec] outside [0, 10^9) is carried into
    [sec]; Go's [/] truncates toward zero. *)
Definition Unix (s n : Z) : Time :=
  if (n <? 0) || (1000000000 <=? n) then
    let q := Z.quot n 1000000000 in
    let s1 := s + q in
    let n1 := n - q * 1000000000 in
    if n1 <? 0 then mkTime (s1 - 1) (n1 + 1000000000) else mkTime s1 n1
  else mkTime s n.

(** [t.UnixNano()]: computed in int64, so it wraps for instants outside
    the years 1678 to 2262. *)
Definition UnixNano (t : Time) : Z := int64 (sec t * 1000000000 + nsec t).

Definition ltb (a b : Time) : bool :=
  (sec a <? sec b) || ((sec a =? sec b) && (nsec a <? nsec b)).

Definition wf (t : Time) : Prop := 0 <= nsec t < 1000000000.

(** The instants whose nanosecond count fits an int64. *)
Definition nano_representable (t : Time) : Prop :=
  wf t /\ - 2 ^ 63 <= sec t * 1000000000 + nsec t < 2 ^ 63.

End time.

(** ** logproto *)

Module logproto.

Inductive Direction : Type := FORWARD | BACKWARD.

Definition Direction_String (d : logproto.Direction) : string :=
  match d with FORWARD => "FORWARD" | BACKWARD => "BACKWARD" end.

Record Entry : Type := mkEntry {
  Timestamp : time.Time;
  Line : string;
  StructuredMetadata : list (string * string)
}.

Record Stream : Type := mkStream {
  Labels : string;
  Entries : list Entry
}.

(** [Labels] is a Go [map[string]string]. *)
Module SeriesIdentifier.
Record t : Type := mk {
  Labels : gmap string string
}.
End SeriesIdentifier.

Record IndexStatsResponse : Type := mkIndexStats {
  Streams : Z; Chunks : Z; Bytes : Z; IndexEntries : Z
}.

Record Volume : Type := mkVolume { Name : string; VolumeValue : Z }.

Record VolumeResponse : Type := mkVolumeResponse {
  Volumes : list Volume;
  VolumeLimit : Z
}.

End logproto.
Import logproto.

(** ** Query statistics *)

Module stats.

(** Modelled from the spec: the type [stats.Result] of
    [pkg/logqlmodel/stats], "a statistics record accumulating counters
    (bytes processed, lines processed, queue time, etc.) that is
    monotonically combinable by addition". The zero value of the Go
    struct has every counter at zero. *)
Record Result : Type := mkResult {
  BytesProcessed : Z;
  LinesProcessed : Z;
  QueueTime : Z;
  OtherCounters : list Z
}.

(** The zero value of the Go struct. *)
Definition zero : Result := mkResult 0 0 0 [].

(** Modelled from the spec: the remaining counters are added position by
    position. *)
Fixpoint add_counters (a b : list Z) : list Z :=
  match a, b with
  | [], _ => b
  | _, [] => a
  | x :: a', y :: b' => (x + y) :: add_counters a' b'
  end.

(** Modelled from the spec: the field-wise sum of two records. *)
Definition add (r m : Result) : Result :=
  mkResult (BytesProcessed r + BytesProcessed m)
           (LinesProcessed r + LinesProcessed m)
           (QueueTime r + QueueTime m)
           (add_counters (OtherCounters r) (OtherCounters m)).

(** Modelled from the spec: [Result.MergeSplit] of
    [pkg/logqlmodel/stats], which the merger calls on its accumulator
    for every input; "merged statistics equal the field-wise sum of each
    input's statistics". *)
Definition MergeSplit (r m : Result) : Result := add r m.

(** The field-wise sum of a list of records. *)
Definition sum (l : list Result) : Result := foldr add zero l.

End stats.

(** ** Response variants *)

Record PrometheusResponseHeader : Type := mkHeader {
  HeaderName : string;
  HeaderValues : list string
}.

(** The messages of [queryrangebase/queryrange.proto] that the merger
    handles. A sample value is kept as the 64 bits of its float. *)
Module queryrangebase.

Record SampleStream : Type := mkSampleStream {
  labels : list (string * string);
  samples : list (Z * Z)
}.

Record PrometheusData : Type := mkPrometheusData {
  ResultType : string;
  Result : list SampleStream
}.

Record PrometheusResponse : Type := mkPrometheusResponse {
  Status : string;
  Data : PrometheusData;
  ErrorType : string;
  Error : string;
  Headers : list PrometheusResponseHeader
}.

End queryrangebase.

Definition QueryStatusSuccess : string := "success".
Definition ResultTypeStream : string := "streams".

Record LokiData : Type := mkLokiData {
  ResultType : string;
  Result : list Stream
}.

Record LokiResponse : Type := mkLokiResponse {
  Status : string;
  Data : LokiData;
  ErrorType : string;
  Error : string;
  Direction : logproto.Direction;
  Limit : N;
  Version : N;
  Statistics : stats.Result;
  Headers : list PrometheusResponseHeader
}.

Module LokiSeriesResponse.
Record t : Type := mk {
  Status : string;
  Data : list SeriesIdentifier.t;
  Version : N;
  Headers : list PrometheusResponseHeader;
  Statistics : stats.Result
}.
End LokiSeriesResponse.

Module LokiLabelNamesResponse.
Record t : Type := mk {
  Status : string;
  Data : list string;
  Version : N;
  Headers : list PrometheusResponseHeader;
  Statistics : stats.Result
}.
End LokiLabelNamesResponse.

(** The [Response] fields below are Go pointers; [None] is nil. *)
Module LokiPromResponse.
Record t : Type := mk {
  Response : option queryrangebase.PrometheusResponse;
  Statistics : stats.Result
}.
End LokiPromResponse.

Module IndexStatsResponse.
Record t : Type := mk {
  Response : option logproto.IndexStatsResponse;
  Headers : list PrometheusResponseHeader
}.
End IndexStatsResponse.

Module VolumeResponse.
Record t : Type := mk {
  Response : option logproto.VolumeResponse;
  Headers : list PrometheusResponseHeader
}.
End VolumeResponse.

Record LokiSeriesResponseView : Type := mkView {
  buffer : list Byte.byte;
  viewHeaders : list PrometheusResponseHeader
}.

Record MergedSeriesResponseView : Type := mkMergedView {
  responses : list LokiSeriesResponseView;
  mergedHeaders : list PrometheusResponseHeader
}.

(** The dynamic type of a [queryrangebase.Response] value, with the value
    it points to. [RNilLokiResponse] is a nil [LokiResponse] pointer; the
    last two are the response types this merger has no case for. *)
Inductive Response : Type :=
  | RLokiPromResponse (r : LokiPromResponse.t)
  | RLokiResponse (r : LokiResponse)
  | RNilLokiResponse
  | RLokiSeriesResponse (r : LokiSeriesResponse.t)
  | RLokiSeriesResponseView (r : LokiSeriesResponseView)
  | RMergedSeriesResponseView (r : MergedSeriesResponseView)
  | RLokiLabelNamesResponse (r : LokiLabelNamesResponse.t)
  | RIndexStatsResponse (r : IndexStatsResponse.t)
  | RVolumeResponse (r : VolumeResponse.t)
  | RTopKSketchesResponse
  | RQuantileSketchResponse.

(** ** Ordering helpers *)

Module ordering.

(** Modelled from the spec: [byDir] of this package's ordering helpers,
    the entry lists ("markers") gathered for one label-set key, with
    the direction they are to be ordered in. *)
Record byDir : Type := mkByDir {
  markers : list (list Entry);
  direction : logproto.Direction;
  labels : string
}.

(** Modelled from the spec: the time a marker starts at, the timestamp of
    its first entry (the epoch for a marker without entries). *)
Definition start (m : list Entry) : time.Time :=
  match m with
  | e :: _ => Timestamp e
  | [] => time.mkTime 0 0
  end.

(** Modelled from the spec: the "time order" of two markers; [x] may come
    before [y] when it starts not later for FORWARD, not earlier for
    BACKWARD. *)
Definition marker_before (d : logproto.Direction) (x y : list Entry) : Prop :=
  match d with
  | FORWARD => time.ltb (start y) (start x) = false
  | BACKWARD => time.ltb (start x) (start y) = false
  end.

Global Instance marker_before_dec d x y : Decision (marker_before d x y).
Proof. destruct d; unfold marker_before; apply _. Defined.

(** Modelled from the spec: [byDir.merge], "each group's entries,
    concatenated in time order": the markers are ordered by their first
    timestamp and appended to one another. *)
Definition merge (a : byDir) : list Entry :=
  concat (merge_sort (marker_before (direction a)) (markers a)).

(** Modelled from the spec: [priorityqueue], "a priority structure
    ordered by entry timestamp (max-heap for BACKWARD direction, min-heap
    for FORWARD)", holding streams that each have an entry left. *)
Record priorityqueue : Type := mkPQ {
  streams : list Stream;
  pq_direction : logproto.Direction
}.

(** Modelled from the spec: the order of the priority structure, by the
    timestamp of the first entry. *)
Definition Less (d : logproto.Direction) (a b : Stream) : bool :=
  match d with
  | FORWARD => time.ltb (start (Entries a)) (start (Entries b))
  | BACKWARD => time.ltb (start (Entries b)) (start (Entries a))
  end.

(** Modelled from the spec: the stream of [s :: l] whose first entry is
    the globally next one, and the other streams. *)
Fixpoint pick (d : logproto.Direction) (s : Stream) (l : list Stream)
  : Stream * list Stream :=
  match l with
  | [] => (s, [])
  | t :: l' =>
      let '(m, r) := pick d t l' in
      if Less d m s then (m, s :: r) else (s, l)
  end.

(** Modelled from the spec: [heap.Pop] on the queue, "pop the
    globally-next entry"; the source's comment on the call reads "This
    will be a stream (to preserve labels) with one entry". The rest of
    the stream stays in the queue when it has entries left. [None] is
    the empty queue, which the caller never pops. *)
Definition heap_Pop (pq : priorityqueue) : option (Stream * priorityqueue) :=
  match streams pq with
  | [] => None
  | s :: l =>
      let '(m, r) := pick (pq_direction pq) s l in
      let next := mkStream (Labels m) (take 1 (Entries m)) in
      let r' := match drop 1 (Entries m) with
                | [] => r
                | remaining => r ++ [mkStream (Labels m) remaining]
                end in
      Some (next, mkPQ r' (pq_direction pq))
  end.

End ordering.
Import ordering.

(** ** Merging log streams *)

(** Go's [sort.Strings]: byte-wise lexicographic order. *)
Definition String_le (a b : string) : Prop := String.leb a b = true.
Definition String_lt (a b : string) : Prop := String.ltb a b = true.

Global Instance String_le_dec a b : Decision (String_le a b).
Proof. unfold String_le. apply _. Defined.

(** [sort.Strings(keys)], or [sort.Sort(sort.Reverse(sort.StringSlice(keys)))]
    when the direction is BACKWARD. *)
Definition sort_keys (direction : logproto.Direction) (keys : list string)
  : list string :=
  match direction with
  | BACKWARD => merge_sort (flip String_le) keys
  | FORWARD => merge_sort String_le keys
  end.

(** The body of the inner loop: one stream of a response joins its group. *)
Definition group_stream (direction : logproto.Direction)
    (st : gmap string byDir * nat) (stream : Stream) : gmap string byDir * nat :=
  let '(groups, total) := st in
  let s := default (mkByDir [] direction (Labels stream)) (groups !! Labels stream) in
  (<[Labels stream := mkByDir (markers s ++ [Entries stream]) (ordering.direction s) (labels s)]> groups,
   (total + length (Entries stream))%nat).

(** The outer loop, with its [break] once [total >= int(limit)]. *)
Fixpoint group_resps (direction : logproto.Direction) (limit : N)
    (resps : list LokiResponse) (st : gmap string byDir * nat)
  : gmap string byDir * nat :=
  match resps with
  | [] => st
  | resp :: rest =>
      let st' := foldl (group_stream direction) st (Result (Data resp)) in
      if (N.to_nat limit <=? st'.2)%nat then st'
      else group_resps direction limit rest st'
  end.

(** [groups[key].merge()]; every key the caller asks for is in [groups]. *)
Definition group_entries (groups : gmap string byDir) (key : string) : list Entry :=
  match groups !! key with
  | Some s => merge s
  | None => []
  end.

(** The loop [for i := 0; i < int(limit) && pq.Len() > 0; i++]. *)
Fixpoint pop_loop (n : nat) (pq : priorityqueue)
    (resultDict : gmap string Stream) : gmap string Stream :=
  match n with
  | O => resultDict
  | S n' =>
      match heap_Pop pq with
      | None => resultDict
      | Some (next, pq') =>
          let s := default (mkStream (Labels next) []) (resultDict !! Labels next) in
          pop_loop n' pq'
            (<[Labels next := mkStream (Labels s) (Entries s ++ Entries next)]> resultDict)
      end
  end.

(** [mergeOrderedNonOverlappingStreams]. [heap.Init] orders the queue and
    leaves the streams it holds as they are. *)
Definition mergeOrderedNonOverlappingStreams
    (resps : list LokiResponse) (limit : N) (direction : logproto.Direction)
  : list Stream :=
  let '(groups, total) := group_resps direction limit resps (∅, 0%nat) in
  let keys := sort_keys direction (map_to_list groups).*1 in
  if (total <=? N.to_nat limit)%nat then
    (λ key, mkStream key (group_entries groups key)) <$> keys
  else
    let pq := mkPQ
      (filter (λ stream, (0 < length (Entries stream))%nat)
         ((λ key, mkStream key (group_entries groups key)) <$> keys))
      direction in
    let resultDict := pop_loop (N.to_nat limit) pq ∅ in
    omap (λ key, resultDict !! key) keys.

(** [LokiResponse.Count]. *)
Definition Count (res : LokiResponse) : Z :=
  foldl (λ result s, result + Z.of_nat (length (Entries s))) 0 (Result (Data res)).

(** The type assertion of [res] to a [LokiResponse] pointer. *)
Definition as_LokiResponse (res : Response) : outcome LokiResponse :=
  match res with
  | RLokiResponse r => Returns r
  | _ => Panics
  end.

Definition as_LokiPromResponse (res : Response) : outcome LokiPromResponse.t :=
  match res with
  | RLokiPromResponse r => Returns r
  | _ => Panics
  end.

Definition as_LokiSeriesResponse (res : Response) : outcome LokiSeriesResponse.t :=
  match res with
  | RLokiSeriesResponse r => Returns r
  | _ => Panics
  end.

Definition as_LokiSeriesResponseView (res : Response)
  : outcome LokiSeriesResponseView :=
  match res with
  | RLokiSeriesResponseView r => Returns r
  | _ => Panics
  end.

Definition as_MergedSeriesResponseView (res : Response)
  : outcome MergedSeriesResponseView :=
  match res with
  | RMergedSeriesResponseView r => Returns r
  | _ => Panics
  end.

Definition as_LokiLabelNamesResponse (res : Response)
  : outcome LokiLabelNamesResponse.t :=
  match res with
  | RLokiLabelNamesResponse r => Returns r
  | _ => Panics
  end.

Definition as_IndexStatsResponse (res : Response) : outcome IndexStatsResponse.t :=
  match res with
  | RIndexStatsResponse r => Returns r
  | _ => Panics
  end.

Definition as_VolumeResponse (res : Response) : outcome VolumeResponse.t :=
  match res with
  | RVolumeResponse r => Returns r
  | _ => Panics
  end.

(** [for _, res := range responses] with a body that may panic. *)
Fixpoint range {A S : Type} (body : S -> A -> outcome S)
    (l : list A) (st : S) : outcome S :=
  match l with
  | [] => Returns st
  | x :: rest => st' ← body st x; range body rest st'
  end.

(** The body of the loop of [mergeLokiResponse] over its arguments. *)
Definition collect_loki (acc : stats.Result * list LokiResponse)
    (res : Response) : outcome (stats.Result * list LokiResponse) :=
  lokiResult ← as_LokiResponse res;
  mret (stats.MergeSplit acc.1 (Statistics lokiResult), acc.2 ++ [lokiResult]).

(** [mergeLokiResponse]; [None] is the nil pointer it returns for no
    arguments. *)
Definition mergeLokiResponse (responses : list Response)
  : outcome (option LokiResponse) :=
  match responses with
  | [] => Returns None
  | first :: _ =>
      lokiRes ← as_LokiResponse first;
      '(mergedStats, lokiResponses) ← range collect_loki responses (stats.zero, []);
      Returns (Some {|
        Status := QueryStatusSuccess;
        Direction := Direction lokiRes;
        Limit := Limit lokiRes;
        Version := Version lokiRes;
        ErrorType := ErrorType lokiRes;
        Error := Error lokiRes;
        Statistics := mergedStats;
        Data := {| ResultType := ResultTypeStream;
                   Result := mergeOrderedNonOverlappingStreams lokiResponses
                               (Limit lokiRes) (Direction lokiRes) |};
        Headers := []
      |})
  end.

(** ** [Codec.MergeResponse] *)

(** The [(value, error)] pair a fallible Go function returns. *)
Inductive result (A : Type) : Type :=
  | Ok (a : A)
  | Err (e : error).
Arguments Ok {A} a.
Arguments Err {A} e.

(** The collaborators of the merger that live in other packages:
    [SeriesIdentifier.Hash] (the buffers it reuses do not change its
    value), [queryrangebase.PrometheusCodec.MergeResponse],
    [indexStats.MergeStats] and [seriesvolume.Merge]. *)
Class MergeEnv : Type := {
  Hash : SeriesIdentifier.t -> Z;
  PrometheusCodec_MergeResponse :
    list (option queryrangebase.PrometheusResponse) ->
    result (option queryrangebase.PrometheusResponse);
  indexStats_MergeStats :
    list (option logproto.IndexStatsResponse) -> logproto.IndexStatsResponse;
  seriesvolume_Merge :
    list (option logproto.VolumeResponse) -> Z -> option logproto.VolumeResponse
}.

Section MergeResponse.

Context {env : MergeEnv}.

Definition collect_prom
    (acc : stats.Result * list (option queryrangebase.PrometheusResponse))
    (res : Response)
  : outcome (stats.Result * list (option queryrangebase.PrometheusResponse)) :=
  r ← as_LokiPromResponse res;
  mret (stats.MergeSplit acc.1 (LokiPromResponse.Statistics r), acc.2 ++ [LokiPromResponse.Response r]).

(** The inner loop of the series case: a series is kept when its hash has
    not been seen. *)
Definition series_step (st : list SeriesIdentifier.t * gset Z)
    (series : SeriesIdentifier.t) : list SeriesIdentifier.t * gset Z :=
  let '(lokiSeriesData, uniqueSeries) := st in
  let key := Hash series in
  if decide (key ∈ uniqueSeries) then st
  else (lokiSeriesData ++ [series], {[key]} ∪ uniqueSeries).

Definition collect_series
    (acc : stats.Result * (list SeriesIdentifier.t * gset Z)) (res : Response)
  : outcome (stats.Result * (list SeriesIdentifier.t * gset Z)) :=
  lokiResult ← as_LokiSeriesResponse res;
  mret (stats.MergeSplit acc.1 (LokiSeriesResponse.Statistics lokiResult),
        foldl series_step acc.2 (LokiSeriesResponse.Data lokiResult)).

Definition collect_views (acc : list LokiSeriesResponseView) (res : Response)
  : outcome (list LokiSeriesResponseView) :=
  r ← as_LokiSeriesResponseView res; mret (acc ++ [r]).

Definition collect_merged_views (acc : list LokiSeriesResponseView)
    (res : Response) : outcome (list LokiSeriesResponseView) :=
  r ← as_MergedSeriesResponseView res; mret (acc ++ responses r).

Definition names_step (st : list string * gset string) (labelName : string)
  : list string * gset string :=
  let '(names, uniqueNames) := st in
  if decide (labelName ∈ uniqueNames) then st
  else (names ++ [labelName], {[labelName]} ∪ uniqueNames).

Definition collect_names
    (acc : stats.Result * (list string * gset string)) (res : Response)
  : outcome (stats.Result * (list string * gset string)) :=
  lokiResult ← as_LokiLabelNamesResponse res;
  mret (stats.MergeSplit acc.1 (LokiLabelNamesResponse.Statistics lokiResult),
        foldl names_step acc.2 (LokiLabelNamesResponse.Data lokiResult)).

Definition collect_index_stats
    (acc : list (option logproto.IndexStatsResponse)) (res : Response)
  : outcome (list (option logproto.IndexStatsResponse)) :=
  r ← as_IndexStatsResponse res; mret (acc ++ [IndexStatsResponse.Response r]).

Definition collect_volumes
    (acc : list (option logproto.VolumeResponse)) (res : Response)
  : outcome (list (option logproto.VolumeResponse)) :=
  r ← as_VolumeResponse res; mret (acc ++ [VolumeResponse.Response r]).

Definition MergeResponse (responses : list Response)
  : outcome (result Response) :=
  match responses with
  | [] =>
      mret (Err (errors_New "merging responses requires at least one response"))
  | first :: _ =>
      match first with
      | RLokiPromResponse _ =>
          '(mergedStats, promResponses) ←
            range collect_prom responses (stats.zero, []);
          match PrometheusCodec_MergeResponse promResponses with
          | Err err => mret (Err err)
          | Ok promRes =>
              mret (Ok (RLokiPromResponse {|
                LokiPromResponse.Response := promRes;
                LokiPromResponse.Statistics := mergedStats |}))
          end
      | RLokiResponse _ | RNilLokiResponse =>
          merged ← mergeLokiResponse responses;
          mret (Ok (from_option RLokiResponse RNilLokiResponse merged))
      | RLokiSeriesResponse lokiSeriesRes =>
          '(mergedStats, (lokiSeriesData, _)) ←
            range collect_series responses (stats.zero, ([], ∅));
          mret (Ok (RLokiSeriesResponse {|
            LokiSeriesResponse.Status := LokiSeriesResponse.Status lokiSeriesRes;
            LokiSeriesResponse.Version := LokiSeriesResponse.Version lokiSeriesRes;
            LokiSeriesResponse.Data := lokiSeriesData;
            LokiSeriesResponse.Statistics := mergedStats;
            LokiSeriesResponse.Headers := [] |}))
      | RLokiSeriesResponseView _ =>
          v ← range collect_views responses [];
          mret (Ok (RMergedSeriesResponseView
                      {| responses := v; mergedHeaders := [] |}))
      | RMergedSeriesResponseView _ =>
          v ← range collect_merged_views responses [];
          mret (Ok (RMergedSeriesResponseView
                      {| responses := v; mergedHeaders := [] |}))
      | RLokiLabelNamesResponse labelNameRes =>
          '(mergedStats, (names, _)) ←
            range collect_names responses (stats.zero, ([], ∅));
          mret (Ok (RLokiLabelNamesResponse {|
            LokiLabelNamesResponse.Status := LokiLabelNamesResponse.Status labelNameRes;
            LokiLabelNamesResponse.Version := LokiLabelNamesResponse.Version labelNameRes;
            LokiLabelNamesResponse.Data := names;
            LokiLabelNamesResponse.Statistics := mergedStats;
            LokiLabelNamesResponse.Headers := [] |}))
      | RIndexStatsResponse first_ =>
          let headers := IndexStatsResponse.Headers first_ in
          sts ← range collect_index_stats responses [];
          mret (Ok (RIndexStatsResponse {|
            IndexStatsResponse.Response := Some (indexStats_MergeStats sts);
            IndexStatsResponse.Headers := headers |}))
      | RVolumeResponse resp0 =>
          let headers := VolumeResponse.Headers resp0 in
          resps ← range collect_volumes responses [];
          match VolumeResponse.Response resp0 with
          | None => Panics
          | Some v =>
              mret (Ok (RVolumeResponse {|
                VolumeResponse.Response := seriesvolume_Merge resps (VolumeLimit v);
                VolumeResponse.Headers := headers |}))
          end
      | RTopKSketchesResponse | RQuantileSketchResponse =>
          mret (Err (errors_New "unknown response type in merging responses"))
      end
  end.

End MergeResponse.

(** The statistics record a response carries, for the kinds that have
    one. *)
Definition statistics_of (r : Response) : option stats.Result :=
  match r with
  | RLokiPromResponse r => Some (LokiPromResponse.Statistics r)
  | RLokiResponse r => Some (Statistics r)
  | RLokiSeriesResponse r => Some (LokiSeriesResponse.Statistics r)
  | RLokiLabelNamesResponse r => Some (LokiLabelNamesResponse.Statistics r)
  | _ => None
  end.

(** * The request codec *)

(** ** Request variants *)

Module LokiRequest.
Record t : Type := mk {
  Query : string;
  Limit : N;
  Step : Z;
  Interval : Z;
  StartTs : time.Time;
  EndTs : time.Time;
  Direction : logproto.Direction;
  Path : string;
  Shards : list string
}.
End LokiRequest.

Module LokiInstantRequest.
Record t : Type := mk {
  Query : string;
  Limit : N;
  TimeTs : time.Time;
  Direction : logproto.Direction;
  Path : string;
  Shards : list string
}.
End LokiInstantRequest.

Module LokiSeriesRequest.
Record t : Type := mk {
  Match : list string;
  StartTs : time.Time;
  EndTs : time.Time;
  Path : string;
  Shards : list string
}.
End LokiSeriesRequest.

(** [LabelRequest]: the path and the embedded [logproto.LabelRequest],
    whose [Start] and [End] are pointers. *)
Module LabelRequest.
Record t : Type := mk {
  path : string;
  Name : string;
  Values : bool;
  Start : option time.Time;
  End_ : option time.Time;
  Query : string
}.
End LabelRequest.

(** [From] and [Through] are [model.Time]: int64 milliseconds. *)
Module IndexStatsRequest.
Record t : Type := mk {
  From : Z;
  Through : Z;
  Matchers : string
}.
End IndexStatsRequest.

Module VolumeRequest.
Record t : Type := mk {
  From : Z;
  Through : Z;
  Matchers : string;
  Limit : Z;
  Step : Z;
  TargetLabels : list string;
  AggregateBy : string
}.
End VolumeRequest.

(** The dynamic type of a [queryrangebase.Request]; [ReqOther] is any
    implementation the codec has no case for. *)
Inductive Request : Type :=
  | ReqLokiRequest (r : LokiRequest.t)
  | ReqLokiInstantRequest (r : LokiInstantRequest.t)
  | ReqLokiSeriesRequest (r : LokiSeriesRequest.t)
  | ReqLabelRequest (r : LabelRequest.t)
  | ReqIndexStatsRequest (r : IndexStatsRequest.t)
  | ReqVolumeRequest (r : VolumeRequest.t)
  | ReqOther.

(** [model.Time.Time()]: [time.Unix(t/1000, (t%1000)*10^6)], with Go's
    truncating division. *)
Definition model_Time (t : Z) : time.Time :=
  time.Unix (Z.quot t 1000) (Z.rem t 1000 * 1000000).

(** [time.Duration.Milliseconds()], a duration being int64 nanoseconds. *)
Definition Milliseconds (d : Z) : Z := Z.quot d 1000000.

(** The conversion [int32(x)]. *)
Definition int32 (z : Z) : Z := (z + 2 ^ 31) mod 2 ^ 32 - 2 ^ 31.

(** ** Transport requests *)

(** [url.Values] and [http.Header]. *)
Abbreviation Values := (gmap string (list string)).

(** An [http.Request]. [Form] is the query string as [ParseForm] reads
    it: the values it encodes, or the error for a malformed one. *)
Record HTTPRequest : Type := mkHTTPRequest {
  Method : string;
  URL_Path : string;
  Form : result Values;
  Header : Values
}.

(** [validHeaderFieldByte] of [net/textproto]: the bytes of an RFC 7230
    token, which are the letters, the digits and some punctuation. *)
Definition validHeaderFieldByte (c : Ascii.ascii) : bool :=
  let n := Ascii.N_of_ascii c in
  ((48 <=? n) && (n <=? 57) || (65 <=? n) && (n <=? 90) ||
   (97 <=? n) && (n <=? 122) ||
   existsb (Ascii.eqb c) (String.list_ascii_of_string "!#$%&'*+-.^_`|~"))%N.

(** The loop of [canonicalMIMEHeaderKey]: the first letter and a letter
    after a hyphen (the byte 45) in upper case, the other letters in
    lower case. *)
Fixpoint canonical_bytes (upper : bool) (s : string) : string :=
  match s with
  | EmptyString => EmptyString
  | String c s' =>
      let n := Ascii.N_of_ascii c in
      let c' :=
        (if upper && (97 <=? n) && (n <=? 122) then Ascii.ascii_of_N (n - 32)
         else if negb upper && (65 <=? n) && (n <=? 90) then Ascii.ascii_of_N (n + 32)
         else c)%N in
      String c' (canonical_bytes (Ascii.N_of_ascii c' =? 45)%N s')
  end.

(** [textproto.CanonicalMIMEHeaderKey]: a key with a byte that is not
    one of a token is returned as it is. *)
Definition CanonicalMIMEHeaderKey (s : string) : string :=
  if forallb validHeaderFieldByte (String.list_ascii_of_string s)
  then canonical_bytes true s else s.

(** [h.Get(key)]: the first value stored under the canonical form of the
    key, or the empty string. *)
Definition Header_Get (h : Values) (key : string) : string :=
  match h !! CanonicalMIMEHeaderKey key with
  | Some (v :: _) => v
  | _ => ""
  end.

(** [h.Set(key, value)]: the value is stored under the canonical form of
    the key. An assignment [h[key] = values] stores under the key as it
    is spelled; it is written [<[key := values]> h]. *)
Definition Header_Set (h : Values) (key value : string) : Values :=
  <[CanonicalMIMEHeaderKey key := [value]]> h.

(** An [httpgrpc.HTTPRequest]. *)
Record httpgrpc_HTTPRequest : Type := mkGrpcRequest {
  grpc_Method : string;
  grpc_Url : string;
  grpc_Headers : list (string * list string);
  grpc_Body : list Byte.byte
}.

(** The values the codec reads from and writes to the request context. *)
Record Context (QueryLimits : Type) : Type := mkContext {
  ctx_orgID : option string;
  ctx_queryTags : string;
  ctx_encodingFlagsHeader : string;
  ctx_actorPath : string;
  ctx_queryLimits : option QueryLimits;
  ctx_queueTime : option Z;
  ctx_encodingFlags : option (list string)
}.
Arguments mkContext {QueryLimits}.
Arguments ctx_orgID {QueryLimits}.
Arguments ctx_queryTags {QueryLimits}.
Arguments ctx_encodingFlagsHeader {QueryLimits}.
Arguments ctx_actorPath {QueryLimits}.
Arguments ctx_queryLimits {QueryLimits}.
Arguments ctx_queueTime {QueryLimits}.
Arguments ctx_encodingFlags {QueryLimits}.

(** The route a path is dispatched to. *)
Inductive Op : Type :=
  | QueryRangeOp | InstantQueryOp | SeriesOp | LabelNamesOp
  | IndexStatsOp | VolumeOp | VolumeRangeOp.

(** What the parsers of [loghttp] return. *)
Module loghttp.

Record RangeQuery : Type := mkRangeQuery {
  Start : time.Time;
  End_ : time.Time;
  Step : Z;
  Interval : Z;
  Query : string;
  Direction : logproto.Direction;
  Limit : N;
  Shards : list string
}.

Record InstantQuery : Type := mkInstantQuery {
  Ts : time.Time;
  IQuery : string;
  IDirection : logproto.Direction;
  ILimit : N;
  IShards : list string
}.

Record SeriesRequest : Type := mkSeriesRequest {
  SStart : time.Time;
  SEnd : time.Time;
  Groups : list string;
  SShards : list string
}.

Record VolumeQuery : Type := mkVolumeQuery {
  VStart : time.Time;
  VEnd : time.Time;
  VStep : Z;
  VQuery : string;
  VLimit : N;
  TargetLabels : list string;
  AggregateBy : string
}.

End loghttp.

(** The collaborators of the codec that live in other packages: the
    route table [getOperation] ([None] when the path matches no route),
    the query-string parsers of [loghttp], [util.RoundToMilliseconds], the
    label route pattern, the query-limits header writer, the header names,
    the float formatting [fmt.Sprintf("%f", float64(ms)/float64(1e3))],
    and, from the Go libraries, [http.NewRequest], [time.ParseDuration]
    and the readers of query tags and encoding flags. *)
Class CodecEnv (QueryLimits : Type) : Type := {
  getOperation : string -> option Op;
  ParseRangeQuery : HTTPRequest -> result loghttp.RangeQuery;
  ParseInstantQuery : HTTPRequest -> result loghttp.InstantQuery;
  ParseAndValidateSeriesQuery : HTTPRequest -> result loghttp.SeriesRequest;
  ParseLabelQuery : HTTPRequest -> result LabelRequest.t;
  ParseIndexStatsQuery : HTTPRequest -> result loghttp.RangeQuery;
  ParseVolumeInstantQuery : HTTPRequest -> result loghttp.VolumeQuery;
  ParseVolumeRangeQuery : HTTPRequest -> result loghttp.VolumeQuery;
  RoundToMilliseconds : time.Time -> time.Time -> Z * Z;
  labelNamesRoutes_FindSubmatch : string -> list string;
  http_NewRequest : string -> string -> list Byte.byte -> result HTTPRequest;
  ExtractQueryTagsFromHTTP : HTTPRequest -> string;
  time_ParseDuration : string -> option Z;
  ExtractEncodingFlagsFromProto : httpgrpc_HTTPRequest -> option (list string);
  InjectQueryLimitsHeader : Values -> QueryLimits -> result Values;
  fmt_seconds : Z -> string;
  QueryTagsHTTPHeader : string;
  LokiEncodingFlagsHeader : string;
  LokiActorPathHeader : string;
  OrgIDHeaderName : string;
  QueryQueueTimeHTTPHeader : string
}.

Section Codec.

Context {QueryLimits : Type} {env : CodecEnv QueryLimits}.

Definition error_message (e : error) : string :=
  match e with
  | httpgrpc_Errorf _ msg => msg
  | errors_New msg => msg
  end.

Definition BadRequest {A} (e : error) : result A :=
  Err (httpgrpc_Errorf StatusBadRequest (error_message e)).

(** The route dispatch shared by the two decoders, from the parsed
    request [r]; [path] is what the request variant records as its
    path, [unknown] the status for a path outside the route table. *)
Definition decode_route (r : HTTPRequest) (path : string)
    (grpc : bool) (unknown : error) : result Request :=
  match getOperation (URL_Path r) with
  | Some QueryRangeOp =>
      match ParseRangeQuery r with
      | Err err => BadRequest err
      | Ok rangeQuery =>
          Ok (ReqLokiRequest {|
            LokiRequest.Query := loghttp.Query rangeQuery;
            LokiRequest.Limit := loghttp.Limit rangeQuery;
            LokiRequest.Direction := loghttp.Direction rangeQuery;
            LokiRequest.StartTs := time.UTC (loghttp.Start rangeQuery);
            LokiRequest.EndTs := time.UTC (loghttp.End_ rangeQuery);
            LokiRequest.Step := Milliseconds (loghttp.Step rangeQuery);
            LokiRequest.Interval := Milliseconds (loghttp.Interval rangeQuery);
            LokiRequest.Path := path;
            LokiRequest.Shards := loghttp.Shards rangeQuery |})
      end
  | Some InstantQueryOp =>
      match ParseInstantQuery r with
      | Err err => BadRequest err
      | Ok req =>
          Ok (ReqLokiInstantRequest {|
            LokiInstantRequest.Query := loghttp.IQuery req;
            LokiInstantRequest.Limit := loghttp.ILimit req;
            LokiInstantRequest.Direction := loghttp.IDirection req;
            LokiInstantRequest.TimeTs := time.UTC (loghttp.Ts req);
            LokiInstantRequest.Path := path;
            LokiInstantRequest.Shards := loghttp.IShards req |})
      end
  | Some SeriesOp =>
      match ParseAndValidateSeriesQuery r with
      | Err err => BadRequest err
      | Ok req =>
          Ok (ReqLokiSeriesRequest {|
            LokiSeriesRequest.Match := loghttp.Groups req;
            LokiSeriesRequest.StartTs := time.UTC (loghttp.SStart req);
            LokiSeriesRequest.EndTs := time.UTC (loghttp.SEnd req);
            LokiSeriesRequest.Path := path;
            LokiSeriesRequest.Shards := loghttp.SShards req |})
      end
  | Some LabelNamesOp =>
      match ParseLabelQuery r with
      | Err err => BadRequest err
      | Ok req =>
          let req :=
            if grpc && bool_decide (LabelRequest.Name req = "") then
              match labelNamesRoutes_FindSubmatch (URL_Path r) with
              | _ :: name :: _ =>
                  {| LabelRequest.path := LabelRequest.path req;
                     LabelRequest.Name := name;
                     LabelRequest.Values := true;
                     LabelRequest.Start := LabelRequest.Start req;
                     LabelRequest.End_ := LabelRequest.End_ req;
                     LabelRequest.Query := LabelRequest.Query req |}
              | _ => req
              end
            else req in
          Ok (ReqLabelRequest {|
            LabelRequest.path := URL_Path r;
            LabelRequest.Name := LabelRequest.Name req;
            LabelRequest.Values := LabelRequest.Values req;
            LabelRequest.Start := LabelRequest.Start req;
            LabelRequest.End_ := LabelRequest.End_ req;
            LabelRequest.Query := LabelRequest.Query req |})
      end
  | Some IndexStatsOp =>
      match ParseIndexStatsQuery r with
      | Err err => BadRequest err
      | Ok req =>
          let '(from, through) :=
            RoundToMilliseconds (loghttp.Start req) (loghttp.End_ req) in
          Ok (ReqIndexStatsRequest {|
            IndexStatsRequest.From := from;
            IndexStatsRequest.Through := through;
            IndexStatsRequest.Matchers := loghttp.Query req |})
      end
  | Some VolumeOp =>
      match ParseVolumeInstantQuery r with
      | Err err => BadRequest err
      | Ok req =>
          let '(from, through) :=
            RoundToMilliseconds (loghttp.VStart req) (loghttp.VEnd req) in
          Ok (ReqVolumeRequest {|
            VolumeRequest.From := from;
            VolumeRequest.Through := through;
            VolumeRequest.Matchers := loghttp.VQuery req;
            VolumeRequest.Limit := int32 (Z.of_N (loghttp.VLimit req));
            VolumeRequest.Step := 0;
            VolumeRequest.TargetLabels := loghttp.TargetLabels req;
            VolumeRequest.AggregateBy := loghttp.AggregateBy req |})
      end
  | Some VolumeRangeOp =>
      match ParseVolumeRangeQuery r with
      | Err err => BadRequest err
      | Ok req =>
          let '(from, through) :=
            RoundToMilliseconds (loghttp.VStart req) (loghttp.VEnd req) in
          Ok (ReqVolumeRequest {|
            VolumeRequest.From := from;
            VolumeRequest.Through := through;
            VolumeRequest.Matchers := loghttp.VQuery req;
            VolumeRequest.Limit := int32 (Z.of_N (loghttp.VLimit req));
            VolumeRequest.Step := Milliseconds (loghttp.VStep req);
            VolumeRequest.TargetLabels := loghttp.TargetLabels req;
            VolumeRequest.AggregateBy := loghttp.AggregateBy req |})
      end
  | None => Err unknown
  end.

(** [Codec.DecodeRequest]. *)
Definition DecodeRequest (r : HTTPRequest) : result Request :=
  match Form r with
  | Err err => BadRequest err
  | Ok _ =>
      decode_route r (URL_Path r) false
        (httpgrpc_Errorf StatusNotFound
           ("unknown request path: " +:+ URL_Path r))
  end.

(** [Codec.DecodeHTTPGrpcRequest]; the context it returns is [None] where
    the source returns a nil context. The listed headers are assigned to
    the header map under their keys as they are spelled;
    [user.ExtractOrgIDFromHTTPRequest] reads the org-ID header with
    [Header.Get] and fails when it is empty. *)
Definition DecodeHTTPGrpcRequest (ctx : Context QueryLimits)
    (r : httpgrpc_HTTPRequest)
  : result Request * option (Context QueryLimits) :=
  match http_NewRequest (grpc_Method r) (grpc_Url r) (grpc_Body r) with
  | Err err =>
      (Err (httpgrpc_Errorf StatusInternalServerError (error_message err)),
       Some ctx)
  | Ok httpReq =>
      let httpReq :=
        mkHTTPRequest (Method httpReq) (URL_Path httpReq) (Form httpReq)
          (foldl (λ h kv, <[kv.1 := kv.2]> h) (Header httpReq) (grpc_Headers r)) in
      (* org ID: from the context, else from the request *)
      let org : result (Context QueryLimits) :=
        match ctx_orgID ctx with
        | Some _ => Ok ctx
        | None =>
            let orgID := Header_Get (Header httpReq) OrgIDHeaderName in
            if decide (orgID = "") then Err (errors_New "no org id")
            else Ok (mkContext (Some orgID) (ctx_queryTags ctx)
                       (ctx_encodingFlagsHeader ctx) (ctx_actorPath ctx)
                       (ctx_queryLimits ctx) (ctx_queueTime ctx)
                       (ctx_encodingFlags ctx))
        end in
      match org with
      | Err err => (Err err, None)
      | Ok ctx =>
          (* query tags *)
          let queryTags := ExtractQueryTagsFromHTTP httpReq in
          let ctx :=
            if decide (queryTags = "") then ctx
            else mkContext (ctx_orgID ctx) queryTags
                   (ctx_encodingFlagsHeader ctx) (ctx_actorPath ctx)
                   (ctx_queryLimits ctx) (ctx_queueTime ctx)
                   (ctx_encodingFlags ctx) in
          (* queue time *)
          let queueTimeHeader :=
            Header_Get (Header httpReq) QueryQueueTimeHTTPHeader in
          let ctx :=
            if decide (queueTimeHeader = "") then ctx
            else match time_ParseDuration queueTimeHeader with
                 | Some queueTime =>
                     mkContext (ctx_orgID ctx) (ctx_queryTags ctx)
                       (ctx_encodingFlagsHeader ctx) (ctx_actorPath ctx)
                       (ctx_queryLimits ctx) (Some queueTime)
                       (ctx_encodingFlags ctx)
                 | None => ctx
                 end in
          (* encoding flags *)
          let ctx :=
            match ctx_encodingFlags ctx with
            | Some _ => ctx
            | None =>
                match ExtractEncodingFlagsFromProto r with
                | Some encFlags =>
                    mkContext (ctx_orgID ctx) (ctx_queryTags ctx)
                      (ctx_encodingFlagsHeader ctx) (ctx_actorPath ctx)
                      (ctx_queryLimits ctx) (ctx_queueTime ctx)
                      (Some encFlags)
                | None => ctx
                end
            end in
          match Form httpReq with
          | Err err => (BadRequest err, Some ctx)
          | Ok _ =>
              (decode_route httpReq (grpc_Url r) true
                 (httpgrpc_Errorf StatusBadRequest
                    ("unknown request path: " +:+ grpc_Url r)),
               Some ctx)
          end
      end
  end.

(** What the query string [params.Encode()] carries: every key with
    its values; a key without values leaves no trace in it. *)
Definition url_Encode (params : Values) : Values :=
  filter (λ kv, kv.2 ≠ []) params.

(** The request every case of [EncodeRequest] builds. *)
Definition GET (path : string) (params header : Values) : HTTPRequest :=
  mkHTTPRequest "GET" path (Ok (url_Encode params)) header.

Definition with_shards (shards : list string) (params : Values) : Values :=
  match shards with
  | [] => params
  | _ => <["shards" := shards]> params
  end.

Definition with_seconds (key : string) (ms : Z) (params : Values) : Values :=
  if decide (ms = 0) then params else <[key := [fmt_seconds ms]]> params.

(** The headers [EncodeRequest] copies from the context; it fails
    without an org ID. *)
Definition encode_header (ctx : Context QueryLimits) : result Values :=
  let header : Values := ∅ in
  let header :=
    if decide (ctx_queryTags ctx = "") then header
    else Header_Set header QueryTagsHTTPHeader (ctx_queryTags ctx) in
  let header :=
    if decide (ctx_encodingFlagsHeader ctx = "") then header
    else Header_Set header LokiEncodingFlagsHeader
           (ctx_encodingFlagsHeader ctx) in
  let header :=
    if decide (ctx_actorPath ctx = "") then header
    else Header_Set header LokiActorPathHeader (ctx_actorPath ctx) in
  let limited :=
    match ctx_queryLimits ctx with
    | Some limits => InjectQueryLimitsHeader header limits
    | None => Ok header
    end in
  match limited with
  | Err err => Err err
  | Ok header =>
      match ctx_orgID ctx with
      | None => Err (errors_New "no org id")
      | Some orgID => Ok (Header_Set header OrgIDHeaderName orgID)
      end
  end.

(** [Codec.EncodeRequest]. Dereferencing the nil [Start] or [End] of a
    [LabelRequest] panics. *)
Definition EncodeRequest (ctx : Context QueryLimits) (r : Request)
  : outcome (result HTTPRequest) :=
  match encode_header ctx with
  | Err err => mret (Err err)
  | Ok header =>
      match r with
      | ReqLokiRequest request =>
          let params : Values :=
            {[ "start" := [pretty (time.UnixNano (LokiRequest.StartTs request))];
               "end" := [pretty (time.UnixNano (LokiRequest.EndTs request))];
               "query" := [LokiRequest.Query request];
               "direction" := [Direction_String (LokiRequest.Direction request)];
               "limit" := [pretty (LokiRequest.Limit request)] ]} in
          let params := with_shards (LokiRequest.Shards request) params in
          let params := with_seconds "step" (LokiRequest.Step request) params in
          let params :=
            with_seconds "interval" (LokiRequest.Interval request) params in
          mret (Ok (GET "/loki/api/v1/query_range" params header))
      | ReqLokiSeriesRequest request =>
          let params : Values :=
            {[ "start" := [pretty (time.UnixNano (LokiSeriesRequest.StartTs request))];
               "end" := [pretty (time.UnixNano (LokiSeriesRequest.EndTs request))];
               "match[]" := LokiSeriesRequest.Match request ]} in
          let params := with_shards (LokiSeriesRequest.Shards request) params in
          mret (Ok (GET "/loki/api/v1/series" params header))
      | ReqLabelRequest request =>
          match LabelRequest.Start request, LabelRequest.End_ request with
          | Some start, Some end_ =>
              let params : Values :=
                {[ "start" := [pretty (time.UnixNano start)];
                   "end" := [pretty (time.UnixNano end_)];
                   "query" := [LabelRequest.Query request] ]} in
              mret (Ok (GET (LabelRequest.path request) params header))
          | _, _ => Panics
          end
      | ReqLokiInstantRequest request =>
          let params : Values :=
            {[ "query" := [LokiInstantRequest.Query request];
               "direction" :=
                 [Direction_String (LokiInstantRequest.Direction request)];
               "limit" := [pretty (LokiInstantRequest.Limit request)];
               "time" :=
                 [pretty (time.UnixNano (LokiInstantRequest.TimeTs request))] ]} in
          let params := with_shards (LokiInstantRequest.Shards request) params in
          mret (Ok (GET "/loki/api/v1/query" params header))
      | ReqIndexStatsRequest request =>
          let params : Values :=
            {[ "start" :=
                 [pretty (time.UnixNano (model_Time (IndexStatsRequest.From request)))];
               "end" :=
                 [pretty (time.UnixNano (model_Time (IndexStatsRequest.Through request)))];
               "query" := [IndexStatsRequest.Matchers request] ]} in
          mret (Ok (GET "/loki/api/v1/index/stats" params header))
      | ReqVolumeRequest request =>
          let params : Values :=
            {[ "start" :=
                 [pretty (time.UnixNano (model_Time (VolumeRequest.From request)))];
               "end" :=
                 [pretty (time.UnixNano (model_Time (VolumeRequest.Through request)))];
               "query" := [VolumeRequest.Matchers request];
               "limit" := [pretty (VolumeRequest.Limit request)];
               "aggregateBy" := [VolumeRequest.AggregateBy request] ]} in
          let params :=
            match VolumeRequest.TargetLabels request with
            | [] => params
            | targetLabels =>
                <["targetLabels" := [String.concat "," targetLabels]]> params
            end in
          if decide (VolumeRequest.Step request = 0) then
            mret (Ok (GET "/loki/api/v1/index/volume" params header))
          else
            mret (Ok (GET "/loki/api/v1/index/volume_range"
                        (<["step" := [fmt_seconds (VolumeRequest.Step request)]]> params)
                        header))
      | ReqOther =>
          mret (Err (httpgrpc_Errorf StatusInternalServerError
                       "invalid request format"))
      end
  end.

End Codec.

(** The fields of a request that say what is asked: query text, time
    bounds, limit, direction and shards, as the request's getters give
    them ([FORWARD], no limit and no shards for the variants without). *)
Record Fields : Type := mkFields {
  f_query : string;
  f_start : option time.Time;
  f_end : option time.Time;
  f_limit : Z;
  f_direction : logproto.Direction;
  f_shards : list string
}.

Definition fields_of (r : Request) : option Fields :=
  match r with
  | ReqLokiRequest r =>
      Some (mkFields (LokiRequest.Query r)
              (Some (LokiRequest.StartTs r)) (Some (LokiRequest.EndTs r))
              (Z.of_N (LokiRequest.Limit r)) (LokiRequest.Direction r)
              (LokiRequest.Shards r))
  | ReqLokiInstantRequest r =>
      Some (mkFields (LokiInstantRequest.Query r)
              (Some (LokiInstantRequest.TimeTs r)) (Some (LokiInstantRequest.TimeTs r))
              (Z.of_N (LokiInstantRequest.Limit r)) (LokiInstantRequest.Direction r)
              (LokiInstantRequest.Shards r))
  | ReqLokiSeriesRequest r =>
      Some (mkFields ""
              (Some (LokiSeriesRequest.StartTs r)) (Some (LokiSeriesRequest.EndTs r))
              0 FORWARD (LokiSeriesRequest.Shards r))
  | ReqLabelRequest r =>
      Some (mkFields (LabelRequest.Query r)
              (LabelRequest.Start r) (LabelRequest.End_ r) 0 FORWARD [])
  | ReqIndexStatsRequest r =>
      Some (mkFields (IndexStatsRequest.Matchers r)
              (Some (model_Time (IndexStatsRequest.From r)))
              (Some (model_Time (IndexStatsRequest.Through r))) 0 FORWARD [])
  | ReqVolumeRequest r =>
      Some (mkFields (VolumeRequest.Matchers r)
              (Some (model_Time (VolumeRequest.From r)))
              (Some (model_Time (VolumeRequest.Through r)))
              (VolumeRequest.Limit r) FORWARD [])
  | ReqOther => None
  end.

(** * The vocabulary of the properties *)

(** ** Streams and their entries *)

(** The order the source leaves its keys in: ascending, or descending for
    BACKWARD; strict, since the keys of a map are distinct. *)
Definition keys_ordered (d : logproto.Direction) (l : list string) : Prop :=
  match d with
  | FORWARD => StronglySorted String_lt l
  | BACKWARD => StronglySorted (flip String_lt) l
  end.

(** The number of entries the streams [ss] hold. *)
Definition entries_total (ss : list Stream) : nat :=
  sum_list_with (λ s, length (Entries s)) ss.

(** The streams of the responses [resps], in their order. *)
Definition all_streams (resps : list LokiResponse) : list Stream :=
  resps ≫= (λ resp, Result (Data resp)).

(** The streams of [ss] whose label-set is [key]. *)
Definition with_label (key : string) (ss : list Stream) : list Stream :=
  filter (λ s, Labels s = key) ss.

(** The entries the streams [ss] hold for [key], in the order of [ss]. *)
Definition flat (key : string) (ss : list Stream) : list Entry :=
  concat (Entries <$> with_label key ss).

(** What the map [groups] holds once the streams [ss] have joined it. *)
Definition grouped (d : logproto.Direction) (ss : list Stream) (key : string) : option byDir :=
  match with_label key ss with
  | [] => None
  | fs => Some (mkByDir (Entries <$> fs) d key)
  end.

(** [groups] is the grouping of the streams [ss]. *)
Definition groups_of (d : logproto.Direction) (groups : gmap string byDir)
    (ss : list Stream) : Prop :=
  forall key, groups !! key = grouped d ss key.

(** ** The state of the pop loop *)

(** The queue holds streams of the keys [ks] that have an entry left. *)
Definition pq_ok (ks : list string) (pq : priorityqueue) : Prop :=
  Forall (λ s, (0 < length (Entries s))%nat /\ Labels s ∈ ks) (streams pq).

(** The number of entries [resultDict] holds for [key]. *)
Definition rd_len (resultDict : gmap string Stream) (key : string) : nat :=
  from_option (λ s, length (Entries s)) 0%nat (resultDict !! key).

(** Every stream of [resultDict] is filed under its own labels. *)
Definition rd_ok (resultDict : gmap string Stream) : Prop :=
  forall key s, resultDict !! key = Some s -> Labels s = key.

(** The entries available across the input responses. *)
Definition total_available (resps : list LokiResponse) : Z :=
  foldr Z.add 0 (Count <$> resps).

(** ** First occurrences *)

(** The elements of [l] that are the first of [l] with their key [h]. *)
Fixpoint dedup_first {A K : Type} `{EqDecision K} (h : A -> K) (l : list A)
  : list A :=
  match l with
  | [] => []
  | x :: l' => x :: filter (λ y, h y ≠ h x) (dedup_first h l')
  end.

(** The loop body shared by the series and the label-name cases. *)
Definition unique_step {A K : Type} `{Countable K} (h : A -> K)
    (st : list A * gset K) (x : A) : list A * gset K :=
  if decide (h x ∈ st.2) then st else (st.1 ++ [x], {[h x]} ∪ st.2).

(** ** Responses in merged form *)

(** A response can be merged with itself alone to no effect. *)
Definition merge_fixed_point {env : MergeEnv} (res : Response) : Prop :=
  match res with
  | RLokiResponse r =>
      Status r = QueryStatusSuccess /\ Headers r = [] /\
      ResultType (Data r) = ResultTypeStream /\
      keys_ordered (Direction r) (Labels <$> Result (Data r)) /\
      Count r <= Z.of_N (Limit r)
  | RLokiSeriesResponse r =>
      LokiSeriesResponse.Headers r = [] /\ NoDup (Hash <$> LokiSeriesResponse.Data r)
  | RLokiLabelNamesResponse r =>
      LokiLabelNamesResponse.Headers r = [] /\ NoDup (LokiLabelNamesResponse.Data r)
  | RMergedSeriesResponseView r => mergedHeaders r = []
  | _ => False
  end.

(** ** Requests on the wire *)

(** A time bound, when the request has it, fits an int64 of nanoseconds. *)
Definition representable (t : option time.Time) : Prop :=
  match t with
  | Some t => time.nano_representable t
  | None => True
  end.

(** The time bounds of a request fit the nanosecond timestamps of the
    wire. *)
Definition bounds_representable (r : Request) : Prop :=
  match fields_of r with
  | Some f => representable (f_start f) /\ representable (f_end f)
  | None => True
  end.

(** The values a transport request has for a parameter. *)
Definition wire_lookup (h : HTTPRequest) (key : string) : option (list string) :=
  match Form h with
  | Ok form => form !! key
  | Err _ => None
  end.

(** The values of a transport request for the parameters the encoder
    writes fields to. *)
Record Wire : Type := mkWire {
  w_start : option (list string);
  w_end : option (list string);
  w_query : option (list string);
  w_direction : option (list string);
  w_limit : option (list string);
  w_shards : option (list string);
  w_time : option (list string)
}.

(** What a transport request carries. *)
Definition wire (h : HTTPRequest) : Wire :=
  mkWire (wire_lookup h "start") (wire_lookup h "end")
    (wire_lookup h "query") (wire_lookup h "direction") (wire_lookup h "limit")
    (wire_lookup h "shards") (wire_lookup h "time").

(** The values of a parameter that is written for a non-empty list only. *)
Definition nonempty (l : list string) : option (list string) :=
  match l with
  | [] => None
  | _ => Some l
  end.

(** What [EncodeRequest] puts on the wire for each variant. *)
Definition wire_of (r : Request) : option Wire :=
  match r with
  | ReqLokiRequest r =>
      Some (mkWire
        (Some [pretty (time.UnixNano (LokiRequest.StartTs r))])
        (Some [pretty (time.UnixNano (LokiRequest.EndTs r))])
        (Some [LokiRequest.Query r])
        (Some [Direction_String (LokiRequest.Direction r)])
        (Some [pretty (LokiRequest.Limit r)])
        (nonempty (LokiRequest.Shards r)) None)
  | ReqLokiInstantRequest r =>
      Some (mkWire None None
        (Some [LokiInstantRequest.Query r])
        (Some [Direction_String (LokiInstantRequest.Direction r)])
        (Some [pretty (LokiInstantRequest.Limit r)])
        (nonempty (LokiInstantRequest.Shards r))
        (Some [pretty (time.UnixNano (LokiInstantRequest.TimeTs r))]))
  | ReqLokiSeriesRequest r =>
      Some (mkWire
        (Some [pretty (time.UnixNano (LokiSeriesRequest.StartTs r))])
        (Some [pretty (time.UnixNano (LokiSeriesRequest.EndTs r))])
        None None None (nonempty (LokiSeriesRequest.Shards r)) None)
  | ReqLabelRequest r =>
      match LabelRequest.Start r, LabelRequest.End_ r with
      | Some start, Some end_ =>
          Some (mkWire
            (Some [pretty (time.UnixNano start)])
            (Some [pretty (time.UnixNano end_)])
            (Some [LabelRequest.Query r]) None None None None)
      | _, _ => None
      end
  | ReqIndexStatsRequest r =>
      Some (mkWire
        (Some [pretty (time.UnixNano (model_Time (IndexStatsRequest.From r)))])
        (Some [pretty (time.UnixNano (model_Time (IndexStatsRequest.Through r)))])
        (Some [IndexStatsRequest.Matchers r]) None None None None)
  | ReqVolumeRequest r =>
      Some (mkWire
        (Some [pretty (time.UnixNano (model_Time (VolumeRequest.From r)))])
        (Some [pretty (time.UnixNano (model_Time (VolumeRequest.Through r)))])
        (Some [VolumeRequest.Matchers r]) None
        (Some [pretty (VolumeRequest.Limit r)]) None None)
  | ReqOther => None
  end.

(** ** A request encoded and decoded *)

(** The route of the path [EncodeRequest] sends each variant to. *)
Definition route_of (r : Request) : option Op :=
  match r with
  | ReqLokiRequest _ => Some QueryRangeOp
  | ReqLokiInstantRequest _ => Some InstantQueryOp
  | ReqLokiSeriesRequest _ => Some SeriesOp
  | ReqLabelRequest _ => Some LabelNamesOp
  | ReqIndexStatsRequest _ => Some IndexStatsOp
  | ReqVolumeRequest r =>
      Some (if decide (VolumeRequest.Step r = 0) then VolumeOp else VolumeRangeOp)
  | ReqOther => None
  end.

(** The values [v] of a timestamp parameter read as the instant [t]:
    they are what the encoder writes for [t], its nanoseconds since the
    epoch in an int64. *)
Definition reads_time (v : option (list string)) (t : time.Time) : Prop :=
  time.nano_representable t /\ v = Some [pretty (time.UnixNano t)].

(** The fields of a request that are an int32 in the source hold one. *)
Definition well_typed (r : Request) : Prop :=
  match r with
  | ReqVolumeRequest r => int32 (VolumeRequest.Limit r) = VolumeRequest.Limit r
  | _ => True
  end.

Section Round_trip.

Context {QueryLimits : Type} {env : CodecEnv QueryLimits}.

(** What the round trip asks of the query-string parsers of [loghttp]:
    the parser of the route of [h] returns a query, and the parameters
    of [h] are what the encoder writes for the fields of that query. *)
Definition parser_reads (h : HTTPRequest) : Prop :=
  match getOperation (URL_Path h) with
  | Some QueryRangeOp =>
      exists q,
        ParseRangeQuery h = Ok q /\
        reads_time (wire_lookup h "start") (loghttp.Start q) /\
        reads_time (wire_lookup h "end") (loghttp.End_ q) /\
        wire_lookup h "query" = Some [loghttp.Query q] /\
        wire_lookup h "direction" =
          Some [Direction_String (loghttp.Direction q)] /\
        wire_lookup h "limit" = Some [pretty (loghttp.Limit q)] /\
        wire_lookup h "shards" = nonempty (loghttp.Shards q)
  | Some InstantQueryOp =>
      exists q,
        ParseInstantQuery h = Ok q /\
        reads_time (wire_lookup h "time") (loghttp.Ts q) /\
        wire_lookup h "query" = Some [loghttp.IQuery q] /\
        wire_lookup h "direction" =
          Some [Direction_String (loghttp.IDirection q)] /\
        wire_lookup h "limit" = Some [pretty (loghttp.ILimit q)] /\
        wire_lookup h "shards" = nonempty (loghttp.IShards q)
  | Some SeriesOp =>
      exists q,
        ParseAndValidateSeriesQuery h = Ok q /\
        reads_time (wire_lookup h "start") (loghttp.SStart q) /\
        reads_time (wire_lookup h "end") (loghttp.SEnd q) /\
        wire_lookup h "shards" = nonempty (loghttp.SShards q)
  | Some LabelNamesOp =>
      exists q start end_,
        ParseLabelQuery h = Ok q /\
        LabelRequest.Start q = Some start /\
        LabelRequest.End_ q = Some end_ /\
        reads_time (wire_lookup h "start") start /\
        reads_time (wire_lookup h "end") end_ /\
        wire_lookup h "query" = Some [LabelRequest.Query q]
  | Some IndexStatsOp =>
      exists q,
        ParseIndexStatsQuery h = Ok q /\
        reads_time (wire_lookup h "start") (loghttp.Start q) /\
        reads_time (wire_lookup h "end") (loghttp.End_ q) /\
        wire_lookup h "query" = Some [loghttp.Query q]
  | Some VolumeOp =>
      exists q,
        ParseVolumeInstantQuery h = Ok q /\
        reads_time (wire_lookup h "start") (loghttp.VStart q) /\
        reads_time (wire_lookup h "end") (loghttp.VEnd q) /\
        wire_lookup h "query" = Some [loghttp.VQuery q] /\
        wire_lookup h "limit" = Some [pretty (loghttp.VLimit q)]
  | Some VolumeRangeOp =>
      exists q,
        ParseVolumeRangeQuery h = Ok q /\
        reads_time (wire_lookup h "start") (loghttp.VStart q) /\
        reads_time (wire_lookup h "end") (loghttp.VEnd q) /\
        wire_lookup h "query" = Some [loghttp.VQuery q] /\
        wire_lookup h "limit" = Some [pretty (loghttp.VLimit q)]
  | None => True
  end.

(** What the round trip asks of [util.RoundToMilliseconds]: the bounds
    of [r], which are whole milliseconds, are left as they are. *)
Definition rounds_back (r : Request) : Prop :=
  match r with
  | ReqIndexStatsRequest r =>
      RoundToMilliseconds (model_Time (IndexStatsRequest.From r))
        (model_Time (IndexStatsRequest.Through r)) =
        (IndexStatsRequest.From r, IndexStatsRequest.Through r)
  | ReqVolumeRequest r =>
      RoundToMilliseconds (model_Time (VolumeRequest.From r))
        (model_Time (VolumeRequest.Through r)) =
        (VolumeRequest.From r, VolumeRequest.Through r)
  | _ => True
  end.

End Round_trip.

(** ** Example inputs *)

(** Stand-ins for the collaborators, for evaluating the code on concrete
    inputs. *)
Definition example_merge_env : MergeEnv := {|
  Hash := λ series, Z.pos (encode (SeriesIdentifier.Labels series));
  PrometheusCodec_MergeResponse := λ l,
    match l with
    | r :: _ => Ok r
    | [] => Err (errors_New "no responses")
    end;
  indexStats_MergeStats := λ l,
    foldr (λ s acc,
             match s with
             | Some s =>
                 mkIndexStats (Streams s + Streams acc) (Chunks s + Chunks acc)
                   (Bytes s + Bytes acc) (IndexEntries s + IndexEntries acc)
             | None => acc
             end) (mkIndexStats 0 0 0 0) l;
  seriesvolume_Merge := λ l limit, None
|}.

(** A route table with the paths of the HTTP surface. *)
Definition example_getOperation (path : string) : option Op :=
  if decide (path = "/loki/api/v1/query_range") then Some QueryRangeOp
  else if decide (path = "/loki/api/v1/query") then Some InstantQueryOp
  else if decide (path = "/loki/api/v1/series") then Some SeriesOp
  else if decide (path = "/loki/api/v1/label") then Some LabelNamesOp
  else if decide (path = "/loki/api/v1/index/stats") then Some IndexStatsOp
  else if decide (path = "/loki/api/v1/index/volume") then Some VolumeOp
  else if decide (path = "/loki/api/v1/index/volume_range") then Some VolumeRangeOp
  else None.

(** Stand-ins for the collaborators of the codec; the parsers are not
    reached on the paths of the examples. *)
Definition example_codec_env : CodecEnv unit := {|
  getOperation := example_getOperation;
  ParseRangeQuery := λ _, Err (errors_New "not parsed");
  ParseInstantQuery := λ _, Err (errors_New "not parsed");
  ParseAndValidateSeriesQuery := λ _, Err (errors_New "not parsed");
  ParseLabelQuery := λ _, Err (errors_New "not parsed");
  ParseIndexStatsQuery := λ _, Err (errors_New "not parsed");
  ParseVolumeInstantQuery := λ _, Err (errors_New "not parsed");
  ParseVolumeRangeQuery := λ _, Err (errors_New "not parsed");
  RoundToMilliseconds := λ from through,
    (time.sec from * 1000, time.sec through * 1000);
  labelNamesRoutes_FindSubmatch := λ _, [];
  http_NewRequest := λ method url _, Ok (mkHTTPRequest method url (Ok ∅) ∅);
  ExtractQueryTagsFromHTTP := λ _, "";
  time_ParseDuration := λ _, None;
  ExtractEncodingFlagsFromProto := λ _, None;
  InjectQueryLimitsHeader := λ header _, Ok header;
  fmt_seconds := λ ms, pretty (ms / 1000) +:+ "." +:+ pretty (ms `mod` 1000);
  QueryTagsHTTPHeader := "X-Query-Tags";
  LokiEncodingFlagsHeader := "X-Loki-Response-Encoding-Flags";
  LokiActorPathHeader := "X-Loki-Actor-Path";
  OrgIDHeaderName := "X-Scope-OrgID";
  QueryQueueTimeHTTPHeader := "X-Query-Queue-Time"
|}.

(** A context with a tenant. *)
Definition example_ctx : Context unit :=
  mkContext (Some "tenant") "" "" "" None None None.

(** Two responses of one entry each, with limit 1. *)
Definition C3_A : LokiResponse :=
  mkLokiResponse "success"
    (mkLokiData "streams" [mkStream "{job=a}" [mkEntry (time.mkTime 1 0) "x" []]])
    "" "" FORWARD 1 1 stats.zero [].

Definition C3_B : LokiResponse :=
  mkLokiResponse "success"
    (mkLokiData "streams" [mkStream "{job=b}" [mkEntry (time.mkTime 2 0) "y" []]])
    "" "" FORWARD 1 1 stats.zero [].

(** Two responses that together stay within their limit of 5. *)
Definition C3_C : LokiResponse :=
  mkLokiResponse "success"
    (mkLokiData "streams"
       [mkStream "{job=a}" [mkEntry (time.mkTime 1 0) "x" []];
        mkStream "{job=b}" [mkEntry (time.mkTime 2 0) "y" []]])
    "" "" BACKWARD 5 1 stats.zero [].

Definition C3_D : LokiResponse :=
  mkLokiResponse "success"
    (mkLokiData "streams"
       [mkStream "{job=a}" [mkEntry (time.mkTime 3 0) "z" []]])
    "" "" BACKWARD 5 1 stats.zero [].

(** A LogResponse in the form the merger produces. *)
Definition C4_fixed : LokiResponse :=
  mkLokiResponse "success"
    (mkLokiData "streams"
       [mkStream "{job=a}" [mkEntry (time.mkTime 1 0) "x" []];
        mkStream "{job=b}" [mkEntry (time.mkTime 2 0) "y" []]])
    "" "" FORWARD 10 1 (stats.mkResult 5 1 0 []) [].

(** A LogResponse as the response decoder builds it, with the headers of
    the HTTP response. *)
Definition C4_decoded : LokiResponse :=
  mkLokiResponse "success"
    (mkLokiData "streams"
       [mkStream "{job=a}" [mkEntry (time.mkTime 1 0) "x" []]])
    "" "" FORWARD 10 1 stats.zero
    [mkHeader "Content-Type" ["application/json; charset=UTF-8"]].

(** Two SeriesResponses and what they merge into. *)
Definition C8_first : Response :=
  RLokiSeriesResponse
    (LokiSeriesResponse.mk "success"
       [SeriesIdentifier.mk {[ "env" := "prod" ]}] 1 []
       (stats.mkResult 10 2 3 [1])).

Definition C8_second : Response :=
  RLokiSeriesResponse
    (LokiSeriesResponse.mk "success"
       [SeriesIdentifier.mk {[ "env" := "prod" ]};
        SeriesIdentifier.mk {[ "env" := "dev" ]}] 1 []
       (stats.mkResult 20 5 1 [4; 6])).

Definition C8_merged : Response :=
  RLokiSeriesResponse
    (LokiSeriesResponse.mk "success"
       [SeriesIdentifier.mk {[ "env" := "prod" ]};
        SeriesIdentifier.mk {[ "env" := "dev" ]}] 1 []
       (stats.mkResult 30 7 4 [5; 6])).

(** The request [GET /foo], plain and RPC-wrapped. *)
Definition C5_request : HTTPRequest :=
  mkHTTPRequest "GET" "/foo" (Ok ∅) ∅.

Definition C5_wrapped : httpgrpc_HTTPRequest :=
  mkGrpcRequest "GET" "/foo" [] [].

(** The request [GET /foo?a;b], whose query string does not parse. *)
Definition C5_malformed : HTTPRequest :=
  mkHTTPRequest "GET" "/foo"
    (Err (errors_New "invalid semicolon separator in query")) ∅.

(** A range query for one hour of 14 November 2023, as it comes in on
    the legacy path and on the current one. *)
Definition C2_legacy : Request :=
  ReqLokiRequest
    (LokiRequest.mk "{job=a}" 100 0 0 (time.mkTime 1700000000 0)
       (time.mkTime 1700003600 0) FORWARD "/api/prom/query" ["0_of_2"]).

Definition C2_current : Request :=
  ReqLokiRequest
    (LokiRequest.mk "{job=a}" 100 0 0 (time.mkTime 1700000000 0)
       (time.mkTime 1700003600 0) FORWARD "/loki/api/v1/query_range" ["0_of_2"]).

(** A range query whose start is the zero [time.Time], 1 January of the
    year 1, and the same query starting in 1754, three times 2^64
    nanoseconds later: [UnixNano] gives both starts the same int64. *)
Definition C2_zero : Request :=
  ReqLokiRequest
    (LokiRequest.mk "{job=a}" 100 0 0 (time.mkTime (-62135596800) 0)
       (time.mkTime 1700003600 0) FORWARD "/loki/api/v1/query_range" ["0_of_2"]).

Definition C2_1754 : Request :=
  ReqLokiRequest
    (LokiRequest.mk "{job=a}" 100 0 0 (time.mkTime (-6795364579) 128654848)
       (time.mkTime 1700003600 0) FORWARD "/loki/api/v1/query_range" ["0_of_2"]).

(** A volume query for that hour, its bounds in milliseconds, with a
    limit of 10 and no step. *)
Definition C2_volume : Request :=
  ReqVolumeRequest
    (VolumeRequest.mk 1700000000123 1700003600456 "{job=a}" 10 0 []
       "series").

(** Stand-ins for the collaborators of the codec with parsers that read
    the parameters of a range query and of a volume query: timestamps,
    limit and direction as [EncodeRequest] writes them; no step, no
    interval and no target labels. Rounding to milliseconds rounds the
    start down and the end up. *)
Fixpoint example_read_digits (s : string) (acc : N) : option N :=
  match s with
  | EmptyString => Some acc
  | String c s' =>
      let n := Ascii.N_of_ascii c in
      if ((48 <=? n) && (n <=? 57))%N
      then example_read_digits s' (10 * acc + (n - 48))%N
      else None
  end.

Definition example_read_int (s : string) : option Z :=
  match s with
  | EmptyString => None
  | String c s' =>
      if (Ascii.N_of_ascii c =? 45)%N
      then (λ n, - Z.of_N n) <$> example_read_digits s' 0
      else Z.of_N <$> example_read_digits s 0
  end.

Definition example_read_direction (s : string) : option logproto.Direction :=
  if decide (s = "FORWARD") then Some FORWARD
  else if decide (s = "BACKWARD") then Some BACKWARD
  else None.

(** [url.Values.Get]: the first value of the key as it is spelled. *)
Definition example_Form_Get (form : Values) (key : string) : string :=
  match form !! key with
  | Some (v :: _) => v
  | _ => ""
  end.

Definition example_ParseRangeQuery (r : HTTPRequest)
  : result loghttp.RangeQuery :=
  match Form r with
  | Err err => Err err
  | Ok form =>
      match example_read_int (example_Form_Get form "start"),
            example_read_int (example_Form_Get form "end"),
            example_read_int (example_Form_Get form "limit"),
            example_read_direction (example_Form_Get form "direction") with
      | Some start, Some end_, Some limit, Some direction =>
          Ok (loghttp.mkRangeQuery (time.Unix 0 start) (time.Unix 0 end_) 0 0
                (example_Form_Get form "query") direction (Z.to_N limit)
                (default [] (form !! "shards")))
      | _, _, _, _ => Err (errors_New "not parsed")
      end
  end.

Definition example_ParseVolumeQuery (r : HTTPRequest)
  : result loghttp.VolumeQuery :=
  match Form r with
  | Err err => Err err
  | Ok form =>
      match example_read_int (example_Form_Get form "start"),
            example_read_int (example_Form_Get form "end"),
            example_read_int (example_Form_Get form "limit") with
      | Some start, Some end_, Some limit =>
          Ok (loghttp.mkVolumeQuery (time.Unix 0 start) (time.Unix 0 end_) 0
                (example_Form_Get form "query") (Z.to_N limit) []
                (example_Form_Get form "aggregateBy"))
      | _, _, _ => Err (errors_New "not parsed")
      end
  end.

Definition example_reading_env : CodecEnv unit := {|
  getOperation := example_getOperation;
  ParseRangeQuery := example_ParseRangeQuery;
  ParseInstantQuery := λ _, Err (errors_New "not parsed");
  ParseAndValidateSeriesQuery := λ _, Err (errors_New "not parsed");
  ParseLabelQuery := λ _, Err (errors_New "not parsed");
  ParseIndexStatsQuery := λ _, Err (errors_New "not parsed");
  ParseVolumeInstantQuery := example_ParseVolumeQuery;
  ParseVolumeRangeQuery := example_ParseVolumeQuery;
  RoundToMilliseconds := λ from through,
    (time.UnixNano from / 1000000, - (- time.UnixNano through / 1000000));
  labelNamesRoutes_FindSubmatch := λ _, [];
  http_NewRequest := λ method url _, Ok (mkHTTPRequest method url (Ok ∅) ∅);
  ExtractQueryTagsFromHTTP := λ _, "";
  time_ParseDuration := λ _, None;
  ExtractEncodingFlagsFromProto := λ _, None;
  InjectQueryLimitsHeader := λ header _, Ok header;
  fmt_seconds := λ ms, pretty (ms / 1000) +:+ "." +:+ pretty (ms `mod` 1000);
  QueryTagsHTTPHeader := "X-Query-Tags";
  LokiEncodingFlagsHeader := "X-Loki-Response-Encoding-Flags";
  LokiActorPathHeader := "X-Loki-Actor-Path";
  OrgIDHeaderName := "X-Scope-OrgID";
  QueryQueueTimeHTTPHeader := "X-Query-Queue-Time"
|}.

(** ** The dynamic type of a response *)

Inductive ResponseType : Type :=
  | TLokiPromResponse | TLokiResponse | TLokiSeriesResponse
  | TLokiSeriesResponseView | TMergedSeriesResponseView
  | TLokiLabelNamesResponse | TIndexStatsResponse | TVolumeResponse
  | TTopKSketchesResponse | TQuantileSketchResponse.

Global Instance ResponseType_eq_dec : EqDecision ResponseType.
Proof. solve_decision. Defined.

(** The type a type switch or a type assertion sees; a nil [LokiResponse]
    pointer has the type of the pointer. *)
Definition type_of (res : Response) : ResponseType :=
  match res with
  | RLokiPromResponse _ => TLokiPromResponse
  | RLokiResponse _ | RNilLokiResponse => TLokiResponse
  | RLokiSeriesResponse _ => TLokiSeriesResponse
  | RLokiSeriesResponseView _ => TLokiSeriesResponseView
  | RMergedSeriesResponseView _ => TMergedSeriesResponseView
  | RLokiLabelNamesResponse _ => TLokiLabelNamesResponse
  | RIndexStatsResponse _ => TIndexStatsResponse
  | RVolumeResponse _ => TVolumeResponse
  | RTopKSketchesResponse => TTopKSketchesResponse
  | RQuantileSketchResponse => TQuantileSketchResponse
  end.

(** The types [MergeResponse] has a case for. *)
Definition mergeable (t : ResponseType) : bool :=
  match t with
  | TTopKSketchesResponse | TQuantileSketchResponse => false
  | _ => true
  end.

(** * The rest of the codec *)

(** ** Methods of the request variants *)

Definition LokiRequest_GetEnd (r : LokiRequest.t) : time.Time :=
  LokiRequest.EndTs r.

Definition LokiRequest_GetStart (r : LokiRequest.t) : time.Time :=
  LokiRequest.StartTs r.

(** [LokiRequest.WithStartEndTime]: a clone with the two bounds replaced. *)
Definition LokiRequest_WithStartEndTime (r : LokiRequest.t) (s e : time.Time)
  : LokiRequest.t :=
  {| LokiRequest.Query := LokiRequest.Query r;
     LokiRequest.Limit := LokiRequest.Limit r;
     LokiRequest.Step := LokiRequest.Step r;
     LokiRequest.Interval := LokiRequest.Interval r;
     LokiRequest.StartTs := s;
     LokiRequest.EndTs := e;
     LokiRequest.Direction := LokiRequest.Direction r;
     LokiRequest.Path := LokiRequest.Path r;
     LokiRequest.Shards := LokiRequest.Shards r |}.

Definition LokiRequest_WithStartEnd (r : LokiRequest.t) (s e : time.Time)
  : Request :=
  ReqLokiRequest (LokiRequest_WithStartEndTime r s e).

Definition LokiRequest_WithQuery (r : LokiRequest.t) (query : string) : Request :=
  ReqLokiRequest
    {| LokiRequest.Query := query;
       LokiRequest.Limit := LokiRequest.Limit r;
       LokiRequest.Step := LokiRequest.Step r;
       LokiRequest.Interval := LokiRequest.Interval r;
       LokiRequest.StartTs := LokiRequest.StartTs r;
       LokiRequest.EndTs := LokiRequest.EndTs r;
       LokiRequest.Direction := LokiRequest.Direction r;
       LokiRequest.Path := LokiRequest.Path r;
       LokiRequest.Shards := LokiRequest.Shards r |}.

Definition LokiInstantRequest_GetStep (r : LokiInstantRequest.t) : Z := 0.

Definition LokiInstantRequest_GetEnd (r : LokiInstantRequest.t) : time.Time :=
  LokiInstantRequest.TimeTs r.

Definition LokiInstantRequest_GetStart (r : LokiInstantRequest.t) : time.Time :=
  LokiInstantRequest.TimeTs r.

(** [LokiInstantRequest.WithStartEnd]: the second argument is not used. *)
Definition LokiInstantRequest_WithStartEnd (r : LokiInstantRequest.t)
    (s e : time.Time) : Request :=
  ReqLokiInstantRequest
    {| LokiInstantRequest.Query := LokiInstantRequest.Query r;
       LokiInstantRequest.Limit := LokiInstantRequest.Limit r;
       LokiInstantRequest.TimeTs := s;
       LokiInstantRequest.Direction := LokiInstantRequest.Direction r;
       LokiInstantRequest.Path := LokiInstantRequest.Path r;
       LokiInstantRequest.Shards := LokiInstantRequest.Shards r |}.

Definition LokiInstantRequest_WithQuery (r : LokiInstantRequest.t)
    (query : string) : Request :=
  ReqLokiInstantRequest
    {| LokiInstantRequest.Query := query;
       LokiInstantRequest.Limit := LokiInstantRequest.Limit r;
       LokiInstantRequest.TimeTs := LokiInstantRequest.TimeTs r;
       LokiInstantRequest.Direction := LokiInstantRequest.Direction r;
       LokiInstantRequest.Path := LokiInstantRequest.Path r;
       LokiInstantRequest.Shards := LokiInstantRequest.Shards r |}.

Definition LokiSeriesRequest_GetEnd (r : LokiSeriesRequest.t) : time.Time :=
  LokiSeriesRequest.EndTs r.

Definition LokiSeriesRequest_GetStart (r : LokiSeriesRequest.t) : time.Time :=
  LokiSeriesRequest.StartTs r.

Definition LokiSeriesRequest_WithStartEnd (r : LokiSeriesRequest.t)
    (s e : time.Time) : Request :=
  ReqLokiSeriesRequest
    {| LokiSeriesRequest.Match := LokiSeriesRequest.Match r;
       LokiSeriesRequest.StartTs := s;
       LokiSeriesRequest.EndTs := e;
       LokiSeriesRequest.Path := LokiSeriesRequest.Path r;
       LokiSeriesRequest.Shards := LokiSeriesRequest.Shards r |}.

(** [LokiSeriesRequest.WithQuery]: a clone; the argument is not used. *)
Definition LokiSeriesRequest_WithQuery (r : LokiSeriesRequest.t)
    (query : string) : Request :=
  ReqLokiSeriesRequest r.

Definition LokiSeriesRequest_GetQuery (r : LokiSeriesRequest.t) : string := "".

Definition LokiSeriesRequest_GetStep (r : LokiSeriesRequest.t) : Z := 0.

(** [NewLabelRequest]: the two bounds are the addresses of the
    parameters, which nothing else writes to. *)
Definition NewLabelRequest (start end_ : time.Time) (query name path : string)
  : LabelRequest.t :=
  {| LabelRequest.path := path;
     LabelRequest.Name := name;
     LabelRequest.Values := bool_decide (name <> "");
     LabelRequest.Start := Some start;
     LabelRequest.End_ := Some end_;
     LabelRequest.Query := query |}.

(** [LabelRequest.GetEnd] and [GetEndTs]: the dereference of [End], which
    panics on nil. *)
Definition LabelRequest_GetEnd (r : LabelRequest.t) : outcome time.Time :=
  match LabelRequest.End_ r with
  | Some t => Returns t
  | None => Panics
  end.

Definition LabelRequest_GetEndTs (r : LabelRequest.t) : outcome time.Time :=
  LabelRequest_GetEnd r.

Definition LabelRequest_GetStart (r : LabelRequest.t) : outcome time.Time :=
  match LabelRequest.Start r with
  | Some t => Returns t
  | None => Panics
  end.

Definition LabelRequest_GetStartTs (r : LabelRequest.t) : outcome time.Time :=
  LabelRequest_GetStart r.

Definition LabelRequest_GetStep (r : LabelRequest.t) : Z := 0.

(** The addresses [LabelRequest.WithStartEnd] takes: that of its local
    variable [tmp], twice. *)
Inductive address : Type := address_of_tmp.

(** [LabelRequest.WithStartEnd]. [Start] and [End] are both the address
    of the one variable [tmp]; what they point to is what [tmp] holds
    when the method returns. *)
Definition LabelRequest_WithStartEnd (r : LabelRequest.t) (s e : time.Time)
  : Request :=
  let tmp := s in                       (* tmp := s *)
  let clone_Start := address_of_tmp in  (* clone.Start = &tmp *)
  let tmp := e in                       (* tmp = e *)
  let clone_End := address_of_tmp in    (* clone.End = &tmp *)
  let dereference (a : address) : time.Time :=
    match a with address_of_tmp => tmp end in
  ReqLabelRequest
    {| LabelRequest.path := LabelRequest.path r;
       LabelRequest.Name := LabelRequest.Name r;
       LabelRequest.Values := LabelRequest.Values r;
       LabelRequest.Start := Some (dereference clone_Start);
       LabelRequest.End_ := Some (dereference clone_End);
       LabelRequest.Query := LabelRequest.Query r |}.

Definition LabelRequest_WithQuery (r : LabelRequest.t) (query : string)
  : Request :=
  ReqLabelRequest
    {| LabelRequest.path := LabelRequest.path r;
       LabelRequest.Name := LabelRequest.Name r;
       LabelRequest.Values := LabelRequest.Values r;
       LabelRequest.Start := LabelRequest.Start r;
       LabelRequest.End_ := LabelRequest.End_ r;
       LabelRequest.Query := query |}.

Definition LabelRequest_Path (r : LabelRequest.t) : string :=
  LabelRequest.path r.

(** ** [Codec.Path] and the protobuf request codec *)

Definition Codec_Path (r : Request) : string :=
  match r with
  | ReqLokiRequest _ => "loki/api/v1/query_range"
  | ReqLokiSeriesRequest _ => "loki/api/v1/series"
  | ReqLabelRequest request => LabelRequest_Path request
  | ReqLokiInstantRequest _ => "/loki/api/v1/query"
  | ReqIndexStatsRequest _ => "/loki/api/v1/index/stats"
  | ReqVolumeRequest _ => "/loki/api/v1/index/volume_range"
  | ReqOther => "other"
  end.

Section ProtobufCodec.

Context {QueryLimits : Type} {env : CodecEnv QueryLimits}.

(** [RequestProtobufCodec.EncodeRequest]. *)
Definition RequestProtobufCodec_EncodeRequest (ctx : Context QueryLimits)
    (r : Request) : outcome (result HTTPRequest) :=
  res ← EncodeRequest ctx r;
  match res with
  | Err err => mret (Err err)
  | Ok req =>
      mret (Ok (mkHTTPRequest (Method req) (URL_Path req) (Form req)
                  (Header_Set (Header req) "Accept"
                     "application/vnd.google.protobuf")))
  end.

End ProtobufCodec.

(** ** Responses on the wire *)

(** The conversion [uint32(x)]. *)
Definition uint32 (z : Z) : N := Z.to_N (z mod 2 ^ 32).

(** [time.UnixMilli(msec)]: [Unix(msec/1e3, (msec%1e3)*1e6)]. *)
Definition time_UnixMilli (msec : Z) : time.Time :=
  time.Unix (Z.quot msec 1000) (Z.rem msec 1000 * 1000000).

(** [model.Time.UnixNano()]: the milliseconds times [10^6], in int64. *)
Definition model_UnixNano (t : Z) : Z := time.int64 (t * 1000000).

(** Modelled from the spec: the result type tags of [loghttp], "a
    [resultType] tag in the body {matrix, vector, scalar, streams}". *)
Definition ResultTypeMatrix : string := "matrix".
Definition ResultTypeVector : string := "vector".
Definition ResultTypeScalar : string := "scalar".

(** What the JSON readers fill in: the response shapes of [loghttp],
    whose numeric results are the types of the Prometheus model. A
    sample value is kept as the 64 bits of its float, a [model.Time] as
    its int64 of milliseconds, a [model.Metric] as the map it is. *)
Module json.

Record SeriesResponse (LabelSet : Type) : Type := mkSeriesResponse {
  SeriesStatus : string;
  SeriesData : list LabelSet
}.
Arguments mkSeriesResponse {LabelSet}.
Arguments SeriesStatus {LabelSet}.
Arguments SeriesData {LabelSet}.

Record LabelResponse : Type := mkLabelResponse {
  LabelStatus : string;
  LabelData : list string
}.

Record SamplePair : Type := mkSamplePair {
  PairTimestamp : Z;
  PairValue : Z
}.

Record SampleStream : Type := mkSampleStream {
  Metric : gmap string string;
  Values : list SamplePair
}.

Record Sample : Type := mkSample {
  SampleMetric : gmap string string;
  SampleValue : Z;
  SampleTimestamp : Z
}.

Record Scalar : Type := mkScalar {
  ScalarValue : Z;
  ScalarTimestamp : Z
}.

(** The dynamic type of a [loghttp.ResultValue], with its value. *)
Inductive ResultValue (Streams : Type) : Type :=
  | VStreams (s : Streams)
  | VMatrix (m : list SampleStream)
  | VVector (v : list Sample)
  | VScalar (s : Scalar).
Arguments VStreams {Streams}.
Arguments VMatrix {Streams}.
Arguments VVector {Streams}.
Arguments VScalar {Streams}.

Record QueryResponseData (Streams : Type) : Type := mkQueryResponseData {
  ResultType : string;
  Result : ResultValue Streams;
  Statistics : stats.Result
}.
Arguments mkQueryResponseData {Streams}.
Arguments ResultType {Streams}.
Arguments Result {Streams}.
Arguments Statistics {Streams}.

Record QueryResponse (Streams : Type) : Type := mkQueryResponse {
  Status : string;
  Data : QueryResponseData Streams
}.
Arguments mkQueryResponse {Streams}.
Arguments Status {Streams}.
Arguments Data {Streams}.

End json.

(** The body of an [http.Response]: what [Bytes] returns when the body
    implements [Buffer] ([None] when it does not), and what [io.ReadAll]
    returns, the bytes read and the error that ended the reading. *)
Record Body : Type := mkBody {
  Buffer_Bytes : option (list Byte.byte);
  io_ReadAll : list Byte.byte * option error
}.

(** An [http.Response]. *)
Record HTTPResponse : Type := mkHTTPResponse {
  StatusCode : Z;
  ResponseHeader : Values;
  ResponseBody : Body
}.

(** An [httpgrpc.HTTPResponse]; [Code] is an int32. *)
Record httpgrpc_HTTPResponse : Type := mkGrpcResponse {
  grpc_Code : Z;
  grpc_ResponseHeaders : list (string * list string);
  grpc_ResponseBody : list Byte.byte
}.

Definition StatusOK : Z := 200.

(** [fmt.Errorf], as this file calls it; the type name a [%T] writes is
    left out of the message. *)
Definition fmt_Errorf (msg : string) : error := errors_New msg.

(** A format that holds no [%] (the byte 37), and so no verb. *)
Definition plain_format (format : string) : bool :=
  forallb (λ c, negb (Ascii.N_of_ascii c =? 37)%N)
    (String.list_ascii_of_string format).

(** The collaborators of the response codec that live in other files and
    packages: [loghttp.GetVersion] and [loghttp.VersionLegacy]; the label
    sets and streams of [loghttp] with [LabelSet.Map] and
    [Streams.ToProto]; the JSON readers; [logproto.FromMetricsToLabelAdapters];
    [convertPrometheusResponseHeadersToPointers]; [syntax.ParseExpr] with
    the test whether an expression is a [SampleExpr];
    [queryrangebase.NewEmptyPrometheusResponse]; the getters [GetStart]
    and [GetEnd] of a volume request and [GetStep] of an index-stats
    request; [fmt.Sprintf] of a format without operands; the JSON
    writers, [LokiPromResponse.encodeTo] and
    [WriteSeriesResponseViewJSON]; [QueryResponseWrap] and the [Marshal]
    of the envelope message it returns; [GetLokiSeriesResponseView]; the
    rest of [decodeResponseProtobuf], which unmarshals the envelope
    message and picks the response by the request type and the variant
    inside the envelope, from the bytes, the request and the converted
    headers; [ProtobufType]; [httpreq.ExtractEncodingFlags]; the
    [RequestURI] of a request; and [GetHeaders] of a response. *)
Class ResponseEnv : Type := {
  GetVersion : string -> Z;
  VersionLegacy : Z;
  LabelSet : Type;
  LabelSet_Map : LabelSet -> gmap string string;
  loghttp_Streams : Type;
  Streams_ToProto : loghttp_Streams -> list Stream;
  Unmarshal_SeriesResponse : list Byte.byte -> result (json.SeriesResponse LabelSet);
  Unmarshal_LabelResponse : list Byte.byte -> result json.LabelResponse;
  Unmarshal_IndexStatsResponse : list Byte.byte -> result logproto.IndexStatsResponse;
  Unmarshal_VolumeResponse : list Byte.byte -> result logproto.VolumeResponse;
  QueryResponse_UnmarshalJSON :
    list Byte.byte -> result (json.QueryResponse loghttp_Streams);
  FromMetricsToLabelAdapters : gmap string string -> list (string * string);
  convertPrometheusResponseHeadersToPointers :
    list PrometheusResponseHeader -> list PrometheusResponseHeader;
  Expr : Type;
  ParseExpr : string -> result Expr;
  is_SampleExpr : Expr -> bool;
  NewEmptyPrometheusResponse : option queryrangebase.PrometheusResponse;
  VolumeRequest_GetStart : VolumeRequest.t -> time.Time;
  VolumeRequest_GetEnd : VolumeRequest.t -> time.Time;
  IndexStatsRequest_GetStep : IndexStatsRequest.t -> Z;
  fmt_Sprintf : string -> string;
  LokiPromResponse_encodeTo : LokiPromResponse.t -> outcome (result (list Byte.byte));
  legacy_WriteQueryResponseJSON :
    list Stream -> stats.Result -> outcome (result (list Byte.byte));
  marshal_WriteQueryResponseJSON :
    list Stream -> stats.Result -> option (list string) ->
    outcome (result (list Byte.byte));
  WriteSeriesResponseViewJSON :
    MergedSeriesResponseView -> outcome (result (list Byte.byte));
  marshal_WriteSeriesResponseJSON :
    list SeriesIdentifier.t -> outcome (result (list Byte.byte));
  legacy_WriteLabelResponseJSON : list string -> outcome (result (list Byte.byte));
  marshal_WriteLabelResponseJSON : list string -> outcome (result (list Byte.byte));
  marshal_WriteIndexStatsResponseJSON :
    option logproto.IndexStatsResponse -> outcome (result (list Byte.byte));
  marshal_WriteVolumeResponseJSON :
    option logproto.VolumeResponse -> outcome (result (list Byte.byte));
  QueryResponse : Type;
  QueryResponseWrap : Response -> outcome (result QueryResponse);
  QueryResponse_Marshal : QueryResponse -> outcome (result (list Byte.byte));
  GetLokiSeriesResponseView : list Byte.byte -> outcome (result Response);
  decode_envelope :
    list Byte.byte -> Request -> list PrometheusResponseHeader ->
    outcome (result Response);
  ProtobufType : string;
  ExtractEncodingFlags : HTTPRequest -> option (list string);
  RequestURI : HTTPRequest -> string;
  GetHeaders : Response -> list PrometheusResponseHeader
}.

(** [httpResponseHeadersToPromResponseHeaders]: one header for each key
    of the map. Go does not say in which order [range] visits a map;
    [map_to_list] is one order. *)
Definition httpResponseHeadersToPromResponseHeaders (httpHeaders : Values)
  : list PrometheusResponseHeader :=
  (λ kv, mkHeader kv.1 kv.2) <$> map_to_list httpHeaders.

(** The type assertions of a [loghttp.ResultValue]. *)
Definition as_Matrix {Streams} (v : json.ResultValue Streams)
  : outcome (list json.SampleStream) :=
  match v with json.VMatrix m => Returns m | _ => Panics end.

Definition as_Vector {Streams} (v : json.ResultValue Streams)
  : outcome (list json.Sample) :=
  match v with json.VVector m => Returns m | _ => Panics end.

Definition as_Scalar {Streams} (v : json.ResultValue Streams)
  : outcome json.Scalar :=
  match v with json.VScalar m => Returns m | _ => Panics end.

Definition as_Streams {Streams} (v : json.ResultValue Streams)
  : outcome Streams :=
  match v with json.VStreams m => Returns m | _ => Panics end.

(** A [logproto.LegacySample]: its [Value] and its [TimestampMs]. *)
Definition LegacySample (Value TimestampMs : Z) : Z * Z := (Value, TimestampMs).

(** The wrappers [ParamsFromRequest] returns. *)
Inductive Params : Type :=
  | paramsRangeWrapper (r : LokiRequest.t)
  | paramsInstantWrapper (r : LokiInstantRequest.t)
  | paramsSeriesWrapper (r : LokiSeriesRequest.t)
  | paramsLabelWrapper (r : LabelRequest.t)
  | paramsStatsWrapper (r : IndexStatsRequest.t).

(** The methods of the wrappers that need no collaborator. [GetQuery] of
    an index-stats or volume request is read as its [Matchers], as
    [EncodeRequest] reads it. *)
Definition Params_Query (p : Params) : string :=
  match p with
  | paramsRangeWrapper r => LokiRequest.Query r
  | paramsInstantWrapper r => LokiInstantRequest.Query r
  | paramsSeriesWrapper r => LokiSeriesRequest_GetQuery r
  | paramsLabelWrapper r => LabelRequest.Query r
  | paramsStatsWrapper r => IndexStatsRequest.Matchers r
  end.

Definition Params_Start (p : Params) : outcome time.Time :=
  match p with
  | paramsRangeWrapper r => Returns (LokiRequest.StartTs r)
  | paramsInstantWrapper r => Returns (LokiInstantRequest.TimeTs r)
  | paramsSeriesWrapper r => Returns (LokiSeriesRequest.StartTs r)
  | paramsLabelWrapper r => LabelRequest_GetStartTs r
  | paramsStatsWrapper r => Returns (model_Time (IndexStatsRequest.From r))
  end.

Definition Params_End (p : Params) : outcome time.Time :=
  match p with
  | paramsRangeWrapper r => Returns (LokiRequest.EndTs r)
  | paramsInstantWrapper r => Returns (LokiInstantRequest.TimeTs r)
  | paramsSeriesWrapper r => Returns (LokiSeriesRequest.EndTs r)
  | paramsLabelWrapper r => LabelRequest_GetEndTs r
  | paramsStatsWrapper r => Returns (model_Time (IndexStatsRequest.Through r))
  end.

Definition Params_Interval (p : Params) : Z :=
  match p with
  | paramsRangeWrapper r => time.int64 (LokiRequest.Interval r * 1000000)
  | _ => 0
  end.

Definition Params_Direction (p : Params) : logproto.Direction :=
  match p with
  | paramsRangeWrapper r => LokiRequest.Direction r
  | paramsInstantWrapper r => LokiInstantRequest.Direction r
  | _ => FORWARD
  end.

Definition Params_Limit (p : Params) : N :=
  match p with
  | paramsRangeWrapper r => LokiRequest.Limit r
  | paramsInstantWrapper r => LokiInstantRequest.Limit r
  | _ => 0%N
  end.

Definition Params_Shards (p : Params) : list string :=
  match p with
  | paramsRangeWrapper r => LokiRequest.Shards r
  | paramsInstantWrapper r => LokiInstantRequest.Shards r
  | paramsSeriesWrapper r => LokiSeriesRequest.Shards r
  | paramsLabelWrapper _ | paramsStatsWrapper _ => []
  end.

Section Responses.

Context {renv : ResponseEnv}.

(** [Step] of the wrappers: [time.Duration(p.GetStep() * 1e6)]. *)
Definition Params_Step (p : Params) : Z :=
  match p with
  | paramsRangeWrapper r => time.int64 (LokiRequest.Step r * 1000000)
  | paramsInstantWrapper r => time.int64 (LokiInstantRequest_GetStep r * 1000000)
  | paramsSeriesWrapper r => time.int64 (LokiSeriesRequest_GetStep r * 1000000)
  | paramsLabelWrapper r => time.int64 (LabelRequest_GetStep r * 1000000)
  | paramsStatsWrapper r => time.int64 (IndexStatsRequest_GetStep r * 1000000)
  end.

(** [ParamsFromRequest]. The range request built for a volume request
    has the zero value in the fields the literal leaves out. *)
Definition ParamsFromRequest (req : Request) : result Params :=
  match req with
  | ReqLokiRequest r => Ok (paramsRangeWrapper r)
  | ReqVolumeRequest r =>
      Ok (paramsRangeWrapper
            {| LokiRequest.Query := VolumeRequest.Matchers r;
               LokiRequest.Limit := uint32 (VolumeRequest.Limit r);
               LokiRequest.Step := VolumeRequest.Step r;
               LokiRequest.StartTs :=
                 time_UnixMilli (time.UnixNano (VolumeRequest_GetStart r));
               LokiRequest.EndTs :=
                 time_UnixMilli (time.UnixNano (VolumeRequest_GetEnd r));
               LokiRequest.Interval := 0;
               LokiRequest.Direction := FORWARD;
               LokiRequest.Path := "";
               LokiRequest.Shards := [] |})
  | ReqLokiInstantRequest r => Ok (paramsInstantWrapper r)
  | ReqLokiSeriesRequest r => Ok (paramsSeriesWrapper r)
  | ReqLabelRequest r => Ok (paramsLabelWrapper r)
  | ReqIndexStatsRequest r => Ok (paramsStatsWrapper r)
  | ReqOther =>
      Err (fmt_Errorf
             "expected one of the *LokiRequest, *LokiInstantRequest, *LokiSeriesRequest, *LokiLabelNamesRequest")
  end.

(** [toProtoMatrix], [toProtoVector], [toProtoScalar]. *)
Definition toProtoMatrix (m : list json.SampleStream)
  : list queryrangebase.SampleStream :=
  match m with
  | [] => []
  | _ =>
      (λ stream,
         queryrangebase.mkSampleStream
           (FromMetricsToLabelAdapters (json.Metric stream))
           ((λ s, LegacySample (json.PairValue s) (json.PairTimestamp s))
              <$> json.Values stream)) <$> m
  end.

Definition toProtoVector (v : list json.Sample)
  : list queryrangebase.SampleStream :=
  match v with
  | [] => []
  | _ =>
      (λ s,
         queryrangebase.mkSampleStream
           (FromMetricsToLabelAdapters (json.SampleMetric s))
           [LegacySample (json.SampleValue s) (json.SampleTimestamp s)]) <$> v
  end.

Definition toProtoScalar (v : json.Scalar) : list queryrangebase.SampleStream :=
  [queryrangebase.mkSampleStream []
     [LegacySample (json.ScalarValue v)
        (Z.quot (model_UnixNano (json.ScalarTimestamp v)) 1000000)]].

Definition decoding_error {A} (err : error) : result A :=
  Err (httpgrpc_Errorf StatusInternalServerError
         ("error decoding response: " +:+ error_message err)).

(** The [LokiPromResponse] the three numeric result types are decoded
    into. *)
Definition prom_response (status resultType : string)
    (result : list queryrangebase.SampleStream) (headers : Values)
    (statistics : stats.Result) : Response :=
  RLokiPromResponse {|
    LokiPromResponse.Response := Some {|
      queryrangebase.Status := status;
      queryrangebase.Data := {|
        queryrangebase.ResultType := resultType;
        queryrangebase.Result := result |};
      queryrangebase.ErrorType := "";
      queryrangebase.Error := "";
      queryrangebase.Headers :=
        convertPrometheusResponseHeadersToPointers
          (httpResponseHeadersToPromResponseHeaders headers) |};
    LokiPromResponse.Statistics := statistics |}.

(** [decodeResponseJSONFrom]. *)
Definition decodeResponseJSONFrom (buf : list Byte.byte) (req : Request)
    (headers : Values) : outcome (result Response) :=
  match req with
  | ReqLokiSeriesRequest req =>
      match Unmarshal_SeriesResponse buf with
      | Err err => mret (decoding_error err)
      | Ok resp =>
          let data :=
            (λ label, SeriesIdentifier.mk (LabelSet_Map label))
              <$> json.SeriesData resp in
          mret (Ok (RLokiSeriesResponse {|
            LokiSeriesResponse.Status := json.SeriesStatus resp;
            LokiSeriesResponse.Version :=
              uint32 (GetVersion (LokiSeriesRequest.Path req));
            LokiSeriesResponse.Data := data;
            LokiSeriesResponse.Headers :=
              httpResponseHeadersToPromResponseHeaders headers;
            LokiSeriesResponse.Statistics := stats.zero |}))
      end
  | ReqLabelRequest req =>
      match Unmarshal_LabelResponse buf with
      | Err err => mret (decoding_error err)
      | Ok resp =>
          mret (Ok (RLokiLabelNamesResponse {|
            LokiLabelNamesResponse.Status := json.LabelStatus resp;
            LokiLabelNamesResponse.Version :=
              uint32 (GetVersion (LabelRequest_Path req));
            LokiLabelNamesResponse.Data := json.LabelData resp;
            LokiLabelNamesResponse.Headers :=
              httpResponseHeadersToPromResponseHeaders headers;
            LokiLabelNamesResponse.Statistics := stats.zero |}))
      end
  | ReqIndexStatsRequest _ =>
      match Unmarshal_IndexStatsResponse buf with
      | Err err => mret (decoding_error err)
      | Ok resp =>
          mret (Ok (RIndexStatsResponse {|
            IndexStatsResponse.Response := Some resp;
            IndexStatsResponse.Headers :=
              httpResponseHeadersToPromResponseHeaders headers |}))
      end
  | ReqVolumeRequest _ =>
      match Unmarshal_VolumeResponse buf with
      | Err err => mret (decoding_error err)
      | Ok resp =>
          mret (Ok (RVolumeResponse {|
            VolumeResponse.Response := Some resp;
            VolumeResponse.Headers :=
              httpResponseHeadersToPromResponseHeaders headers |}))
      end
  | _ =>
      match QueryResponse_UnmarshalJSON buf with
      | Err err => mret (decoding_error err)
      | Ok resp =>
          let resultType := json.ResultType (json.Data resp) in
          if decide (resultType = ResultTypeMatrix) then
            m ← as_Matrix (json.Result (json.Data resp));
            mret (Ok (prom_response (json.Status resp) ResultTypeMatrix
                        (toProtoMatrix m) headers
                        (json.Statistics (json.Data resp))))
          else if decide (resultType = ResultTypeStream) then
            match ParamsFromRequest req with
            | Err err => mret (Err err)
            | Ok params =>
                let path : result string :=
                  match req with
                  | ReqLokiRequest r => Ok (LokiRequest.Path r)
                  | ReqLokiInstantRequest r => Ok (LokiInstantRequest.Path r)
                  | _ =>
                      Err (fmt_Errorf
                             "expected *LokiRequest or *LokiInstantRequest")
                  end in
                match path with
                | Err err => mret (Err err)
                | Ok path =>
                    s ← as_Streams (json.Result (json.Data resp));
                    mret (Ok (RLokiResponse {|
                      Status := json.Status resp;
                      Direction := Params_Direction params;
                      Limit := Params_Limit params;
                      Version := uint32 (GetVersion path);
                      Statistics := json.Statistics (json.Data resp);
                      Data := {| ResultType := ResultTypeStream;
                                 Result := Streams_ToProto s |};
                      ErrorType := "";
                      Error := "";
                      Headers :=
                        httpResponseHeadersToPromResponseHeaders headers |}))
                end
            end
          else if decide (resultType = ResultTypeVector) then
            v ← as_Vector (json.Result (json.Data resp));
            mret (Ok (prom_response (json.Status resp) ResultTypeVector
                        (toProtoVector v) headers
                        (json.Statistics (json.Data resp))))
          else if decide (resultType = ResultTypeScalar) then
            v ← as_Scalar (json.Result (json.Data resp));
            mret (Ok (prom_response (json.Status resp) ResultTypeScalar
                        (toProtoScalar v) headers
                        (json.Statistics (json.Data resp))))
          else
            mret (Err (httpgrpc_Errorf StatusInternalServerError
                         ("unsupported response type, got (" +:+ resultType +:+ ")")))
      end
  end.

(** The bytes of a response body, as [decodeResponseJSON] and
    [decodeResponseProtobuf] get them. *)
Definition body_bytes (body : Body) : result (list Byte.byte) :=
  match Buffer_Bytes body with
  | Some buf => Ok buf
  | None =>
      match io_ReadAll body with
      | (_, Some err) => decoding_error err
      | (buf, None) => Ok buf
      end
  end.

(** [decodeResponseJSON]. *)
Definition decodeResponseJSON (r : HTTPResponse) (req : Request)
  : outcome (result Response) :=
  match body_bytes (ResponseBody r) with
  | Err err => mret (Err err)
  | Ok buf => decodeResponseJSONFrom buf req (ResponseHeader r)
  end.

(** [decodeResponseProtobuf], up to the decoding of the envelope
    message. *)
Definition decodeResponseProtobuf (r : HTTPResponse) (req : Request)
  : outcome (result Response) :=
  match body_bytes (ResponseBody r) with
  | Err err => mret (Err err)
  | Ok buf =>
      match req with
      | ReqLokiSeriesRequest _ => GetLokiSeriesResponseView buf
      | _ =>
          decode_envelope buf req
            (httpResponseHeadersToPromResponseHeaders (ResponseHeader r))
      end
  end.

(** [Codec.DecodeResponse]. The error of reading the body of a response
    that is no success is dropped. *)
Definition DecodeResponse (r : HTTPResponse) (req : Request)
  : outcome (result Response) :=
  if decide (Z.quot (StatusCode r) 100 <> 2) then
    let body := (io_ReadAll (ResponseBody r)).1 in
    mret (Err (httpgrpc_Errorf (StatusCode r)
                 (fmt_Sprintf (String.string_of_list_byte body))))
  else if decide (Header_Get (ResponseHeader r) "Content-Type" = ProtobufType)
  then decodeResponseProtobuf r req
  else decodeResponseJSON r req.

(** [Codec.DecodeHTTPGrpcResponse]. *)
Definition DecodeHTTPGrpcResponse (r : httpgrpc_HTTPResponse) (req : Request)
  : outcome (result Response) :=
  if decide (Z.quot (grpc_Code r) 100 <> 2) then
    mret (Err (httpgrpc_Errorf (grpc_Code r)
                 (fmt_Sprintf (String.string_of_list_byte (grpc_ResponseBody r)))))
  else
    let headers : Values :=
      foldl (λ headers header, <[header.1 := header.2]> headers) ∅
        (grpc_ResponseHeaders r) in
    decodeResponseJSONFrom (grpc_ResponseBody r) req headers.

(** [encodeResponseJSONTo]; the bytes are what it has written when it
    returns no error. A nil [LokiResponse] pointer is dereferenced. The
    message of the last case is given without the type name. *)
Definition encodeResponseJSONTo (version : Z) (res : Response)
    (encodeFlags : option (list string)) : outcome (result (list Byte.byte)) :=
  match res with
  | RLokiPromResponse response => LokiPromResponse_encodeTo response
  | RLokiResponse response =>
      let streams :=
        (λ stream, mkStream (Labels stream) (Entries stream))
          <$> Result (Data response) in
      if decide (version = VersionLegacy) then
        legacy_WriteQueryResponseJSON streams (Statistics response)
      else
        marshal_WriteQueryResponseJSON streams (Statistics response) encodeFlags
  | RNilLokiResponse => Panics
  | RMergedSeriesResponseView response => WriteSeriesResponseViewJSON response
  | RLokiSeriesResponse response =>
      marshal_WriteSeriesResponseJSON (LokiSeriesResponse.Data response)
  | RLokiLabelNamesResponse response =>
      if decide (Z.of_N (LokiLabelNamesResponse.Version response) = VersionLegacy)
      then legacy_WriteLabelResponseJSON (LokiLabelNamesResponse.Data response)
      else marshal_WriteLabelResponseJSON (LokiLabelNamesResponse.Data response)
  | RIndexStatsResponse response =>
      marshal_WriteIndexStatsResponseJSON (IndexStatsResponse.Response response)
  | RVolumeResponse response =>
      marshal_WriteVolumeResponseJSON (VolumeResponse.Response response)
  | _ =>
      mret (Err (httpgrpc_Errorf StatusInternalServerError
                   (fmt_Sprintf "invalid response format")))
  end.

(** The [http.Response] the two encoders build around their bytes: the
    body is a reader, not a [Buffer]. *)
Definition response_with (contentType : string) (buf : list Byte.byte)
  : HTTPResponse :=
  {| StatusCode := StatusOK;
     ResponseHeader := {[ "Content-Type" := [contentType] ]};
     ResponseBody := mkBody None (buf, None) |}.

(** [encodeResponseJSON]; the tracing span it logs to is left out, here
    and in [encodeResponseProtobuf]. *)
Definition encodeResponseJSON (version : Z) (res : Response)
    (encodeFlags : option (list string)) : outcome (result HTTPResponse) :=
  written ← encodeResponseJSONTo version res encodeFlags;
  match written with
  | Err err => mret (Err err)
  | Ok buf => mret (Ok (response_with "application/json; charset=UTF-8" buf))
  end.

(** [encodeResponseProtobuf]. *)
Definition encodeResponseProtobuf (res : Response)
  : outcome (result HTTPResponse) :=
  wrapped ← QueryResponseWrap res;
  match wrapped with
  | Err err =>
      mret (Err (httpgrpc_Errorf StatusInternalServerError
                   (fmt_Sprintf (error_message err))))
  | Ok p =>
      marshalled ← QueryResponse_Marshal p;
      match marshalled with
      | Err err =>
          mret (Err (fmt_Errorf
                       ("could not marshal protobuf: " +:+ error_message err)))
      | Ok buf => mret (Ok (response_with ProtobufType buf))
      end
  end.

(** [Codec.EncodeResponse]. *)
Definition EncodeResponse (req : HTTPRequest) (res : Response)
  : outcome (result HTTPResponse) :=
  if decide (Header_Get (Header req) "Accept" = ProtobufType) then
    encodeResponseProtobuf res
  else
    let version := GetVersion (RequestURI req) in
    let encodingFlags := ExtractEncodingFlags req in
    encodeResponseJSON version res encodingFlags.

(** [NewEmptyResponse]. *)
Definition NewEmptyResponse (r : Request) : result Response :=
  match r with
  | ReqLokiSeriesRequest req =>
      Ok (RLokiSeriesResponse {|
        LokiSeriesResponse.Status := QueryStatusSuccess;
        LokiSeriesResponse.Version :=
          uint32 (GetVersion (LokiSeriesRequest.Path req));
        LokiSeriesResponse.Data := [];
        LokiSeriesResponse.Headers := [];
        LokiSeriesResponse.Statistics := stats.zero |})
  | ReqLabelRequest req =>
      Ok (RLokiLabelNamesResponse {|
        LokiLabelNamesResponse.Status := QueryStatusSuccess;
        LokiLabelNamesResponse.Version :=
          uint32 (GetVersion (LabelRequest_Path req));
        LokiLabelNamesResponse.Data := [];
        LokiLabelNamesResponse.Headers := [];
        LokiLabelNamesResponse.Statistics := stats.zero |})
  | ReqLokiInstantRequest _ =>
      Ok (RLokiPromResponse {|
        LokiPromResponse.Response := Some {|
          queryrangebase.Status := QueryStatusSuccess;
          queryrangebase.Data := {|
            queryrangebase.ResultType := ResultTypeVector;
            queryrangebase.Result := [] |};
          queryrangebase.ErrorType := "";
          queryrangebase.Error := "";
          queryrangebase.Headers := [] |};
        LokiPromResponse.Statistics := stats.zero |})
  | ReqLokiRequest req =>
      match ParseExpr (LokiRequest.Query req) with
      | Err err =>
          Err (httpgrpc_Errorf StatusBadRequest (fmt_Sprintf (error_message err)))
      | Ok expr =>
          if is_SampleExpr expr then
            Ok (RLokiPromResponse {|
              LokiPromResponse.Response := NewEmptyPrometheusResponse;
              LokiPromResponse.Statistics := stats.zero |})
          else
            Ok (RLokiResponse {|
              Status := QueryStatusSuccess;
              Direction := LokiRequest.Direction req;
              Limit := LokiRequest.Limit req;
              Version := uint32 (GetVersion (LokiRequest.Path req));
              Data := {| ResultType := ResultTypeStream; Result := [] |};
              ErrorType := "";
              Error := "";
              Statistics := stats.zero;
              Headers := [] |})
      end
  | ReqIndexStatsRequest _ =>
      Ok (RIndexStatsResponse {|
        IndexStatsResponse.Response := None;
        IndexStatsResponse.Headers := [] |})
  | ReqVolumeRequest _ =>
      Ok (RVolumeResponse {|
        VolumeResponse.Response := None;
        VolumeResponse.Headers := [] |})
  | ReqOther => Err (fmt_Errorf "unsupported request type")
  end.

End Responses.

Section GrpcResponse.

Context {QueryLimits : Type} {env : CodecEnv QueryLimits} {renv : ResponseEnv}.

(** [Codec.EncodeHTTPGrpcResponse]. *)
Definition EncodeHTTPGrpcResponse (req : httpgrpc_HTTPRequest) (res : Response)
  : outcome (result httpgrpc_HTTPResponse) :=
  let version := GetVersion (grpc_Url req) in
  let encodingFlags := ExtractEncodingFlagsFromProto req in
  written ← encodeResponseJSONTo version res encodingFlags;
  match written with
  | Err err => mret (Err err)
  | Ok buf =>
      mret (Ok {|
        grpc_Code := StatusOK;
        grpc_ResponseBody := buf;
        grpc_ResponseHeaders :=
          ("Content-Type", ["application/json; charset=UTF-8"])
          :: ((λ h, (HeaderName h, HeaderValues h)) <$> GetHeaders res) |})
  end.

End GrpcResponse.

(** ** More example inputs *)

(** Stand-ins for the collaborators of the codec with parsers that
    succeed: a query for one hour of 14 November 2023, a label query for
    that hour and a volume query with a step of half a millisecond. *)
Definition example_range_query : loghttp.RangeQuery :=
  loghttp.mkRangeQuery (time.mkTime 1700000000 0) (time.mkTime 1700003600 0)
    60000000000 0 "{job=a}" BACKWARD 100 ["0_of_2"].

Definition example_volume_query : loghttp.VolumeQuery :=
  loghttp.mkVolumeQuery (time.mkTime 1700000000 0) (time.mkTime 1700003600 0)
    500000 "{job=a}" 10 [] "series".

Definition example_parsing_env : CodecEnv unit := {|
  getOperation := example_getOperation;
  ParseRangeQuery := λ _, Ok example_range_query;
  ParseInstantQuery := λ _, Err (errors_New "not parsed");
  ParseAndValidateSeriesQuery := λ _, Err (errors_New "not parsed");
  ParseLabelQuery := λ _,
    Ok (LabelRequest.mk "" "" false (Some (time.mkTime 1700000000 0))
          (Some (time.mkTime 1700003600 0)) "");
  ParseIndexStatsQuery := λ _, Err (errors_New "not parsed");
  ParseVolumeInstantQuery := λ _, Ok example_volume_query;
  ParseVolumeRangeQuery := λ _, Ok example_volume_query;
  RoundToMilliseconds := λ from through,
    (time.sec from * 1000, time.sec through * 1000);
  labelNamesRoutes_FindSubmatch := λ _, [];
  http_NewRequest := λ method url _, Ok (mkHTTPRequest method url (Ok ∅) ∅);
  ExtractQueryTagsFromHTTP := λ _, "";
  time_ParseDuration := λ _, None;
  ExtractEncodingFlagsFromProto := λ _, None;
  InjectQueryLimitsHeader := λ header _, Ok header;
  fmt_seconds := λ ms, pretty (ms / 1000) +:+ "." +:+ pretty (ms `mod` 1000);
  QueryTagsHTTPHeader := "X-Query-Tags";
  LokiEncodingFlagsHeader := "X-Loki-Response-Encoding-Flags";
  LokiActorPathHeader := "X-Loki-Actor-Path";
  OrgIDHeaderName := "X-Scope-OrgID";
  QueryQueueTimeHTTPHeader := "X-Query-Queue-Time"
|}.

(** The headers [example_ctx] is encoded into. *)
Definition example_header : Values := {[ "X-Scope-Orgid" := ["tenant"] ]}.

(** Requests on the routes of the examples. *)
Definition example_range_request : HTTPRequest :=
  mkHTTPRequest "GET" "/loki/api/v1/query_range" (Ok ∅) ∅.

Definition example_label_request : HTTPRequest :=
  mkHTTPRequest "GET" "/loki/api/v1/label" (Ok ∅) ∅.

Definition example_volume_range_request : HTTPRequest :=
  mkHTTPRequest "GET" "/loki/api/v1/index/volume_range" (Ok ∅) ∅.

Definition example_wrapped_range_request : httpgrpc_HTTPRequest :=
  mkGrpcRequest "GET" "/loki/api/v1/query_range"
    [("X-Scope-OrgID", ["tenant"])] [].

(** The same request with the org-ID header listed under the canonical
    form of its name. *)
Definition example_wrapped_tenant_request : httpgrpc_HTTPRequest :=
  mkGrpcRequest "GET" "/loki/api/v1/query_range"
    [("X-Scope-Orgid", ["tenant"])] [].

(** A context without a tenant. *)
Definition example_anonymous_ctx : Context unit :=
  mkContext None "" "" "" None None None.

(** A response that reports a failure, plain and RPC-wrapped. *)
Definition example_failed_response : HTTPResponse :=
  mkHTTPResponse 502 ∅
    (mkBody None (String.list_byte_of_string "no backend", None)).

Definition example_failed_wrapped_response : httpgrpc_HTTPResponse :=
  mkGrpcResponse 502 [] (String.list_byte_of_string "no backend").

(** Stand-ins for the collaborators of the response codec: bodies that
    all read as one answer, writers that write nothing. *)
Definition example_streams : list Stream :=
  [mkStream "{job=a}" [mkEntry (time.mkTime 1 0) "x" []]].

Definition example_response_env : ResponseEnv := {|
  GetVersion := λ _, 1;
  VersionLegacy := 0;
  LabelSet := gmap string string;
  LabelSet_Map := id;
  loghttp_Streams := list Stream;
  Streams_ToProto := id;
  Unmarshal_SeriesResponse := λ _,
    Ok (json.mkSeriesResponse "success" [{[ "env" := "prod" ]}]);
  Unmarshal_LabelResponse := λ _, Ok (json.mkLabelResponse "success" ["env"]);
  Unmarshal_IndexStatsResponse := λ _, Ok (mkIndexStats 1 2 3 4);
  Unmarshal_VolumeResponse := λ _, Ok (mkVolumeResponse [] 10);
  QueryResponse_UnmarshalJSON := λ _,
    Ok (json.mkQueryResponse "success"
          (json.mkQueryResponseData "streams" (json.VStreams example_streams)
             stats.zero));
  FromMetricsToLabelAdapters := map_to_list;
  convertPrometheusResponseHeadersToPointers := id;
  Expr := string;
  ParseExpr := Ok;
  is_SampleExpr := λ _, false;
  NewEmptyPrometheusResponse := None;
  VolumeRequest_GetStart := λ r, model_Time (VolumeRequest.From r);
  VolumeRequest_GetEnd := λ r, model_Time (VolumeRequest.Through r);
  IndexStatsRequest_GetStep := λ _, 0;
  fmt_Sprintf := id;
  LokiPromResponse_encodeTo := λ _, Returns (Ok []);
  legacy_WriteQueryResponseJSON := λ _ _, Returns (Ok []);
  marshal_WriteQueryResponseJSON := λ _ _ _, Returns (Ok []);
  WriteSeriesResponseViewJSON := λ _, Returns (Ok []);
  marshal_WriteSeriesResponseJSON := λ _, Returns (Ok []);
  legacy_WriteLabelResponseJSON := λ _, Returns (Ok []);
  marshal_WriteLabelResponseJSON := λ _, Returns (Ok []);
  marshal_WriteIndexStatsResponseJSON := λ _, Returns (Ok []);
  marshal_WriteVolumeResponseJSON := λ _, Returns (Ok []);
  QueryResponse := Response;
  QueryResponseWrap := λ res, Returns (Ok res);
  QueryResponse_Marshal := λ _, Returns (Ok []);
  GetLokiSeriesResponseView := λ buf,
    Returns (Ok (RLokiSeriesResponseView (mkView buf [])));
  decode_envelope := λ _ _ _, Returns (Err (errors_New "not decoded"));
  ProtobufType := "application/vnd.google.protobuf";
  ExtractEncodingFlags := λ _, None;
  RequestURI := URL_Path;
  GetHeaders := λ _, []
|}.

(** A series request, and what the example body decodes into for it. *)
Definition example_series_request : Request :=
  ReqLokiSeriesRequest
    (LokiSeriesRequest.mk [] (time.mkTime 1700000000 0)
       (time.mkTime 1700003600 0) "/loki/api/v1/series" []).

Definition example_decoded_series : Response :=
  RLokiSeriesResponse
    (LokiSeriesResponse.mk "success" [SeriesIdentifier.mk {[ "env" := "prod" ]}]
       1 [] stats.zero).

(** A range request with limit 100, and what the example body decodes
    into for it. *)
Definition example_range : LokiRequest.t :=
  LokiRequest.mk "{job=a}" 100 0 0 (time.mkTime 1700000000 0)
    (time.mkTime 1700003600 0) FORWARD "/loki/api/v1/query_range" [].

Definition example_decoded_streams : LokiResponse :=
  mkLokiResponse "success" (mkLokiData "streams" example_streams)
    "" "" FORWARD 100 1 stats.zero [].

(** * Properties *)

(** ** The order on label-set keys *)

Lemma String_le_iff a b : String_le a b <-> String_as_OT.lt a b \/ a = b.
Proof.
  unfold String_le, String.leb.
  rewrite <- String_as_OT.cmp_lt, <- String_as_OT.cmp_eq.
  unfold String_as_OT.cmp. destruct (String.compare a b); intuition congruence.
Qed.

Lemma String_lt_iff a b : String_lt a b <-> String_as_OT.lt a b.
Proof.
  unfold String_lt, String.ltb. rewrite <- String_as_OT.cmp_lt.
  unfold String_as_OT.cmp. destruct (String.compare a b); intuition congruence.
Qed.

Global Instance String_le_total : Total String_le.
Proof. intros a b. apply String.leb_total. Qed.

Global Instance String_le_trans : Transitive String_le.
Proof.
  intros a b c. rewrite !String_le_iff.
  intros [H1 | ->] [H2 | ->]; eauto using String_as_OT.lt_trans.
Qed.

Global Instance String_ge_total : Total (flip String_le).
Proof. intros a b. unfold flip. destruct (String_le_total a b); auto. Qed.

Global Instance String_ge_trans : Transitive (flip String_le).
Proof. intros a b c H1 H2. unfold flip in *. by etrans. Qed.

Lemma String_le_neq_lt a b : String_le a b -> a <> b -> String_lt a b.
Proof. rewrite String_le_iff, String_lt_iff. intuition. Qed.

Lemma StronglySorted_strict (R S : relation string) l :
  (forall a b, R a b -> a <> b -> S a b) ->
  StronglySorted R l -> NoDup l -> StronglySorted S l.
Proof.
  intros HRS. induction 1 as [|x l Hl IH Hx]; intros Hnd; [constructor|].
  apply NoDup_cons in Hnd as [Hnin Hnd]. constructor; [auto|].
  rewrite Forall_forall in Hx |- *. intros y Hy.
  apply HRS; [auto|]. intros ->. contradiction.
Qed.

Lemma sort_keys_Permutation d l : sort_keys d l ≡ₚ l.
Proof. destruct d; apply merge_sort_Permutation. Qed.

Lemma sort_keys_ordered d l : NoDup l -> keys_ordered d (sort_keys d l).
Proof.
  intros Hnd. destruct d; simpl.
  - eapply StronglySorted_strict; [apply String_le_neq_lt| |].
    + apply StronglySorted_merge_sort; apply _.
    + by rewrite merge_sort_Permutation.
  - eapply (StronglySorted_strict (flip String_le)).
    + intros a b Hab Hne. apply String_le_neq_lt; [exact Hab|congruence].
    + apply StronglySorted_merge_sort; apply _.
    + by rewrite merge_sort_Permutation.
Qed.

Lemma String_lt_irrefl a : ~ String_lt a a.
Proof. rewrite String_lt_iff. intros H. by apply String_as_OT.lt_not_eq in H. Qed.

Lemma String_lt_trans a b c : String_lt a b -> String_lt b c -> String_lt a c.
Proof. rewrite !String_lt_iff. apply String_as_OT.lt_trans. Qed.

Lemma keys_ordered_NoDup d l : keys_ordered d l -> NoDup l.
Proof.
  destruct d; simpl; induction 1 as [|x l Hl IH Hx]; constructor; auto;
    intros Hin; rewrite Forall_forall in Hx;
    apply (String_lt_irrefl x), Hx, Hin.
Qed.

Lemma keys_ordered_unique d l k :
  keys_ordered d l -> keys_ordered d k -> l ≡ₚ k -> l = k.
Proof.
  destruct d; simpl; apply StronglySorted_unique.
  - intros a b Hab Hba. destruct (String_lt_irrefl a).
    by apply (String_lt_trans a b a).
  - intros a b Hab Hba. destruct (String_lt_irrefl a).
    by apply (String_lt_trans a b a).
Qed.

(** ** Grouping by label-set key *)

Lemma with_label_snoc key ss s :
  with_label key (ss ++ [s]) =
  with_label key ss ++ (if decide (Labels s = key) then [s] else []).
Proof.
  unfold with_label. by rewrite filter_app.
Qed.

Lemma entries_total_app l k :
  entries_total (l ++ k) = (entries_total l + entries_total k)%nat.
Proof. apply sum_list_with_app. Qed.

Lemma group_stream_spec d groups total ss s :
  groups_of d groups ss ->
  exists groups',
    group_stream d (groups, total) s =
      (groups', (total + length (Entries s))%nat) /\
    groups_of d groups' (ss ++ [s]).
Proof.
  intros Hg. eexists. split; [reflexivity|].
  intros key. unfold grouped. rewrite with_label_snoc.
  destruct (decide (Labels s = key)) as [<-|Hne].
  - rewrite lookup_insert_eq, Hg. unfold grouped.
    destruct (with_label (Labels s) ss) as [|f fs]; simpl; [done|].
    by rewrite fmap_app.
  - rewrite lookup_insert_ne by done. rewrite Hg. unfold grouped.
    by rewrite app_nil_r.
Qed.

Lemma group_streams_spec d l groups total ss :
  groups_of d groups ss ->
  exists groups',
    foldl (group_stream d) (groups, total) l =
      (groups', (total + entries_total l)%nat) /\
    groups_of d groups' (ss ++ l).
Proof.
  revert groups total ss.
  induction l as [|s l IH]; intros groups total ss Hg; cbn [foldl].
  - exists groups. rewrite app_nil_r. split; [f_equal; unfold entries_total; simpl; lia|done].
  - destruct (group_stream_spec d groups total ss s Hg) as (g1 & -> & Hg1).
    destruct (IH g1 (total + length (Entries s))%nat (ss ++ [s]) Hg1) as (g2 & -> & Hg2).
    exists g2. split.
    + f_equal. unfold entries_total. simpl. lia.
    + by rewrite <- app_assoc in Hg2.
Qed.

(** The grouping loop reads a prefix [seen] of the responses; it leaves
    some unread only once [total] has reached the limit. *)
Lemma group_resps_spec d limit resps groups total ss :
  groups_of d groups ss ->
  exists groups' seen unread,
    resps = seen ++ unread /\
    group_resps d limit resps (groups, total) =
      (groups', (total + entries_total (all_streams seen))%nat) /\
    groups_of d groups' (ss ++ all_streams seen) /\
    (unread = [] \/
     (N.to_nat limit <= total + entries_total (all_streams seen))%nat).
Proof.
  revert groups total ss.
  induction resps as [|resp rest IH]; intros groups total ss Hg.
  - exists groups, [], []. simpl. rewrite app_nil_r, Nat.add_0_r. auto.
  - cbn [group_resps].
    destruct (group_streams_spec d (Result (Data resp)) groups total ss Hg)
      as (g1 & -> & Hg1).
    cbn [snd]. destruct (Nat.leb_spec (N.to_nat limit)
                       (total + entries_total (Result (Data resp)))) as [Hle|Hlt].
    + exists g1, [resp], rest. unfold all_streams. simpl. rewrite app_nil_r.
      auto.
    + destruct (IH g1 (total + entries_total (Result (Data resp)))%nat
                  (ss ++ Result (Data resp)) Hg1)
        as (g2 & seen & unread & -> & -> & Hg2 & Hstop).
      exists g2, (resp :: seen), unread. unfold all_streams in *. simpl.
      rewrite entries_total_app, <- app_assoc in *.
      rewrite Nat.add_assoc. auto.
Qed.

Lemma groups_of_empty d : groups_of d ∅ [].
Proof. intros key. by rewrite lookup_empty. Qed.

(** ** The keys of [groups] *)

Lemma grouped_is_Some d ss key :
  is_Some (grouped d ss key) <-> exists s, s ∈ ss /\ Labels s = key.
Proof.
  unfold grouped. destruct (with_label key ss) as [|f fs] eqn:Hf.
  - split; [intros [? ?]; done|]. intros (s & Hs & Hk).
    assert (s ∈ with_label key ss) as Hin by (apply list_elem_of_filter; done).
    rewrite Hf in Hin. destruct (not_elem_of_nil _ Hin).
  - split; [|eauto]. intros _. exists f.
    assert (f ∈ with_label key ss) as Hin by (rewrite Hf; left).
    apply list_elem_of_filter in Hin as [? ?]. eauto.
Qed.

Lemma keys_NoDup d (groups : gmap string byDir) :
  NoDup (sort_keys d (map_to_list groups).*1).
Proof. rewrite sort_keys_Permutation. apply NoDup_fst_map_to_list. Qed.

Lemma keys_elem_of d (groups : gmap string byDir) key :
  key ∈ sort_keys d (map_to_list groups).*1 <-> is_Some (groups !! key).
Proof.
  rewrite sort_keys_Permutation, list_elem_of_fmap. split.
  - intros ([k v] & -> & Hkv). apply elem_of_map_to_list in Hkv. eauto.
  - intros [v Hv]. exists (key, v). split; [done|].
    by apply elem_of_map_to_list.
Qed.

(** ** What [merge] keeps *)

Lemma concat_Permutation {A} (l k : list (list A)) :
  l ≡ₚ k -> concat l ≡ₚ concat k.
Proof.
  induction 1 as [|x l k _ IH|x y l|l k m _ IH1 _ IH2]; simpl.
  - done.
  - by rewrite IH.
  - rewrite !app_assoc. f_equiv. apply Permutation_app_comm.
  - by etrans.
Qed.

Lemma merge_Permutation a : merge a ≡ₚ concat (markers a).
Proof. unfold merge. apply concat_Permutation, merge_sort_Permutation. Qed.

Lemma group_entries_Permutation d groups ss key :
  groups_of d groups ss ->
  group_entries groups key ≡ₚ flat key ss.
Proof.
  intros Hg. unfold group_entries, flat. rewrite Hg. unfold grouped.
  destruct (with_label key ss) as [|f fs]; [done|].
  by rewrite merge_Permutation.
Qed.

(** ** Counting entries key by key *)

Lemma sum_list_with_ext {A} (f g : A -> nat) l :
  (forall x, x ∈ l -> f x = g x) -> sum_list_with f l = sum_list_with g l.
Proof.
  induction l as [|x l IH]; intros Hfg; simpl; [done|].
  rewrite Hfg by left. rewrite IH; [done|]. intros y Hy. apply Hfg. by right.
Qed.

(** A function changed at one key of a duplicate-free list changes the sum
    by as much. *)
Lemma sum_list_with_point (f g : string -> nat) (ks : list string) k c :
  NoDup ks -> k ∈ ks ->
  g k = (f k + c)%nat -> (forall j, j <> k -> g j = f j) ->
  sum_list_with g ks = (sum_list_with f ks + c)%nat.
Proof.
  intros Hnd Hin Hk Hother.
  induction Hnd as [|x ks Hx Hnd IH]; [by apply not_elem_of_nil in Hin|].
  simpl. destruct (decide (x = k)) as [->|Hne].
  - rewrite Hk. rewrite (sum_list_with_ext g f ks); [lia|].
    intros y Hy. apply Hother. intros ->. contradiction.
  - rewrite Hother by done. apply elem_of_cons in Hin as [?|Hin]; [congruence|].
    rewrite IH by done. lia.
Qed.

Lemma flat_snoc key ss s :
  flat key (ss ++ [s]) =
  flat key ss ++ (if decide (Labels s = key) then Entries s else []).
Proof.
  unfold flat. rewrite with_label_snoc, fmap_app, concat_app.
  f_equal. case_decide; simpl; [by rewrite app_nil_r|done].
Qed.

Lemma flat_total (ks : list string) ss :
  NoDup ks -> (forall s, s ∈ ss -> Labels s ∈ ks) ->
  sum_list_with (λ k, length (flat k ss)) ks = entries_total ss.
Proof.
  intros Hnd. induction ss as [|s ss IH] using rev_ind; intros Hin.
  - clear. induction ks as [|k ks IH]; [done|exact IH].
  - rewrite entries_total_app. unfold entries_total at 2. simpl.
    rewrite Nat.add_0_r, <- IH.
    2:{ intros s' Hs'. apply Hin, elem_of_app. auto. }
    apply sum_list_with_point with (k := Labels s); [done| | |].
    + apply Hin, elem_of_app. right. left.
    + rewrite flat_snoc, decide_True by done. by rewrite length_app.
    + intros j Hj. rewrite flat_snoc, decide_False by done.
      by rewrite app_nil_r.
Qed.

(** ** The priority queue *)

Lemma pick_Permutation d s l m r :
  pick d s l = (m, r) -> m :: r ≡ₚ s :: l.
Proof.
  revert s m r. induction l as [|t l IH]; intros s m r; simpl.
  - by intros [= <- <-].
  - destruct (pick d t l) as [m' r'] eqn:Hp. specialize (IH _ _ _ Hp).
    destruct (Less d m' s); intros [= <- <-]; [|done].
    by rewrite Permutation_swap, IH.
Qed.

Lemma heap_Pop_None pq : heap_Pop pq = None <-> streams pq = [].
Proof.
  unfold heap_Pop. destruct (streams pq) as [|s l]; [done|].
  destruct (pick (pq_direction pq) s l). split; discriminate.
Qed.

Lemma heap_Pop_Some ks pq s l :
  pq_ok ks pq -> streams pq = s :: l ->
  exists next pq',
    heap_Pop pq = Some (next, pq') /\
    length (Entries next) = 1%nat /\ Labels next ∈ ks /\
    pq_ok ks pq' /\
    entries_total (streams pq) = S (entries_total (streams pq')).
Proof.
  unfold pq_ok, heap_Pop. intros Hok Hs. rewrite Hs in *.
  destruct (pick (pq_direction pq) s l) as [m r] eqn:Hp.
  apply pick_Permutation in Hp. rewrite <- Hp in Hok.
  assert (entries_total (s :: l) = entries_total (m :: r)) as ->
    by (unfold entries_total; by rewrite Hp).
  unfold entries_total.
  apply Forall_cons in Hok as [[Hm Hmk] Hr].
  eexists _, _. split; [reflexivity|]. simpl.
  destruct (Entries m) as [|e es]; simpl in *; [lia|].
  rewrite ?take_0, ?drop_0. split; [done|]. split; [done|].
  destruct es as [|e' es]; simpl.
  - split; [done|lia].
  - split.
    + apply Forall_app. split; [done|].
      apply Forall_cons. split; [simpl; split; [lia|done]|constructor].
    + rewrite sum_list_with_app. simpl. lia.
Qed.

Lemma pop_loop_spec ks n pq resultDict :
  NoDup ks -> pq_ok ks pq -> rd_ok resultDict ->
  rd_ok (pop_loop n pq resultDict) /\
  sum_list_with (rd_len (pop_loop n pq resultDict)) ks =
    (sum_list_with (rd_len resultDict) ks
     + Nat.min n (entries_total (streams pq)))%nat.
Proof.
  intros Hnd. revert pq resultDict.
  induction n as [|n IH]; intros pq rd Hpq Hrd; simpl; [split; [done|lia]|].
  destruct (streams pq) as [|s l] eqn:Hs.
  - apply heap_Pop_None in Hs as Hnone. rewrite Hnone.
    split; [done|]. unfold entries_total. simpl. lia.
  - destruct (heap_Pop_Some ks pq s l Hpq Hs)
      as (next & pq' & -> & Hone & Hin & Hpq' & Htot).
    rewrite <- Hs, Htot.
    set (rd' := <[Labels next := _]> rd).
    assert (rd_ok rd') as Hrd'.
    { intros key s' Hl. unfold rd' in Hl.
      destruct (decide (Labels next = key)) as [<-|Hne].
      - rewrite lookup_insert_eq in Hl. injection Hl as <-. simpl.
        destruct (rd !! Labels next) as [s0|] eqn:H0; simpl; [|done].
        by apply Hrd.
      - rewrite lookup_insert_ne in Hl by done. by apply Hrd. }
    destruct (IH pq' rd' Hpq' Hrd') as [Hok ->]. split; [done|].
    rewrite (sum_list_with_point (rd_len rd) (rd_len rd') ks (Labels next) 1);
      [simpl; lia|done|done| |].
    + unfold rd_len, rd'. rewrite lookup_insert_eq. simpl.
      rewrite length_app, Hone. by destruct (rd !! Labels next).
    + intros j Hj. unfold rd_len, rd'. by rewrite lookup_insert_ne.
Qed.

Lemma omap_lookup_total (resultDict : gmap string Stream) ks :
  entries_total (omap (λ key, resultDict !! key) ks) =
  sum_list_with (rd_len resultDict) ks.
Proof.
  induction ks as [|k ks IH]; [done|]. simpl. rewrite <- IH. unfold rd_len.
  by destruct (resultDict !! k).
Qed.

Lemma omap_lookup_sorted (R : relation string) (resultDict : gmap string Stream) ks :
  rd_ok resultDict -> StronglySorted R ks ->
  StronglySorted R (Labels <$> omap (λ key, resultDict !! key) ks).
Proof.
  intros Hrd. induction 1 as [|k ks Hks IH Hk]; simpl; [constructor|].
  destruct (resultDict !! k) as [s|] eqn:Hl; simpl; [|done].
  constructor; [done|]. rewrite (Hrd _ _ Hl).
  rewrite Forall_forall in Hk |- *. intros x Hx. apply Hk.
  apply list_elem_of_fmap in Hx as (s' & -> & Hs').
  apply list_elem_of_omap in Hs' as (k' & Hk' & Hl').
  by rewrite (Hrd _ _ Hl').
Qed.

Lemma entries_total_filter ss :
  entries_total (filter (λ s, (0 < length (Entries s))%nat) ss) = entries_total ss.
Proof.
  induction ss as [|s ss IH]; [done|]. rewrite filter_cons.
  unfold entries_total in *. case_decide; simpl; lia.
Qed.

(** ** [mergeOrderedNonOverlappingStreams] *)

Lemma all_streams_app l k : all_streams (l ++ k) = all_streams l ++ all_streams k.
Proof. unfold all_streams. apply bind_app. Qed.

Lemma keyed_entries_total d groups ss ks :
  groups_of d groups ss -> NoDup ks ->
  (forall key, key ∈ ks <-> is_Some (groups !! key)) ->
  entries_total ((λ key, mkStream key (group_entries groups key)) <$> ks) =
  entries_total ss.
Proof.
  intros Hg Hnd Hks. rewrite <- (flat_total ks ss Hnd).
  - trans (sum_list_with (λ k, length (group_entries groups k)) ks).
    + unfold entries_total. clear.
      induction ks as [|k ks IH]; [done|]. rewrite fmap_cons. simpl.
      f_equal. exact IH.
    + apply sum_list_with_ext. intros k _.
      apply Permutation_length, (group_entries_Permutation d), Hg.
  - intros s Hs. apply Hks. rewrite Hg. apply grouped_is_Some. eauto.
Qed.

Lemma keyed_pq_ok groups ks d :
  pq_ok ks (mkPQ
    (filter (λ stream, (0 < length (Entries stream))%nat)
       ((λ key, mkStream key (group_entries groups key)) <$> ks)) d).
Proof.
  unfold pq_ok. simpl. apply Forall_forall. intros s Hs.
  apply list_elem_of_filter in Hs as [Hlen Hs]. split; [done|].
  apply list_elem_of_fmap in Hs as (k & -> & Hk). done.
Qed.

Lemma rd_ok_empty : rd_ok ∅.
Proof. intros key s. by rewrite lookup_empty. Qed.

Lemma rd_len_empty ks : sum_list_with (rd_len ∅) ks = 0%nat.
Proof.
  induction ks as [|k ks IH]; [done|]. simpl. rewrite IH.
  unfold rd_len. by rewrite lookup_empty.
Qed.

(** The merged streams hold [min(limit, available)] entries. *)
Lemma merged_entries_total resps limit d :
  entries_total (mergeOrderedNonOverlappingStreams resps limit d) =
  Nat.min (N.to_nat limit) (entries_total (all_streams resps)).
Proof.
  unfold mergeOrderedNonOverlappingStreams.
  destruct (group_resps_spec d limit resps ∅ 0%nat [] (groups_of_empty d))
    as (groups & seen & unread & -> & -> & Hg & Hstop).
  simpl in Hg. rewrite all_streams_app, entries_total_app. simpl.
  set (keys := sort_keys d (map_to_list groups).*1).
  assert (NoDup keys) as Hnd by apply keys_NoDup.
  assert (forall key, key ∈ keys <-> is_Some (groups !! key)) as Hks
    by apply keys_elem_of.
  assert (unread = [] -> entries_total (all_streams unread) = 0%nat) as Hnil
    by (by intros ->).
  destruct (Nat.leb_spec (entries_total (all_streams seen)) (N.to_nat limit))
    as [Hle|Hlt].
  - rewrite (keyed_entries_total d groups (all_streams seen)) by done.
    destruct Hstop as [Hu|Hge]; [rewrite (Hnil Hu)|]; lia.
  - rewrite omap_lookup_total.
    destruct (pop_loop_spec keys (N.to_nat limit) _ ∅ Hnd
                (keyed_pq_ok groups keys d) rd_ok_empty) as [_ ->].
    rewrite rd_len_empty. simpl streams.
    rewrite entries_total_filter,
      (keyed_entries_total d groups (all_streams seen)) by done.
    lia.
Qed.

(** The merged streams come in the order of their keys. *)
Lemma merged_keys_ordered resps limit d :
  keys_ordered d (Labels <$> mergeOrderedNonOverlappingStreams resps limit d).
Proof.
  unfold mergeOrderedNonOverlappingStreams.
  destruct (group_resps d limit resps (∅, 0%nat)) as [groups total].
  pose proof (sort_keys_ordered d (map_to_list groups).*1
                (NoDup_fst_map_to_list groups)) as Hsorted.
  set (keys := sort_keys d (map_to_list groups).*1) in *.
  destruct (total <=? N.to_nat limit)%nat.
  - rewrite <- list_fmap_compose.
    replace (Labels ∘ _) with (@id string) by done. by rewrite list_fmap_id.
  - destruct (pop_loop_spec keys (N.to_nat limit)
                (mkPQ (filter (λ stream, (0 < length (Entries stream))%nat)
                   ((λ key, mkStream key (group_entries groups key)) <$> keys)) d)
                ∅ (keys_NoDup d groups) (keyed_pq_ok groups keys d) rd_ok_empty)
      as [Hrd _].
    destruct d; simpl in *; by apply omap_lookup_sorted.
Qed.

(** ** [mergeLokiResponse] *)

Lemma range_collect_loki rs st acc :
  range collect_loki (RLokiResponse <$> rs) (st, acc) =
  Returns (foldl stats.MergeSplit st (Statistics <$> rs), acc ++ rs).
Proof.
  revert st acc. induction rs as [|r rs IH]; intros st acc; simpl.
  - by rewrite app_nil_r.
  - unfold mbind, outcome_bind in *. simpl. rewrite IH.
    by rewrite <- app_assoc.
Qed.

Lemma mergeLokiResponse_eq r rs :
  mergeLokiResponse (RLokiResponse <$> r :: rs) =
  Returns (Some {|
    Status := QueryStatusSuccess;
    Direction := Direction r;
    Limit := Limit r;
    Version := Version r;
    ErrorType := ErrorType r;
    Error := Error r;
    Statistics := foldl stats.MergeSplit stats.zero (Statistics <$> r :: rs);
    Data := {| ResultType := ResultTypeStream;
               Result := mergeOrderedNonOverlappingStreams (r :: rs)
                           (Limit r) (Direction r) |};
    Headers := []
  |}).
Proof.
  unfold mergeLokiResponse. rewrite fmap_cons.
  cbn [as_LokiResponse mbind outcome_bind].
  rewrite <- fmap_cons, range_collect_loki. reflexivity.
Qed.

Lemma Count_entries_total res :
  Count res = Z.of_nat (entries_total (Result (Data res))).
Proof.
  unfold Count. generalize (Result (Data res)). intros l.
  assert (forall z, foldl (λ result s, result + Z.of_nat (length (Entries s))) z l
                    = z + Z.of_nat (entries_total l)) as H.
  { induction l as [|s l IH]; intros z; simpl.
    - unfold entries_total. simpl. lia.
    - rewrite IH. unfold entries_total. simpl. lia. }
  rewrite H. lia.
Qed.

Lemma total_available_entries resps :
  total_available resps = Z.of_nat (entries_total (all_streams resps)).
Proof.
  unfold total_available. induction resps as [|r resps IH]; [done|].
  rewrite fmap_cons. cbn [foldr]. rewrite IH, Count_entries_total.
  change (all_streams (r :: resps)) with (Result (Data r) ++ all_streams resps).
  rewrite entries_total_app. lia.
Qed.

(** C1. Limit enforcement: the response merged from the LokiResponses
    [r :: rs], whose direction and limit are those of [r], holds at most
    [Limit r] entries over all its streams, and exactly the minimum of
    that limit and the number of entries available across the inputs. The
    same holds of [mergeOrderedNonOverlappingStreams] for any limit and
    either direction. *)
Theorem C1_limit_enforcement :
  (forall (r : LokiResponse) (rs : list LokiResponse),
     exists merged,
       mergeLokiResponse (RLokiResponse <$> r :: rs) = Returns (Some merged) /\
       Count merged <= Z.of_N (Limit r) /\
       Count merged = Z.min (Z.of_N (Limit r)) (total_available (r :: rs))) /\
  (forall (resps : list LokiResponse) (limit : N) (direction : logproto.Direction),
     let streams := mergeOrderedNonOverlappingStreams resps limit direction in
     Z.of_nat (entries_total streams) <= Z.of_N limit /\
     Z.of_nat (entries_total streams) =
       Z.min (Z.of_N limit) (total_available resps)).
Proof.
  split.
  - intros r rs. eexists. split; [apply mergeLokiResponse_eq|].
    rewrite Count_entries_total, total_available_entries. cbn [Data Result].
    rewrite merged_entries_total. lia.
  - intros resps limit direction. simpl.
    rewrite total_available_entries, merged_entries_total. lia.
Qed.

(** C7. Output order: the streams of the response merged from the
    LokiResponses [r :: rs] come in ascending order of their label-set
    key when the direction is FORWARD and in descending order when it is
    BACKWARD. *)
Theorem C7_streams_ordered_by_key (r : LokiResponse) (rs : list LokiResponse) :
  exists merged,
    mergeLokiResponse (RLokiResponse <$> r :: rs) = Returns (Some merged) /\
    match Direction r with
    | FORWARD => StronglySorted String_lt (Labels <$> Result (Data merged))
    | BACKWARD =>
        StronglySorted (flip String_lt) (Labels <$> Result (Data merged))
    end.
Proof.
  eexists. split; [apply mergeLokiResponse_eq|]. simpl.
  apply (merged_keys_ordered (r :: rs) (Limit r) (Direction r)).
Qed.

(** C10. The response merged from the LokiResponses [r :: rs] has the
    status "success" whatever the statuses of the inputs, the direction,
    limit, version, error type and error of the first input [r], and no
    headers. *)
Theorem C10_merged_envelope (r : LokiResponse) (rs : list LokiResponse) :
  exists merged,
    mergeLokiResponse (RLokiResponse <$> r :: rs) = Returns (Some merged) /\
    Status merged = "success" /\
    Direction merged = Direction r /\
    Limit merged = Limit r /\
    Version merged = Version r /\
    ErrorType merged = ErrorType r /\
    Error merged = Error r /\
    Headers merged = [].
Proof.
  eexists. split; [apply mergeLokiResponse_eq|]. simpl. repeat split.
Qed.

(** ** Merging in either order *)

Lemma flat_app key l k : flat key (l ++ k) = flat key l ++ flat key k.
Proof.
  unfold flat, with_label. by rewrite filter_app, fmap_app, concat_app.
Qed.

Lemma flat_no_entries key ss : entries_total ss = 0%nat -> flat key ss = [].
Proof.
  unfold flat, with_label, entries_total.
  induction ss as [|s ss IH]; [done|]. simpl. intros H.
  rewrite filter_cons. case_decide; [|apply IH; lia].
  rewrite fmap_cons. cbn [concat]. rewrite IH by lia.
  destruct (Entries s); [done|simpl in H; lia].
Qed.

Lemma flat_keyed key (G : string -> list Entry) ks :
  NoDup ks ->
  flat key ((λ k, mkStream k (G k)) <$> ks) =
  if decide (key ∈ ks) then G key else [].
Proof.
  unfold flat, with_label. induction 1 as [|k ks Hk Hnd IH]; [done|].
  rewrite fmap_cons, filter_cons. cbn [Labels].
  destruct (decide (k = key)) as [->|Hne].
  - rewrite decide_True by left. rewrite fmap_cons. cbn [concat Entries].
    rewrite IH. rewrite decide_False by done. by rewrite app_nil_r.
  - rewrite IH. destruct (decide (key ∈ ks)) as [Hin|Hnin].
    + rewrite decide_True by (by right). done.
    + rewrite decide_False; [done|]. intros [?|?]%elem_of_cons; congruence.
Qed.

(** When the inputs hold no more entries than the limit, every label-set
    keeps, up to their order, the entries the inputs hold for it. *)
Lemma merged_flat resps limit d key :
  (entries_total (all_streams resps) <= N.to_nat limit)%nat ->
  flat key (mergeOrderedNonOverlappingStreams resps limit d) ≡ₚ
  flat key (all_streams resps).
Proof.
  unfold mergeOrderedNonOverlappingStreams.
  destruct (group_resps_spec d limit resps ∅ 0%nat [] (groups_of_empty d))
    as (groups & seen & unread & -> & -> & Hg & Hstop).
  simpl in Hg. rewrite all_streams_app, entries_total_app. simpl. intros Hle.
  rewrite (proj2 (Nat.leb_le _ _)) by lia.
  rewrite flat_keyed by apply keys_NoDup.
  rewrite flat_app, (flat_no_entries key (all_streams unread)).
  2:{ destruct Hstop as [->|Hge]; [done|lia]. }
  rewrite app_nil_r, <- (group_entries_Permutation d groups _ key Hg).
  case_decide as Hin; [done|].
  rewrite keys_elem_of in Hin. unfold group_entries.
  destruct (groups !! key); [|done]. destruct Hin. eauto.
Qed.

(** *** When both responses are read *)

Lemma time_ltb_false a b :
  time.ltb a b = false <->
  time.sec b < time.sec a \/ (time.sec a = time.sec b /\ time.nsec b <= time.nsec a).
Proof.
  unfold time.ltb.
  rewrite orb_false_iff, andb_false_iff, !Z.ltb_ge, Z.eqb_neq. lia.
Qed.

Global Instance marker_before_total d : Total (marker_before d).
Proof.
  intros x y. destruct d; unfold marker_before; rewrite !time_ltb_false; lia.
Qed.

Global Instance marker_before_trans d : Transitive (marker_before d).
Proof.
  intros x y z. destruct d; unfold marker_before; rewrite !time_ltb_false; lia.
Qed.

Lemma marker_before_antisym d x y :
  marker_before d x y -> marker_before d y x -> start x = start y.
Proof.
  destruct d; unfold marker_before; rewrite !time_ltb_false;
    destruct (start x), (start y); simpl; intros; f_equal; lia.
Qed.

Lemma NoDup_fmap_inj {A B} (f : A -> B) (l : list A) x y :
  NoDup (f <$> l) -> x ∈ l -> y ∈ l -> f x = f y -> x = y.
Proof.
  induction l as [|z l IH]; intros Hnd Hx Hy Hf.
  - destruct (not_elem_of_nil _ Hx).
  - rewrite fmap_cons in Hnd. apply NoDup_cons in Hnd as [Hz Hnd].
    apply elem_of_cons in Hx as [->|Hx]; apply elem_of_cons in Hy as [->|Hy].
    + done.
    + destruct Hz. rewrite Hf. by apply list_elem_of_fmap_2.
    + destruct Hz. rewrite <- Hf. by apply list_elem_of_fmap_2.
    + by apply IH.
Qed.

(** Markers that start at different times are merged in one way, in
    whatever order they were gathered. *)
Lemma merge_sort_markers d ms ms' :
  ms ≡ₚ ms' -> NoDup (start <$> ms) ->
  merge_sort (marker_before d) ms = merge_sort (marker_before d) ms'.
Proof.
  intros Hp Hnd.
  apply (Sorted_unique_strong (marker_before d)).
  - intros x y Hx Hy Hxy Hyx.
    apply (NoDup_fmap_inj start ms); [done| | |by eapply marker_before_antisym].
    + by rewrite merge_sort_Permutation in Hx.
    + by rewrite merge_sort_Permutation, <- Hp in Hy.
  - apply Sorted_merge_sort, _.
  - apply Sorted_merge_sort, _.
  - by rewrite !merge_sort_Permutation.
Qed.

Lemma group_resps_both d limit A B :
  (entries_total (Result (Data A)) < N.to_nat limit)%nat ->
  exists groups,
    group_resps d limit [A; B] (∅, 0%nat) =
      (groups, (entries_total (Result (Data A)) + entries_total (Result (Data B)))%nat) /\
    groups_of d groups (Result (Data A) ++ Result (Data B)).
Proof.
  intros Hlt. cbn [group_resps].
  destruct (group_streams_spec d (Result (Data A)) ∅ 0%nat [] (groups_of_empty d))
    as (g1 & -> & Hg1).
  cbn [snd]. rewrite (proj2 (Nat.leb_gt _ _)) by lia.
  destruct (group_streams_spec d (Result (Data B)) g1
              (0 + entries_total (Result (Data A)))%nat _ Hg1)
    as (g2 & -> & Hg2).
  exists g2. split; [by case_match|done].
Qed.

Lemma groups_of_same_keys d g1 g2 ss1 ss2 :
  groups_of d g1 ss1 -> groups_of d g2 ss2 -> ss1 ≡ₚ ss2 ->
  sort_keys d (map_to_list g1).*1 = sort_keys d (map_to_list g2).*1.
Proof.
  intros H1 H2 Hp. apply (keys_ordered_unique d).
  - apply sort_keys_ordered, NoDup_fst_map_to_list.
  - apply sort_keys_ordered, NoDup_fst_map_to_list.
  - apply NoDup_Permutation; [apply keys_NoDup..|].
    intros key. rewrite !keys_elem_of, H1, H2, !grouped_is_Some.
    by setoid_rewrite Hp.
Qed.

Lemma group_entries_both d g1 g2 l k key :
  groups_of d g1 (l ++ k) -> groups_of d g2 (k ++ l) ->
  NoDup (start <$> (Entries <$> with_label key (l ++ k))) ->
  group_entries g1 key = group_entries g2 key.
Proof.
  intros H1 H2 Hnd. unfold group_entries. rewrite H1, H2. unfold grouped.
  assert (with_label key (l ++ k) ≡ₚ with_label key (k ++ l)) as Hp.
  { unfold with_label. rewrite !filter_app. apply Permutation_app_comm. }
  destruct (with_label key (l ++ k)) as [|x xs] eqn:E1;
    destruct (with_label key (k ++ l)) as [|y ys] eqn:E2.
  - done.
  - by apply Permutation_nil in Hp.
  - by apply Permutation_nil_r in Hp.
  - unfold merge. cbn [markers direction]. f_equal.
    apply merge_sort_markers; [by rewrite Hp|done].
Qed.

(** Two responses that are both read, and whose entry lists for one
    label-set start at different times, merge into the same streams in
    either order. *)
Lemma merged_both_orders d limit A B :
  (entries_total (Result (Data A)) < N.to_nat limit)%nat ->
  (entries_total (Result (Data B)) < N.to_nat limit)%nat ->
  (forall key,
     NoDup (start <$> (Entries <$>
              with_label key (Result (Data A) ++ Result (Data B))))) ->
  mergeOrderedNonOverlappingStreams [A; B] limit d =
  mergeOrderedNonOverlappingStreams [B; A] limit d.
Proof.
  intros HA HB Hnd. unfold mergeOrderedNonOverlappingStreams.
  destruct (group_resps_both d limit A B HA) as (g1 & -> & Hg1).
  destruct (group_resps_both d limit B A HB) as (g2 & -> & Hg2).
  rewrite (Nat.add_comm (entries_total (Result (Data B)))).
  rewrite (groups_of_same_keys d g1 g2 _ _ Hg1 Hg2)
    by apply Permutation_app_comm.
  set (keys := sort_keys d (map_to_list g2).*1).
  assert ((λ key, mkStream key (group_entries g1 key)) <$> keys =
          (λ key, mkStream key (group_entries g2 key)) <$> keys) as ->; [|done].
  apply list_fmap_ext. intros i key _. f_equal.
  by apply (group_entries_both d g1 g2 (Result (Data A)) (Result (Data B))).
Qed.

(** C3, as the code has it. For LokiResponses [A] and [B] of one
    direction and limit, merging [A; B] and merging [B; A] give the same
    total entry count, and both outputs come in the order of their
    label-set keys (descending for BACKWARD). When [A] and [B] together
    hold no more entries than the limit, every label-set has the same
    final entries in both outputs, up to their order. When neither [A]
    nor [B] alone holds as many entries as the limit, so that the
    grouping loop reads both, and the entry lists the two hold for one
    label-set start at different times, the two outputs are the same
    streams with the same entries. *)
Theorem C3_merge_either_order (A B : LokiResponse) :
  Direction A = Direction B -> Limit A = Limit B ->
  exists mAB mBA,
    mergeLokiResponse [RLokiResponse A; RLokiResponse B] = Returns (Some mAB) /\
    mergeLokiResponse [RLokiResponse B; RLokiResponse A] = Returns (Some mBA) /\
    Count mAB = Count mBA /\
    keys_ordered (Direction A) (Labels <$> Result (Data mAB)) /\
    keys_ordered (Direction A) (Labels <$> Result (Data mBA)) /\
    (Count A + Count B <= Z.of_N (Limit A) ->
     forall key,
       flat key (Result (Data mAB)) ≡ₚ flat key (Result (Data mBA))) /\
    (Count A < Z.of_N (Limit A) -> Count B < Z.of_N (Limit A) ->
     (forall key,
        NoDup (start <$> (Entries <$>
                 with_label key (Result (Data A) ++ Result (Data B))))) ->
     Result (Data mAB) = Result (Data mBA)).
Proof.
  intros Hd Hl. eexists _, _.
  split; [apply (mergeLokiResponse_eq A [B])|].
  split; [apply (mergeLokiResponse_eq B [A])|].
  rewrite !Count_entries_total. cbn [Data Result]. rewrite <- Hd, <- Hl.
  rewrite !merged_entries_total.
  assert (all_streams [A; B] = Result (Data A) ++ Result (Data B)) as HAB
    by (unfold all_streams; simpl; by rewrite app_nil_r).
  assert (all_streams [B; A] = Result (Data B) ++ Result (Data A)) as HBA
    by (unfold all_streams; simpl; by rewrite app_nil_r).
  rewrite HAB, HBA, !entries_total_app.
  split; [lia|]. split; [apply merged_keys_ordered|].
  split; [apply merged_keys_ordered|]. split.
  - intros Hle key.
    rewrite !merged_flat by (rewrite ?HAB, ?HBA, entries_total_app; lia).
    rewrite HAB, HBA, !flat_app. apply Permutation_app_comm.
  - intros HA HB Hnd. apply merged_both_orders; [lia|lia|done].
Qed.

(** The theorem at two responses that are both read and stay within
    their limit. *)
Lemma C3_merge_either_order_witness :
  Direction C3_C = Direction C3_D /\ Limit C3_C = Limit C3_D /\
  Count C3_C + Count C3_D <= Z.of_N (Limit C3_C) /\
  exists mCD mDC,
    mergeLokiResponse [RLokiResponse C3_C; RLokiResponse C3_D] = Returns (Some mCD) /\
    mergeLokiResponse [RLokiResponse C3_D; RLokiResponse C3_C] = Returns (Some mDC) /\
    Count mCD = Count mDC /\
    keys_ordered BACKWARD (Labels <$> Result (Data mCD)) /\
    keys_ordered BACKWARD (Labels <$> Result (Data mDC)) /\
    (Count C3_C + Count C3_D <= Z.of_N (Limit C3_C) ->
     forall key,
       flat key (Result (Data mCD)) ≡ₚ flat key (Result (Data mDC))) /\
    (Count C3_C < Z.of_N (Limit C3_C) -> Count C3_D < Z.of_N (Limit C3_C) ->
     (forall key,
        NoDup (start <$> (Entries <$>
                 with_label key (Result (Data C3_C) ++ Result (Data C3_D))))) ->
     Result (Data mCD) = Result (Data mDC)).
Proof.
  split; [reflexivity|]. split; [reflexivity|]. split; [vm_compute; discriminate|].
  apply (C3_merge_either_order C3_C C3_D); reflexivity.
Defined.

(** C3, as stated, fails: with limit 1 the grouping loop stops after the
    first response, so the output holds the first response's entry and the
    label-set of the other response has none. *)
Lemma C3_counterexample :
  Direction C3_A = Direction C3_B /\ Limit C3_A = Limit C3_B /\
  exists mAB mBA,
    mergeLokiResponse [RLokiResponse C3_A; RLokiResponse C3_B] = Returns (Some mAB) /\
    mergeLokiResponse [RLokiResponse C3_B; RLokiResponse C3_A] = Returns (Some mBA) /\
    flat "{job=a}" (Result (Data mAB)) = [mkEntry (time.mkTime 1 0) "x" []] /\
    flat "{job=a}" (Result (Data mBA)) = [] /\
    ~ flat "{job=a}" (Result (Data mAB)) ≡ₚ flat "{job=a}" (Result (Data mBA)).
Proof.
  split; [done|]. split; [done|]. eexists _, _.
  split; [vm_compute; reflexivity|]. split; [vm_compute; reflexivity|].
  split; [vm_compute; reflexivity|]. split; [vm_compute; reflexivity|].
  intros H. vm_compute in H. by apply Permutation_nil_r in H.
Qed.

(** ** Statistics *)

Lemma add_counters_nil_r a : stats.add_counters a [] = a.
Proof. by destruct a. Qed.

Lemma add_counters_assoc a b c :
  stats.add_counters (stats.add_counters a b) c =
  stats.add_counters a (stats.add_counters b c).
Proof.
  revert b c. induction a as [|x a IH]; intros [|y b] [|z c]; simpl; try done.
  by rewrite IH, Z.add_assoc.
Qed.

Lemma stats_add_zero_l r : stats.add stats.zero r = r.
Proof. destruct r. unfold stats.add. simpl. done. Qed.

Lemma stats_add_zero_r r : stats.add r stats.zero = r.
Proof.
  destruct r. unfold stats.add. simpl.
  rewrite !Z.add_0_r, add_counters_nil_r. done.
Qed.

Lemma stats_add_assoc a b c :
  stats.add (stats.add a b) c = stats.add a (stats.add b c).
Proof.
  unfold stats.add. simpl. by rewrite !Z.add_assoc, add_counters_assoc.
Qed.

(** Accumulating with [MergeSplit] from the zero record gives the sum. *)
Lemma foldl_MergeSplit st l :
  foldl stats.MergeSplit st l = stats.add st (stats.sum l).
Proof.
  revert st. induction l as [|x l IH]; intros st; simpl.
  - by rewrite stats_add_zero_r.
  - rewrite IH. unfold stats.MergeSplit. apply stats_add_assoc.
Qed.

Lemma foldl_MergeSplit_zero l :
  foldl stats.MergeSplit stats.zero l = stats.sum l.
Proof. by rewrite foldl_MergeSplit, stats_add_zero_l. Qed.

(** ** Keeping first occurrences *)

Lemma filter_all {A} (P : A -> Prop) `{forall x, Decision (P x)} (l : list A) :
  Forall P l -> filter P l = l.
Proof.
  induction 1 as [|x l Hx Hl IH]; [done|].
  by rewrite filter_cons, decide_True, IH.
Qed.

Section dedup.
Context {A K : Type} `{Countable K} (h : A -> K).

Lemma unique_fold l out seen :
  (foldl (unique_step h) (out, seen) l).1 =
  out ++ filter (λ y, h y ∉ seen) (dedup_first h l).
Proof.
  revert out seen. induction l as [|x l IH]; intros out seen; simpl.
  - by rewrite app_nil_r.
  - unfold unique_step at 2. simpl. rewrite filter_cons.
    destruct (decide (h x ∈ seen)) as [Hin|Hnin].
    + rewrite decide_False by (intros Hn; contradiction).
      rewrite IH. f_equal. rewrite list_filter_filter.
      apply list_filter_iff. intros y. split; [|tauto].
      intros Hy. split; [done|]. intros Heq. apply Hy. by rewrite Heq.
    + rewrite decide_True by done. rewrite IH, <- app_assoc. simpl.
      do 2 f_equal. rewrite list_filter_filter.
      apply list_filter_iff. intros y.
      rewrite not_elem_of_union, not_elem_of_singleton. tauto.
Qed.

Lemma dedup_first_sublist l : sublist (dedup_first h l) l.
Proof.
  induction l as [|x l IH]; simpl; [done|]. apply sublist_skip.
  etrans; [apply sublist_filter|done].
Qed.

Lemma filter_key_filter_other k x (l : list A) :
  filter (λ y, h y = k) (filter (λ y, h y ≠ h x) l) =
  if decide (h x = k) then [] else filter (λ y, h y = k) l.
Proof.
  rewrite list_filter_filter. case_decide as Hk.
  - induction l as [|y l IH]; [done|]. rewrite filter_cons.
    rewrite decide_False; [done|]. intros [? ?]. congruence.
  - apply list_filter_iff. intros y. split; [tauto|].
    intros Hy. split; [done|]. congruence.
Qed.

(** Each key of the input is kept once, by its first element. *)
Lemma dedup_first_head k l :
  head (filter (λ y, h y = k) (dedup_first h l)) =
  head (filter (λ y, h y = k) l).
Proof.
  induction l as [|x l IH]; simpl; [done|]. rewrite !filter_cons.
  rewrite filter_key_filter_other.
  destruct (decide (h x = k)); [done|]. exact IH.
Qed.

Lemma dedup_first_once k l :
  (exists x, x ∈ l /\ h x = k) ->
  length (filter (λ y, h y = k) (dedup_first h l)) = 1%nat.
Proof.
  induction l as [|x l IH]; intros (x0 & Hin & Hk).
  - destruct (not_elem_of_nil _ Hin).
  - simpl. rewrite filter_cons, filter_key_filter_other.
    destruct (decide (h x = k)) as [Heq|Hne]; [done|].
    apply IH. apply elem_of_cons in Hin as [->|Hin]; [done|eauto].
Qed.

Lemma dedup_first_NoDup l : NoDup (h <$> dedup_first h l).
Proof.
  induction l as [|x l IH]; simpl; [constructor|].
  apply NoDup_cons. split.
  - rewrite list_elem_of_fmap. intros (y & Hy & Hin).
    apply list_elem_of_filter in Hin as [Hne _]. congruence.
  - apply (sublist_NoDup _ (h <$> dedup_first h l)); [exact IH|].
    apply fmap_sublist, sublist_filter.
Qed.

Lemma dedup_first_id l : NoDup (h <$> l) -> dedup_first h l = l.
Proof.
  induction l as [|x l IH]; simpl; [done|].
  intros [Hx Hnd]%NoDup_cons. rewrite IH by done. f_equal.
  apply filter_all, Forall_forall. intros y Hy Heq. apply Hx.
  rewrite <- Heq. by apply list_elem_of_fmap_2.
Qed.

End dedup.

(** ** [Codec.MergeResponse] *)

Section MergeResponse_properties.

Context {env : MergeEnv}.

(** C9. Merging no responses fails with an error and produces no
    response, whatever kind the caller had in mind. *)
Theorem C9_merge_empty :
  MergeResponse [] =
    Returns (Err (errors_New "merging responses requires at least one response")) /\
  forall res, MergeResponse [] <> Returns (Ok res).
Proof. split; [reflexivity|]. intros res. discriminate. Qed.

Lemma series_step_unique st series :
  series_step st series = unique_step Hash st series.
Proof. by destruct st. Qed.

Lemma names_step_unique st name :
  names_step st name = unique_step id st name.
Proof. by destruct st. Qed.

Lemma foldl_series_step l st :
  foldl series_step st l = foldl (unique_step Hash) st l.
Proof.
  revert st. induction l as [|x l IH]; intros st; simpl; [done|].
  by rewrite series_step_unique, IH.
Qed.

Lemma foldl_names_step l st :
  foldl names_step st l = foldl (unique_step id) st l.
Proof.
  revert st. induction l as [|x l IH]; intros st; simpl; [done|].
  by rewrite names_step_unique, IH.
Qed.

(** The loops over homogeneous inputs. *)
Lemma range_collect_series rs st acc :
  range collect_series (RLokiSeriesResponse <$> rs) (st, acc) =
  Returns (foldl stats.MergeSplit st (LokiSeriesResponse.Statistics <$> rs),
           foldl series_step acc (concat (LokiSeriesResponse.Data <$> rs))).
Proof.
  revert st acc. induction rs as [|r rs IH]; intros st acc; [done|].
  rewrite !fmap_cons.
  change (range collect_series
            (RLokiSeriesResponse r :: (RLokiSeriesResponse <$> rs)) (st, acc))
    with (range collect_series (RLokiSeriesResponse <$> rs)
            (stats.MergeSplit st (LokiSeriesResponse.Statistics r),
             foldl series_step acc (LokiSeriesResponse.Data r))).
  rewrite IH. cbn [concat foldl]. by rewrite foldl_app.
Qed.

Lemma range_collect_names rs st acc :
  range collect_names (RLokiLabelNamesResponse <$> rs) (st, acc) =
  Returns (foldl stats.MergeSplit st (LokiLabelNamesResponse.Statistics <$> rs),
           foldl names_step acc (concat (LokiLabelNamesResponse.Data <$> rs))).
Proof.
  revert st acc. induction rs as [|r rs IH]; intros st acc; [done|].
  rewrite !fmap_cons.
  change (range collect_names
            (RLokiLabelNamesResponse r :: (RLokiLabelNamesResponse <$> rs)) (st, acc))
    with (range collect_names (RLokiLabelNamesResponse <$> rs)
            (stats.MergeSplit st (LokiLabelNamesResponse.Statistics r),
             foldl names_step acc (LokiLabelNamesResponse.Data r))).
  rewrite IH. cbn [concat foldl]. by rewrite foldl_app.
Qed.

Lemma MergeResponse_series r rs :
  MergeResponse (RLokiSeriesResponse <$> r :: rs) =
  Returns (Ok (RLokiSeriesResponse {|
    LokiSeriesResponse.Status := LokiSeriesResponse.Status r;
    LokiSeriesResponse.Version := LokiSeriesResponse.Version r;
    LokiSeriesResponse.Data := dedup_first Hash (concat (LokiSeriesResponse.Data <$> r :: rs));
    LokiSeriesResponse.Statistics := stats.sum (LokiSeriesResponse.Statistics <$> r :: rs);
    LokiSeriesResponse.Headers := [] |})).
Proof.
  unfold MergeResponse. rewrite fmap_cons at 1.
  rewrite range_collect_series, foldl_series_step, foldl_MergeSplit_zero.
  pose proof (unique_fold Hash (concat (LokiSeriesResponse.Data <$> r :: rs)) [] ∅) as Hu.
  destruct (foldl (unique_step Hash) ([], ∅) (concat (LokiSeriesResponse.Data <$> r :: rs)))
    as [out seen]. simpl in Hu. subst out.
  cbn [mbind outcome_bind mret outcome_ret]. do 3 f_equal.
  f_equal. apply filter_all, Forall_forall. intros y _. apply not_elem_of_empty.
Qed.

Lemma MergeResponse_names r rs :
  MergeResponse (RLokiLabelNamesResponse <$> r :: rs) =
  Returns (Ok (RLokiLabelNamesResponse {|
    LokiLabelNamesResponse.Status := LokiLabelNamesResponse.Status r;
    LokiLabelNamesResponse.Version := LokiLabelNamesResponse.Version r;
    LokiLabelNamesResponse.Data := dedup_first id (concat (LokiLabelNamesResponse.Data <$> r :: rs));
    LokiLabelNamesResponse.Statistics := stats.sum (LokiLabelNamesResponse.Statistics <$> r :: rs);
    LokiLabelNamesResponse.Headers := [] |})).
Proof.
  unfold MergeResponse. rewrite fmap_cons at 1.
  rewrite range_collect_names, foldl_names_step, foldl_MergeSplit_zero.
  pose proof (unique_fold id (concat (LokiLabelNamesResponse.Data <$> r :: rs)) [] ∅) as Hu.
  destruct (foldl (unique_step id) ([], ∅) (concat (LokiLabelNamesResponse.Data <$> r :: rs)))
    as [out seen]. simpl in Hu. subst out.
  cbn [mbind outcome_bind mret outcome_ret]. do 3 f_equal.
  f_equal. apply filter_all, Forall_forall. intros y _. apply not_elem_of_empty.
Qed.

(** C6. Series dedup: merging the SeriesResponses [r :: rs] returns a
    SeriesResponse whose series are those of the inputs, taken in input
    order, that are the first with their hash. So no two of them share a
    hash, they appear in the order of the inputs, every hash of an input
    series is kept exactly once and by its first occurrence, and a series
    that every input contains appears exactly once. *)
Theorem C6_series_dedup (r : LokiSeriesResponse.t) (rs : list LokiSeriesResponse.t) :
  let inputs := concat (LokiSeriesResponse.Data <$> r :: rs) in
  exists merged,
    MergeResponse (RLokiSeriesResponse <$> r :: rs) =
      Returns (Ok (RLokiSeriesResponse merged)) /\
    LokiSeriesResponse.Data merged = dedup_first Hash inputs /\
    NoDup (Hash <$> LokiSeriesResponse.Data merged) /\
    sublist (LokiSeriesResponse.Data merged) inputs /\
    (forall s, s ∈ inputs ->
       head (filter (λ x, Hash x = Hash s) (LokiSeriesResponse.Data merged)) =
         head (filter (λ x, Hash x = Hash s) inputs) /\
       length (filter (λ x, Hash x = Hash s) (LokiSeriesResponse.Data merged)) = 1%nat) /\
    (forall s, (forall r', r' ∈ r :: rs -> s ∈ LokiSeriesResponse.Data r') ->
       length (filter (λ x, Hash x = Hash s) (LokiSeriesResponse.Data merged)) = 1%nat).
Proof.
  intros inputs. eexists. split; [apply MergeResponse_series|].
  cbn [LokiSeriesResponse.Data]. fold inputs.
  split; [done|]. split; [apply dedup_first_NoDup|].
  split; [apply dedup_first_sublist|]. split.
  - intros s Hs. split; [apply dedup_first_head|].
    apply dedup_first_once. eauto.
  - intros s Hall. apply dedup_first_once. exists s. split; [|done].
    unfold inputs. rewrite fmap_cons. cbn [concat].
    apply elem_of_app. left. apply Hall. left.
Qed.

(** A loop of type assertions that returns has met one type only. *)
Lemma range_as {X S : Type} (as_X : Response -> outcome X)
    (inj : X -> Response) (f : S -> X -> S) l st st' :
  (forall res x, as_X res = Returns x -> res = inj x) ->
  range (λ acc res, x ← as_X res; mret (f acc x)) l st = Returns st' ->
  exists xs, l = inj <$> xs /\ st' = foldl f st xs.
Proof.
  intros Hinv. revert st. induction l as [|res l IH]; intros st; simpl.
  - intros [= <-]. by exists [].
  - destruct (as_X res) as [x|] eqn:Hx; [|discriminate].
    cbn [mbind outcome_bind mret outcome_ret]. intros Hr.
    destruct (IH _ Hr) as (xs & -> & ->). exists (x :: xs).
    by rewrite (Hinv _ _ Hx).
Qed.

Lemma mapM_statistics {X : Type} (inj : X -> Response)
    (st : X -> stats.Result) xs :
  (forall x, statistics_of (inj x) = Some (st x)) ->
  mapM statistics_of (inj <$> xs) = Some (st <$> xs).
Proof.
  intros Hst. induction xs as [|x xs IH]; [done|].
  rewrite !fmap_cons. cbn [mapM]. rewrite Hst, IH. done.
Qed.

Lemma foldl_fst_MergeSplit {X Y : Type} (st : X -> stats.Result)
    (g : Y -> X -> Y) xs s0 y0 :
  (foldl (λ acc x, (stats.MergeSplit acc.1 (st x), g acc.2 x)) (s0, y0) xs).1 =
  foldl stats.MergeSplit s0 (st <$> xs).
Proof.
  revert s0 y0. induction xs as [|x xs IH]; intros s0 y0; [done|].
  simpl. by rewrite IH.
Qed.

(** C8. Statistics additivity: when merging returns a response, its
    statistics record is the field-wise sum of the statistics records of
    all the inputs; a kind that carries no statistics record
    (index-stats, volume, series views) merges into one that carries
    none. *)
Theorem C8_statistics_additivity (responses : list Response) (merged : Response) :
  MergeResponse responses = Returns (Ok merged) ->
  statistics_of merged = stats.sum <$> mapM statistics_of responses.
Proof.
  destruct responses as [|first rest]; [discriminate|].
  unfold MergeResponse.
  destruct first as [r|r| |r|r|r|r|r|r| |].
  - (* LokiPromResponse.t *)
    destruct (range _ _ _) as [[mergedStats promResponses]|] eqn:Hr;
      [|discriminate].
    apply (range_as as_LokiPromResponse RLokiPromResponse
             (λ acc x, (stats.MergeSplit acc.1 (LokiPromResponse.Statistics x),
                        acc.2 ++ [LokiPromResponse.Response x]))) in Hr
      as (xs & -> & Hst); [|by intros [] ? [= <-]].
    cbn [mbind outcome_bind mret outcome_ret].
    destruct (PrometheusCodec_MergeResponse promResponses); [|discriminate].
    intros [= <-]. cbn [statistics_of LokiPromResponse.Statistics].
    rewrite (mapM_statistics RLokiPromResponse LokiPromResponse.Statistics) by done.
    cbn [fmap option_fmap option_map]. f_equal.
    apply (f_equal fst) in Hst. cbn [fst] in Hst. rewrite Hst.
    by rewrite (foldl_fst_MergeSplit LokiPromResponse.Statistics (λ y x, y ++ [LokiPromResponse.Response x])),
      foldl_MergeSplit_zero.
  - (* LokiResponse *)
    unfold mergeLokiResponse. cbn [as_LokiResponse mbind outcome_bind].
    destruct (range _ _ _) as [[mergedStats lokiResponses]|] eqn:Hr;
      [|discriminate].
    apply (range_as as_LokiResponse RLokiResponse
             (λ acc x, (stats.MergeSplit acc.1 (Statistics x),
                        acc.2 ++ [x]))) in Hr
      as (xs & -> & Hst); [|by intros [] ? [= <-]].
    cbn [mbind outcome_bind mret outcome_ret from_option].
    intros [= <-]. cbn [statistics_of Statistics].
    rewrite (mapM_statistics RLokiResponse Statistics) by done.
    cbn [fmap option_fmap option_map]. f_equal.
    apply (f_equal fst) in Hst. cbn [fst] in Hst. rewrite Hst.
    by rewrite (foldl_fst_MergeSplit Statistics (λ (y : list LokiResponse) x, y ++ [x])),
      foldl_MergeSplit_zero.
  - (* a nil LokiResponse pointer *)
    discriminate.
  - (* LokiSeriesResponse.t *)
    destruct (range _ _ _) as [[mergedStats [lokiSeriesData seen]]|] eqn:Hr;
      [|discriminate].
    apply (range_as as_LokiSeriesResponse RLokiSeriesResponse
             (λ acc x, (stats.MergeSplit acc.1 (LokiSeriesResponse.Statistics x),
                        foldl series_step acc.2 (LokiSeriesResponse.Data x)))) in Hr
      as (xs & -> & Hst); [|by intros [] ? [= <-]].
    cbn [mbind outcome_bind mret outcome_ret].
    intros [= <-]. cbn [statistics_of LokiSeriesResponse.Statistics].
    rewrite (mapM_statistics RLokiSeriesResponse LokiSeriesResponse.Statistics) by done.
    cbn [fmap option_fmap option_map]. f_equal.
    apply (f_equal fst) in Hst. cbn [fst] in Hst. rewrite Hst.
    by rewrite (foldl_fst_MergeSplit LokiSeriesResponse.Statistics (λ y x, foldl series_step y (LokiSeriesResponse.Data x))),
      foldl_MergeSplit_zero.
  - (* LokiSeriesResponseView *)
    destruct (range _ _ _); [|discriminate]. by intros [= <-].
  - (* MergedSeriesResponseView *)
    destruct (range _ _ _); [|discriminate]. by intros [= <-].
  - (* LokiLabelNamesResponse.t *)
    destruct (range _ _ _) as [[mergedStats [names seen]]|] eqn:Hr;
      [|discriminate].
    apply (range_as as_LokiLabelNamesResponse RLokiLabelNamesResponse
             (λ acc x, (stats.MergeSplit acc.1 (LokiLabelNamesResponse.Statistics x),
                        foldl names_step acc.2 (LokiLabelNamesResponse.Data x)))) in Hr
      as (xs & -> & Hst); [|by intros [] ? [= <-]].
    cbn [mbind outcome_bind mret outcome_ret].
    intros [= <-]. cbn [statistics_of LokiLabelNamesResponse.Statistics].
    rewrite (mapM_statistics RLokiLabelNamesResponse LokiLabelNamesResponse.Statistics) by done.
    cbn [fmap option_fmap option_map]. f_equal.
    apply (f_equal fst) in Hst. cbn [fst] in Hst. rewrite Hst.
    by rewrite (foldl_fst_MergeSplit LokiLabelNamesResponse.Statistics (λ y x, foldl names_step y (LokiLabelNamesResponse.Data x))),
      foldl_MergeSplit_zero.
  - (* IndexStatsResponse.t *)
    cbn zeta. destruct (range _ _ _); [|discriminate]. by intros [= <-].
  - (* VolumeResponse.t *)
    cbn zeta. destruct (range _ _ _); [|discriminate].
    cbn [mbind outcome_bind]. destruct (VolumeResponse.Response r); [|discriminate].
    by intros [= <-].
  - discriminate.
  - discriminate.
Qed.

(** *** Merging one response *)

Lemma filter_none {A} (P : A -> Prop) `{forall x, Decision (P x)} (l : list A) :
  Forall (λ x, ~ P x) l -> filter P l = [].
Proof.
  induction 1 as [|x l Hx Hl IH]; [done|].
  by rewrite filter_cons, decide_False, IH.
Qed.

Lemma with_label_unique ss s :
  NoDup (Labels <$> ss) -> s ∈ ss -> with_label (Labels s) ss = [s].
Proof.
  unfold with_label. induction ss as [|x ss IH]; intros Hnd Hin.
  - destruct (not_elem_of_nil _ Hin).
  - rewrite fmap_cons in Hnd. apply NoDup_cons in Hnd as [Hx Hnd].
    rewrite filter_cons. apply elem_of_cons in Hin as [->|Hin].
    + rewrite decide_True by done. f_equal.
      apply filter_none, Forall_forall. intros y Hy Heq. apply Hx.
      rewrite <- Heq. by apply list_elem_of_fmap_2.
    + rewrite decide_False; [by apply IH|].
      intros Heq. apply Hx. rewrite Heq. by apply list_elem_of_fmap_2.
Qed.

Lemma merge_single_marker d key es : merge (mkByDir [es] d key) = es.
Proof. unfold merge. simpl. apply app_nil_r. Qed.

(** Streams of distinct label-sets that are in key order and within the
    limit are merged into themselves. *)
Lemma merge_single_response r limit d :
  keys_ordered d (Labels <$> Result (Data r)) ->
  (entries_total (Result (Data r)) <= N.to_nat limit)%nat ->
  mergeOrderedNonOverlappingStreams [r] limit d = Result (Data r).
Proof.
  intros Hord Hle. set (ss := Result (Data r)) in *.
  pose proof (keys_ordered_NoDup _ _ Hord) as Hnd.
  unfold mergeOrderedNonOverlappingStreams. cbn [group_resps]. fold ss.
  destruct (group_streams_spec d ss ∅ 0%nat [] (groups_of_empty d))
    as (groups & -> & Hg).
  cbn [snd] in *. rewrite app_nil_l in Hg.
  assert ((if (N.to_nat limit <=? 0 + entries_total ss)%nat
           then (groups, (0 + entries_total ss)%nat)
           else (groups, (0 + entries_total ss)%nat))
          = (groups, entries_total ss)) as -> by (by case_match).
  rewrite (proj2 (Nat.leb_le _ _)) by done.
  assert (sort_keys d (map_to_list groups).*1 = Labels <$> ss) as ->.
  { apply (keys_ordered_unique d); [| done |].
    - apply sort_keys_ordered, NoDup_fst_map_to_list.
    - apply NoDup_Permutation; [apply keys_NoDup|done|].
      intros key. rewrite keys_elem_of, Hg, grouped_is_Some, list_elem_of_fmap.
      split; intros (s & ? & ?); eauto. }
  rewrite <- list_fmap_compose.
  rewrite <- (list_fmap_id ss) at 2. apply list_fmap_ext.
  intros i s Hs. apply list_elem_of_lookup_2 in Hs. simpl.
  unfold group_entries. rewrite Hg. unfold grouped.
  rewrite with_label_unique by done. simpl.
  rewrite merge_single_marker. by destruct s.
Qed.

(** C4, as the code has it. Merging the one-element list [res] returns
    [res] itself when [res] is a LogResponse with status "success", no
    headers, result type "streams", streams of distinct label-sets in
    key order for its direction and no more entries than its limit; or a
    SeriesResponse without headers whose series have distinct hashes; or
    a LabelNamesResponse without headers and without repeated names; or
    a merged series view without headers. *)
Theorem C4_merge_single (res : Response) :
  merge_fixed_point res -> MergeResponse [res] = Returns (Ok res).
Proof.
  destruct res as [r|r| |r|r|r|r|r|r| |]; cbn [merge_fixed_point]; try done.
  - (* LokiResponse *)
    intros (Hst & Hh & Hrt & Hord & Hcount).
    unfold MergeResponse.
    change [RLokiResponse r] with (RLokiResponse <$> [r]).
    rewrite mergeLokiResponse_eq.
    cbn [mbind outcome_bind mret outcome_ret from_option].
    rewrite merge_single_response; [|done|rewrite Count_entries_total in Hcount; lia].
    do 3 f_equal. destruct r as [? [? ?] ? ? ? ? ? ? ?]. simpl in *. subst.
    by rewrite stats_add_zero_l.
  - (* LokiSeriesResponse.t *)
    intros [Hh Hnd].
    change [RLokiSeriesResponse r] with (RLokiSeriesResponse <$> [r]).
    rewrite MergeResponse_series. do 3 f_equal.
    destruct r. simpl in *. subst. rewrite app_nil_r.
    rewrite dedup_first_id by done. by rewrite stats_add_zero_r.
  - (* MergedSeriesResponseView *)
    intros Hh. destruct r. simpl in *. by subst.
  - (* LokiLabelNamesResponse.t *)
    intros [Hh Hnd].
    change [RLokiLabelNamesResponse r] with (RLokiLabelNamesResponse <$> [r]).
    rewrite MergeResponse_names. do 3 f_equal.
    destruct r. simpl in *. subst. rewrite app_nil_r.
    rewrite dedup_first_id by (by rewrite list_fmap_id).
    by rewrite stats_add_zero_r.
Qed.

End MergeResponse_properties.

(** * Properties of the request codec *)

(** ** Timestamps on the wire *)

Lemma int64_id z : - 2 ^ 63 <= z < 2 ^ 63 -> time.int64 z = z.
Proof.
  intros Hz. unfold time.int64.
  rewrite Z.mod_small by lia. lia.
Qed.

(** Within the int64 range, the nanosecond count determines the instant. *)
Lemma UnixNano_inj t1 t2 :
  time.nano_representable t1 -> time.nano_representable t2 ->
  time.UnixNano t1 = time.UnixNano t2 -> t1 = t2.
Proof.
  intros [Hw1 Hr1] [Hw2 Hr2]. unfold time.UnixNano.
  rewrite !int64_id by done. unfold time.wf in *.
  destruct t1 as [s1 n1], t2 as [s2 n2]. simpl in *. intros Heq.
  assert (s1 = s2) by nia. subst. f_equal. lia.
Qed.

Lemma pretty_UnixNano_inj t1 t2 :
  time.nano_representable t1 -> time.nano_representable t2 ->
  [pretty (time.UnixNano t1)] = [pretty (time.UnixNano t2)] -> t1 = t2.
Proof.
  intros H1 H2 [= Heq]. apply UnixNano_inj; [done..|].
  by apply (inj pretty).
Qed.

(** ** What a transport request carries *)

Section Codec_properties.

Context {QueryLimits : Type} {env : CodecEnv QueryLimits}.

Lemma wire_range path header (a b q d l : string) sh step itv :
  wire (GET path
          (with_seconds "interval" itv
             (with_seconds "step" step
                (with_shards sh
                   {[ "start" := [a]; "end" := [b]; "query" := [q];
                      "direction" := [d]; "limit" := [l] ]})))
          header) =
  mkWire (Some [a]) (Some [b]) (Some [q]) (Some [d]) (Some [l])
    (nonempty sh) None.
Proof.
  unfold with_seconds, with_shards.
  destruct sh; destruct (decide (step = 0)); destruct (decide (itv = 0));
    vm_compute; reflexivity.
Qed.

Lemma wire_instant path header (q d l t : string) sh :
  wire (GET path
          (with_shards sh
             {[ "query" := [q]; "direction" := [d]; "limit" := [l];
                "time" := [t] ]})
          header) =
  mkWire None None (Some [q]) (Some [d]) (Some [l]) (nonempty sh)
    (Some [t]).
Proof. unfold with_shards. destruct sh; vm_compute; reflexivity. Qed.

Lemma wire_series path header (a b : string) mt sh :
  wire (GET path
          (with_shards sh {[ "start" := [a]; "end" := [b]; "match[]" := mt ]})
          header) =
  mkWire (Some [a]) (Some [b]) None None None (nonempty sh) None.
Proof. unfold with_shards. destruct sh, mt; vm_compute; reflexivity. Qed.

Lemma wire_label path header (a b q : string) :
  wire (GET path {[ "start" := [a]; "end" := [b]; "query" := [q] ]} header) =
  mkWire (Some [a]) (Some [b]) (Some [q]) None None None None.
Proof. vm_compute. reflexivity. Qed.

Lemma wire_volume path header (a b q l g : string) tl step :
  wire (GET path
          (match step with
           | Some s => <["step" := [s]]>
           | None => id
           end
             (match tl with
              | [] => id
              | targetLabels =>
                  <["targetLabels" := [String.concat "," targetLabels]]>
              end
                ({[ "start" := [a]; "end" := [b]; "query" := [q];
                    "limit" := [l]; "aggregateBy" := [g] ]} : Values)))
          header) =
  mkWire (Some [a]) (Some [b]) (Some [q]) None (Some [l]) None None.
Proof.
  destruct step, tl; unfold id.
  - vm_compute. reflexivity.
  - generalize (String.concat "," (s0 :: tl)). intros c. vm_compute. reflexivity.
  - vm_compute. reflexivity.
  - generalize (String.concat "," (s :: tl)). intros c. vm_compute. reflexivity.
Qed.

Lemma EncodeRequest_wire ctx r h :
  EncodeRequest ctx r = Returns (Ok h) -> wire_of r = Some (wire h).
Proof.
  unfold EncodeRequest.
  destruct (encode_header ctx) as [header|]; [|discriminate].
  destruct r as [r|r|r|r|r|r|]; cbn [wire_of].
  - intros [= <-]. by rewrite wire_range.
  - intros [= <-]. by rewrite wire_instant.
  - intros [= <-]. by rewrite wire_series.
  - destruct (LabelRequest.Start r), (LabelRequest.End_ r); try discriminate.
    intros [= <-]. by rewrite wire_label.
  - intros [= <-]. by rewrite wire_label.
  - case_decide; intros [= <-]; f_equal; symmetry;
      destruct (VolumeRequest.TargetLabels r) as [|t tl].
    + apply (wire_volume _ header _ _ _ _ _ [] None).
    + apply (wire_volume _ header _ _ _ _ _ (t :: tl) None).
    + apply (wire_volume _ header _ _ _ _ _ [] (Some _)).
    + apply (wire_volume _ header _ _ _ _ _ (t :: tl) (Some _)).
  - discriminate.
Qed.

Lemma Direction_String_inj d1 d2 :
  Direction_String d1 = Direction_String d2 -> d1 = d2.
Proof. by destruct d1, d2. Qed.

Lemma nonempty_inj l1 l2 : nonempty l1 = nonempty l2 -> l1 = l2.
Proof. destruct l1, l2; simpl; congruence. Qed.

Lemma pretty_N_limit_inj (a b : N) : pretty a = pretty b -> Z.of_N a = Z.of_N b.
Proof. intros Heq. f_equal. by apply (inj pretty). Qed.

Lemma pretty_Z_limit_inj (a b : Z) : pretty a = pretty b -> a = b.
Proof. apply (inj pretty). Qed.

Lemma pretty_UnixNano_Some_inj t1 t2 :
  time.nano_representable t1 -> time.nano_representable t2 ->
  pretty (time.UnixNano t1) = pretty (time.UnixNano t2) -> Some t1 = Some t2.
Proof. intros H1 H2 Heq. f_equal. apply pretty_UnixNano_inj; congruence. Qed.

Lemma mkFields_eq q q' s s' e e' l l' d d' sh sh' :
  q = q' -> s = s' -> e = e' -> l = l' -> d = d' -> sh = sh' ->
  Some (mkFields q s e l d sh) = Some (mkFields q' s' e' l' d' sh').
Proof. congruence. Qed.

(** One field of two requests that look the same on the wire. *)
Ltac same_field :=
  lazymatch goal with
  | |- Some _ = Some _ => apply pretty_UnixNano_Some_inj; assumption
  | |- Z.of_N _ = Z.of_N _ => apply pretty_N_limit_inj; assumption
  | |- @eq Z _ _ => first [reflexivity | apply pretty_Z_limit_inj; assumption]
  | |- @eq logproto.Direction _ _ =>
      first [reflexivity | apply Direction_String_inj; assumption]
  | |- @eq (list string) _ _ =>
      first [reflexivity | apply nonempty_inj; assumption]
  | |- @eq string _ _ => first [reflexivity | assumption]
  end.

(** Requests that look the same on the wire ask the same. *)
Lemma wire_of_fields r1 r2 :
  is_Some (wire_of r1) -> wire_of r1 = wire_of r2 ->
  bounds_representable r1 -> bounds_representable r2 ->
  fields_of r1 = fields_of r2.
Proof.
  unfold bounds_representable.
  destruct r1 as [r1|r1|r1|r1|r1|r1|], r2 as [r2|r2|r2|r2|r2|r2|];
    cbn [wire_of fields_of f_start f_end representable];
    intros [w Hsome] Hw Hb1 Hb2; try discriminate Hsome; try discriminate Hw;
    destruct Hb1; destruct Hb2;
    repeat match type of Hw with
           | context [LabelRequest.Start ?r] =>
               destruct (LabelRequest.Start r); cbn [representable] in *
           | context [LabelRequest.End_ ?r] =>
               destruct (LabelRequest.End_ r); cbn [representable] in *
           end;
    try discriminate Hsome; try discriminate Hw;
    injection Hw; intros;
    apply mkFields_eq; same_field.
Qed.

(** The transport request that encoding produces determines the query
    text, time bounds, limit, direction and shards of a request whose
    time bounds fit the int64 nanosecond timestamps of the wire: two such
    requests encoded to the same transport request agree on all of
    them. *)
Lemma EncodeRequest_keeps_fields (ctx : Context QueryLimits)
    (r1 r2 : Request) (h : HTTPRequest) :
  bounds_representable r1 -> bounds_representable r2 ->
  EncodeRequest ctx r1 = Returns (Ok h) ->
  EncodeRequest ctx r2 = Returns (Ok h) ->
  fields_of r1 = fields_of r2.
Proof.
  intros Hb1 Hb2 H1%EncodeRequest_wire H2%EncodeRequest_wire.
  apply wire_of_fields; [by rewrite H1|congruence|done|done].
Qed.

Lemma EncodeRequest_Form (ctx : Context QueryLimits) (r : Request)
    (h : HTTPRequest) :
  EncodeRequest ctx r = Returns (Ok h) -> exists form, Form h = Ok form.
Proof.
  unfold EncodeRequest.
  destruct (encode_header ctx) as [header|]; [|discriminate].
  destruct r as [r|r|r|r|r|r|]; try (intros [= <-]; by eexists).
  - destruct (LabelRequest.Start r), (LabelRequest.End_ r); try discriminate.
    intros [= <-]. by eexists.
  - case_decide; intros [= <-]; by eexists.
Qed.

(** A timestamp read from the parameter the encoder wrote for [t] is
    [t]. *)
Lemma reads_time_inj (v : option (list string)) (t t' : time.Time) :
  time.nano_representable t ->
  Some [pretty (time.UnixNano t)] = v -> reads_time v t' -> t' = t.
Proof.
  intros Ht <- [Ht' Hv]. symmetry. apply pretty_UnixNano_inj; congruence.
Qed.

Lemma pretty_N_Z (n : N) (z : Z) : pretty n = pretty z -> Z.of_N n = z.
Proof.
  intros Heq. apply (inj pretty). rewrite <- Heq. by destruct n.
Qed.

(** C2, as the code has it. For a request whose time bounds fit the
    int64 nanosecond timestamps of the wire, decoding the transport
    request that encoding produces returns a request with the same query
    text, time bounds, limit, direction and shards, where the
    collaborators outside the codec do their part: the route table sends
    the path of the transport request to the route of the variant, the
    query-string parser of that route reads the parameters as they are
    written, and rounding to milliseconds leaves bounds that are whole
    milliseconds. The limit of a volume request is an int32, as its type
    in the source says. *)
Theorem C2_round_trip (ctx : Context QueryLimits) (r : Request)
    (h : HTTPRequest) :
  bounds_representable r -> well_typed r ->
  EncodeRequest ctx r = Returns (Ok h) ->
  getOperation (URL_Path h) = route_of r ->
  parser_reads h -> rounds_back r ->
  exists r', DecodeRequest h = Ok r' /\ fields_of r' = fields_of r.
Proof.
  intros Hb Ht Henc Hroute Hparse Hround.
  destruct (EncodeRequest_Form _ _ _ Henc) as [form Hform].
  apply EncodeRequest_wire in Henc as Hw.
  unfold parser_reads in Hparse. rewrite Hroute in Hparse.
  unfold DecodeRequest, decode_route. rewrite Hform, Hroute.
  unfold bounds_representable in Hb.
  destruct r as [r|r|r|r|r|r|]; cbn [route_of wire_of fields_of] in *.
  - (* range *)
    destruct Hparse as (q & -> & Hs & He & Hq & Hd & Hl & Hsh).
    destruct Hb as [Hbs Hbe]. cbn [f_start f_end representable] in *.
    injection Hw as Hws Hwe Hwq Hwd Hwl Hwsh Hwt.
    eexists. split; [reflexivity|]. cbn [fields_of]. unfold time.UTC.
    cbn [LokiRequest.Query LokiRequest.StartTs LokiRequest.EndTs
         LokiRequest.Limit LokiRequest.Direction LokiRequest.Shards].
    rewrite (reads_time_inj _ _ _ Hbs Hws Hs), (reads_time_inj _ _ _ Hbe Hwe He).
    apply mkFields_eq; try reflexivity.
    + congruence.
    + apply pretty_N_limit_inj. congruence.
    + apply Direction_String_inj. congruence.
    + apply nonempty_inj. congruence.
  - (* instant *)
    destruct Hparse as (q & -> & Hs & Hq & Hd & Hl & Hsh).
    destruct Hb as [Hbs _]. cbn [f_start f_end representable] in *.
    injection Hw as Hws Hwe Hwq Hwd Hwl Hwsh Hwt.
    eexists. split; [reflexivity|]. cbn [fields_of]. unfold time.UTC.
    cbn [LokiInstantRequest.Query LokiInstantRequest.TimeTs
         LokiInstantRequest.Limit LokiInstantRequest.Direction
         LokiInstantRequest.Shards].
    rewrite (reads_time_inj _ _ _ Hbs Hwt Hs).
    apply mkFields_eq; try reflexivity.
    + congruence.
    + apply pretty_N_limit_inj. congruence.
    + apply Direction_String_inj. congruence.
    + apply nonempty_inj. congruence.
  - (* series *)
    destruct Hparse as (q & -> & Hs & He & Hsh).
    destruct Hb as [Hbs Hbe]. cbn [f_start f_end representable] in *.
    injection Hw as Hws Hwe Hwq Hwd Hwl Hwsh Hwt.
    eexists. split; [reflexivity|]. cbn [fields_of]. unfold time.UTC.
    cbn [LokiSeriesRequest.StartTs LokiSeriesRequest.EndTs
         LokiSeriesRequest.Shards].
    rewrite (reads_time_inj _ _ _ Hbs Hws Hs), (reads_time_inj _ _ _ Hbe Hwe He).
    apply mkFields_eq; try reflexivity.
    apply nonempty_inj. congruence.
  - (* label *)
    destruct Hparse as (q & start & end_ & -> & Hqs & Hqe & Hs & He & Hq).
    destruct (LabelRequest.Start r) as [s|]; [|discriminate Hw].
    destruct (LabelRequest.End_ r) as [e|]; [|discriminate Hw].
    destruct Hb as [Hbs Hbe]. cbn [f_start f_end representable] in *.
    injection Hw as Hws Hwe Hwq Hwd Hwl Hwsh Hwt.
    cbn [andb]. eexists. split; [reflexivity|]. cbn [fields_of].
    cbn [LabelRequest.Query LabelRequest.Start LabelRequest.End_].
    rewrite Hqs, Hqe.
    rewrite (reads_time_inj _ _ _ Hbs Hws Hs), (reads_time_inj _ _ _ Hbe Hwe He).
    apply mkFields_eq; try reflexivity. congruence.
  - (* index stats *)
    destruct Hparse as (q & -> & Hs & He & Hq).
    destruct Hb as [Hbs Hbe]. cbn [f_start f_end representable] in *.
    injection Hw as Hws Hwe Hwq Hwd Hwl Hwsh Hwt.
    rewrite (reads_time_inj _ _ _ Hbs Hws Hs), (reads_time_inj _ _ _ Hbe Hwe He).
    cbn [rounds_back] in Hround. rewrite Hround.
    eexists. split; [reflexivity|]. cbn [fields_of].
    cbn [IndexStatsRequest.From IndexStatsRequest.Through
         IndexStatsRequest.Matchers].
    apply mkFields_eq; try reflexivity. congruence.
  - (* volume *)
    destruct Hb as [Hbs Hbe]. cbn [f_start f_end representable] in *.
    injection Hw as Hws Hwe Hwq Hwd Hwl Hwsh Hwt.
    cbn [rounds_back] in Hround. cbn [well_typed] in Ht.
    destruct (decide (VolumeRequest.Step r = 0));
      destruct Hparse as (q & -> & Hs & He & Hq & Hl);
      rewrite (reads_time_inj _ _ _ Hbs Hws Hs),
        (reads_time_inj _ _ _ Hbe Hwe He), Hround;
      (eexists; split; [reflexivity|]); cbn [fields_of];
      cbn [VolumeRequest.From VolumeRequest.Through VolumeRequest.Matchers
           VolumeRequest.Limit];
      (apply mkFields_eq; try reflexivity; [congruence|]);
      rewrite (pretty_N_Z (loghttp.VLimit q) (VolumeRequest.Limit r))
        by congruence; exact Ht.
  - discriminate Hw.
Qed.

(** C5, as the code has it. For an inbound request whose path matches no
    route of the route table, both the plain HTTP decode and the
    RPC-wrapped HTTP decode fail with an error and return no request; the
    error of the plain HTTP decode is NotFound whenever the query string
    of the request parses. *)
Theorem C5_unknown_path_not_found (r : HTTPRequest)
    (ctx : Context QueryLimits) (g : httpgrpc_HTTPRequest) :
  getOperation (URL_Path r) = None ->
  (forall httpReq,
     http_NewRequest (grpc_Method g) (grpc_Url g) (grpc_Body g) = Ok httpReq ->
     getOperation (URL_Path httpReq) = None) ->
  (exists err,
     DecodeRequest r = Err err /\
     (forall form, Form r = Ok form ->
        err = httpgrpc_Errorf StatusNotFound
                ("unknown request path: " +:+ URL_Path r))) /\
  (exists err, (DecodeHTTPGrpcRequest ctx g).1 = Err err).
Proof.
  intros Hop Hgrpc. split.
  - unfold DecodeRequest, decode_route. rewrite Hop.
    destruct (Form r) as [form|err]; eexists; (split; [reflexivity|]).
    + by intros form' _.
    + intros form' [=].
  - unfold DecodeHTTPGrpcRequest.
    destruct (http_NewRequest _ _ _) as [httpReq|err] eqn:Hnew; [|by eexists].
    specialize (Hgrpc _ eq_refl).
    destruct (ctx_orgID ctx); [|case_decide; [by eexists|]];
      cbn [Form]; destruct (Form httpReq); try (by eexists);
      unfold decode_route; cbn [URL_Path fst]; rewrite Hgrpc; by eexists.
Qed.

(** A query string that does not parse is reported first, as a bad
    request, whatever the path. *)
Lemma DecodeRequest_bad_form (r : HTTPRequest) (err : error) :
  Form r = Err err ->
  DecodeRequest r = Err (httpgrpc_Errorf StatusBadRequest (error_message err)).
Proof. intros Hform. unfold DecodeRequest. by rewrite Hform. Qed.

(** The RPC-wrapped decode answers an unknown path with the status of a
    bad request. *)
Lemma DecodeHTTPGrpcRequest_unknown_path (ctx : Context QueryLimits)
    (g : httpgrpc_HTTPRequest) (httpReq : HTTPRequest) (form : Values)
    (orgID : string) :
  http_NewRequest (grpc_Method g) (grpc_Url g) (grpc_Body g) = Ok httpReq ->
  ctx_orgID ctx = Some orgID ->
  Form httpReq = Ok form ->
  getOperation (URL_Path httpReq) = None ->
  (DecodeHTTPGrpcRequest ctx g).1 =
    Err (httpgrpc_Errorf StatusBadRequest
           ("unknown request path: " +:+ grpc_Url g)).
Proof.
  intros Hnew Horg Hform Hop. unfold DecodeHTTPGrpcRequest.
  rewrite Hnew, Horg. cbn [Form]. rewrite Hform.
  unfold decode_route. cbn [URL_Path fst]. by rewrite Hop.
Qed.

End Codec_properties.

(** * Further properties of the merger *)

(** ** First occurrences, once more *)

Section dedup_more.
Context {A K : Type} `{Countable K} (h : A -> K).

Lemma dedup_first_keys k l : k ∈ h <$> dedup_first h l <-> k ∈ h <$> l.
Proof.
  split.
  - intros Hk. eapply elem_of_sublist; [exact Hk|].
    apply fmap_sublist, dedup_first_sublist.
  - induction l as [|x l IH]; [done|]. rewrite fmap_cons. simpl.
    intros [->|Hin]%elem_of_cons; [left|].
    destruct (decide (k = h x)) as [->|Hne]; [left|]. right.
    apply IH in Hin. apply list_elem_of_fmap in Hin as (y & -> & Hy).
    apply list_elem_of_fmap_2, list_elem_of_filter. done.
Qed.

Lemma dedup_first_app l k :
  dedup_first h (l ++ k) =
  dedup_first h l ++ filter (λ y, h y ∉ h <$> l) (dedup_first h k).
Proof.
  induction l as [|x l IH]; simpl.
  - symmetry. apply filter_all, Forall_forall. intros y _. apply not_elem_of_nil.
  - f_equal. rewrite IH, filter_app. f_equal. rewrite list_filter_filter.
    apply list_filter_iff. intros y. rewrite not_elem_of_cons. tauto.
Qed.

Lemma dedup_first_idemp l : dedup_first h (dedup_first h l) = dedup_first h l.
Proof. apply dedup_first_id, dedup_first_NoDup. Qed.

(** Keeping first occurrences of two parts and then of the two results is
    keeping first occurrences of the whole. *)
Lemma dedup_first_two_level l k :
  dedup_first h (dedup_first h l ++ dedup_first h k) = dedup_first h (l ++ k).
Proof.
  rewrite !dedup_first_app, !dedup_first_idemp. f_equal.
  apply list_filter_iff. intros y. by rewrite dedup_first_keys.
Qed.

End dedup_more.

(** ** Inputs of one type *)

Lemma range_panics {X S : Type} (body : S -> X -> outcome S) l st :
  Exists (λ x, forall s, body s x = Panics) l -> range body l st = Panics.
Proof.
  intros Hex. revert st. induction Hex as [x l Hx|x l _ IH]; intros st; simpl.
  - by rewrite Hx.
  - destruct (body st x); [apply IH|done].
Qed.

Section MergeResponse_more.

Context {env : MergeEnv}.

(** X1. Label names: merging the LabelNamesResponses [r :: rs] returns a
    LabelNamesResponse whose names are those of the inputs, each once, in
    the order of their first occurrence; status and version are those of
    the first input and the headers are dropped. *)
Theorem X1_label_names_dedup (r : LokiLabelNamesResponse.t)
    (rs : list LokiLabelNamesResponse.t) :
  let inputs := concat (LokiLabelNamesResponse.Data <$> r :: rs) in
  exists merged,
    MergeResponse (RLokiLabelNamesResponse <$> r :: rs) =
      Returns (Ok (RLokiLabelNamesResponse merged)) /\
    LokiLabelNamesResponse.Data merged = dedup_first id inputs /\
    NoDup (LokiLabelNamesResponse.Data merged) /\
    sublist (LokiLabelNamesResponse.Data merged) inputs /\
    (forall name, name ∈ LokiLabelNamesResponse.Data merged <-> name ∈ inputs) /\
    (forall name, name ∈ inputs ->
       head (filter (λ x, x = name) (LokiLabelNamesResponse.Data merged)) = Some name) /\
    LokiLabelNamesResponse.Status merged = LokiLabelNamesResponse.Status r /\
    LokiLabelNamesResponse.Version merged = LokiLabelNamesResponse.Version r /\
    LokiLabelNamesResponse.Headers merged = [].
Proof.
  intros inputs. eexists. split; [apply MergeResponse_names|].
  cbn [LokiLabelNamesResponse.Data LokiLabelNamesResponse.Status
       LokiLabelNamesResponse.Version LokiLabelNamesResponse.Headers].
  fold inputs. split; [done|]. split.
  { rewrite <- (list_fmap_id (dedup_first id inputs)). apply (dedup_first_NoDup id). }
  split; [apply dedup_first_sublist|]. split.
  { intros name. pose proof (dedup_first_keys id name inputs) as Hk.
    by rewrite !list_fmap_id in Hk. }
  split; [|done].
  intros name Hin. pose proof (dedup_first_head id name inputs) as Hh.
  change (head (filter (λ y, y = name) (dedup_first id inputs)) =
          head (filter (λ y, y = name) inputs)) in Hh.
  rewrite Hh.
  apply list_elem_of_In, in_split in Hin as (l1 & l2 & ->).
  clear. induction l1 as [|y l1 IH]; simpl.
  - by rewrite filter_cons, decide_True.
  - rewrite filter_cons. case_decide; [by subst|done].
Qed.

(** The loops of the other cases, over inputs of the one type. *)
Lemma range_collect_views vs acc :
  range collect_views (RLokiSeriesResponseView <$> vs) acc = Returns (acc ++ vs).
Proof.
  revert acc. induction vs as [|v vs IH]; intros acc; simpl.
  - by rewrite app_nil_r.
  - unfold mbind, outcome_bind in *. simpl. rewrite IH. by rewrite <- app_assoc.
Qed.

Lemma range_collect_merged_views vs acc :
  range collect_merged_views (RMergedSeriesResponseView <$> vs) acc =
  Returns (acc ++ concat (responses <$> vs)).
Proof.
  revert acc. induction vs as [|v vs IH]; intros acc; simpl.
  - by rewrite app_nil_r.
  - unfold mbind, outcome_bind in *. simpl. rewrite IH. by rewrite <- app_assoc.
Qed.

Lemma range_collect_index_stats rs acc :
  range collect_index_stats (RIndexStatsResponse <$> rs) acc =
  Returns (acc ++ (IndexStatsResponse.Response <$> rs)).
Proof.
  revert acc. induction rs as [|r rs IH]; intros acc; simpl.
  - by rewrite app_nil_r.
  - unfold mbind, outcome_bind in *. simpl. rewrite IH. by rewrite <- app_assoc.
Qed.

Lemma range_collect_volumes rs acc :
  range collect_volumes (RVolumeResponse <$> rs) acc =
  Returns (acc ++ (VolumeResponse.Response <$> rs)).
Proof.
  revert acc. induction rs as [|r rs IH]; intros acc; simpl.
  - by rewrite app_nil_r.
  - unfold mbind, outcome_bind in *. simpl. rewrite IH. by rewrite <- app_assoc.
Qed.

Lemma MergeResponse_index_stats r rs :
  MergeResponse (RIndexStatsResponse <$> r :: rs) =
  Returns (Ok (RIndexStatsResponse {|
    IndexStatsResponse.Response :=
      Some (indexStats_MergeStats (IndexStatsResponse.Response <$> r :: rs));
    IndexStatsResponse.Headers := IndexStatsResponse.Headers r |})).
Proof.
  unfold MergeResponse. rewrite fmap_cons at 1. cbn zeta.
  by rewrite range_collect_index_stats.
Qed.

Lemma MergeResponse_volume r rs :
  MergeResponse (RVolumeResponse <$> r :: rs) =
  match VolumeResponse.Response r with
  | Some v =>
      Returns (Ok (RVolumeResponse {|
        VolumeResponse.Response :=
          seriesvolume_Merge (VolumeResponse.Response <$> r :: rs) (VolumeLimit v);
        VolumeResponse.Headers := VolumeResponse.Headers r |}))
  | None => Panics
  end.
Proof.
  unfold MergeResponse. rewrite fmap_cons at 1. cbn zeta.
  rewrite range_collect_volumes. cbn [mbind outcome_bind app].
  by destruct (VolumeResponse.Response r).
Qed.

(** X2. Index statistics and volumes: merging passes the payload of every
    input, a nil one included, to the merge of its package in input order
    and keeps the headers of the first input; a volume merge takes its
    limit from the first input and panics when the payload of that input
    is nil. *)
Theorem X2_stats_and_volume_envelope :
  (forall (r : IndexStatsResponse.t) (rs : list IndexStatsResponse.t),
     MergeResponse (RIndexStatsResponse <$> r :: rs) =
       Returns (Ok (RIndexStatsResponse {|
         IndexStatsResponse.Response :=
           Some (indexStats_MergeStats (IndexStatsResponse.Response <$> r :: rs));
         IndexStatsResponse.Headers := IndexStatsResponse.Headers r |}))) /\
  (forall (r : VolumeResponse.t) (rs : list VolumeResponse.t),
     MergeResponse (RVolumeResponse <$> r :: rs) =
       match VolumeResponse.Response r with
       | Some v =>
           Returns (Ok (RVolumeResponse {|
             VolumeResponse.Response :=
               seriesvolume_Merge (VolumeResponse.Response <$> r :: rs) (VolumeLimit v);
             VolumeResponse.Headers := VolumeResponse.Headers r |}))
       | None => Panics
       end).
Proof.
  split; [apply MergeResponse_index_stats|apply MergeResponse_volume].
Qed.

(** X3. Inputs of mixed types: when the first response is of a type the
    merger has a case for and some later response is of another type, the
    merge panics on the type assertion; it returns no error value. *)
Theorem X3_mixed_types_panic (first : Response) (rest : list Response) :
  mergeable (type_of first) = true ->
  Exists (λ res, type_of res <> type_of first) rest ->
  MergeResponse (first :: rest) = Panics.
Proof.
  intros Hm Hex.
  assert (forall {X S : Type} (as_X : Response -> outcome X) (f : S -> X -> S) st,
            (forall res, type_of res <> type_of first -> as_X res = Panics) ->
            range (λ acc res, x ← as_X res; mret (f acc x)) (first :: rest) st = Panics)
    as Hrange.
  { intros X S as_X f st Has. apply range_panics. right.
    eapply Exists_impl; [exact Hex|]. intros res Hne s. simpl.
    by rewrite (Has res Hne). }
  unfold MergeResponse.
  destruct first as [r|r| |r|r|r|r|r|r| |]; try discriminate Hm.
  - unfold collect_prom.
    rewrite (Hrange _ _ as_LokiPromResponse
               (λ acc r, (stats.MergeSplit acc.1 (LokiPromResponse.Statistics r),
                          acc.2 ++ [LokiPromResponse.Response r]))); [done|].
    by intros [].
  - unfold mergeLokiResponse. cbn [as_LokiResponse mbind outcome_bind].
    unfold collect_loki.
    rewrite (Hrange _ _ as_LokiResponse
               (λ acc r, (stats.MergeSplit acc.1 (Statistics r), acc.2 ++ [r])));
      [done|].
    by intros [].
  - done.
  - unfold collect_series.
    rewrite (Hrange _ _ as_LokiSeriesResponse
               (λ acc r, (stats.MergeSplit acc.1 (LokiSeriesResponse.Statistics r),
                          foldl series_step acc.2 (LokiSeriesResponse.Data r))));
      [done|].
    by intros [].
  - unfold collect_views.
    rewrite (Hrange _ _ as_LokiSeriesResponseView (λ acc r, acc ++ [r])); [done|].
    by intros [].
  - unfold collect_merged_views.
    rewrite (Hrange _ _ as_MergedSeriesResponseView (λ acc r, acc ++ responses r));
      [done|].
    by intros [].
  - unfold collect_names.
    rewrite (Hrange _ _ as_LokiLabelNamesResponse
               (λ acc r, (stats.MergeSplit acc.1 (LokiLabelNamesResponse.Statistics r),
                          foldl names_step acc.2 (LokiLabelNamesResponse.Data r))));
      [done|].
    by intros [].
  - cbn zeta. unfold collect_index_stats.
    rewrite (Hrange _ _ as_IndexStatsResponse
               (λ acc r, acc ++ [IndexStatsResponse.Response r])); [done|].
    by intros [].
  - cbn zeta. unfold collect_volumes.
    rewrite (Hrange _ _ as_VolumeResponse
               (λ acc r, acc ++ [VolumeResponse.Response r])); [done|].
    by intros [].
Qed.

Lemma MergeResponse_views v vs :
  MergeResponse (RLokiSeriesResponseView <$> v :: vs) =
  Returns (Ok (RMergedSeriesResponseView (mkMergedView (v :: vs) []))).
Proof.
  unfold MergeResponse. rewrite fmap_cons at 1.
  by rewrite range_collect_views.
Qed.

(** X4. Series views: merging views gathers them in input order, and
    merging two merged views gives what merging all their views at once
    gives. *)
Theorem X4_views_flatten (x y : LokiSeriesResponseView)
    (a b : list LokiSeriesResponseView) :
  exists ma mb,
    MergeResponse (RLokiSeriesResponseView <$> x :: a) = Returns (Ok ma) /\
    MergeResponse (RLokiSeriesResponseView <$> y :: b) = Returns (Ok mb) /\
    ma = RMergedSeriesResponseView (mkMergedView (x :: a) []) /\
    MergeResponse [ma; mb] =
      MergeResponse (RLokiSeriesResponseView <$> (x :: a) ++ (y :: b)).
Proof.
  eexists _, _. split; [apply MergeResponse_views|].
  split; [apply MergeResponse_views|]. split; [done|].
  change ((x :: a) ++ y :: b) with (x :: (a ++ y :: b)).
  rewrite MergeResponse_views.
  unfold MergeResponse.
  change [RMergedSeriesResponseView (mkMergedView (x :: a) []);
          RMergedSeriesResponseView (mkMergedView (y :: b) [])]
    with (RMergedSeriesResponseView <$>
            [mkMergedView (x :: a) []; mkMergedView (y :: b) []]).
  rewrite range_collect_merged_views. simpl. by rewrite app_nil_r.
Qed.

(** X5. Merging in two levels: for SeriesResponses and for
    LabelNamesResponses, merging two merged responses gives the data,
    status, version and headers that merging all the inputs at once
    gives. *)
Theorem X5_two_level_merge :
  (forall (x y : LokiSeriesResponse.t) (a b : list LokiSeriesResponse.t),
     exists ma mb m2 m1,
       MergeResponse (RLokiSeriesResponse <$> x :: a) =
         Returns (Ok (RLokiSeriesResponse ma)) /\
       MergeResponse (RLokiSeriesResponse <$> y :: b) =
         Returns (Ok (RLokiSeriesResponse mb)) /\
       MergeResponse [RLokiSeriesResponse ma; RLokiSeriesResponse mb] =
         Returns (Ok (RLokiSeriesResponse m2)) /\
       MergeResponse (RLokiSeriesResponse <$> (x :: a) ++ (y :: b)) =
         Returns (Ok (RLokiSeriesResponse m1)) /\
       LokiSeriesResponse.Data m2 = LokiSeriesResponse.Data m1 /\
       LokiSeriesResponse.Status m2 = LokiSeriesResponse.Status m1 /\
       LokiSeriesResponse.Version m2 = LokiSeriesResponse.Version m1 /\
       LokiSeriesResponse.Headers m2 = LokiSeriesResponse.Headers m1) /\
  (forall (x y : LokiLabelNamesResponse.t) (a b : list LokiLabelNamesResponse.t),
     exists ma mb m2 m1,
       MergeResponse (RLokiLabelNamesResponse <$> x :: a) =
         Returns (Ok (RLokiLabelNamesResponse ma)) /\
       MergeResponse (RLokiLabelNamesResponse <$> y :: b) =
         Returns (Ok (RLokiLabelNamesResponse mb)) /\
       MergeResponse [RLokiLabelNamesResponse ma; RLokiLabelNamesResponse mb] =
         Returns (Ok (RLokiLabelNamesResponse m2)) /\
       MergeResponse (RLokiLabelNamesResponse <$> (x :: a) ++ (y :: b)) =
         Returns (Ok (RLokiLabelNamesResponse m1)) /\
       LokiLabelNamesResponse.Data m2 = LokiLabelNamesResponse.Data m1 /\
       LokiLabelNamesResponse.Status m2 = LokiLabelNamesResponse.Status m1 /\
       LokiLabelNamesResponse.Version m2 = LokiLabelNamesResponse.Version m1 /\
       LokiLabelNamesResponse.Headers m2 = LokiLabelNamesResponse.Headers m1).
Proof.
  split; intros x y a b; eexists _, _, _, _.
  - split; [apply MergeResponse_series|]. split; [apply MergeResponse_series|].
    split; [apply (MergeResponse_series _ [_])|].
    split; [apply (MergeResponse_series x (a ++ y :: b))|].
    cbn [LokiSeriesResponse.Data LokiSeriesResponse.Status
         LokiSeriesResponse.Version LokiSeriesResponse.Headers].
    split; [|done].
    set (A := concat (LokiSeriesResponse.Data <$> x :: a)).
    set (B := concat (LokiSeriesResponse.Data <$> y :: b)).
    change (dedup_first Hash (dedup_first Hash A ++ (dedup_first Hash B ++ [])) =
            dedup_first Hash
              (concat (LokiSeriesResponse.Data <$> (x :: a) ++ (y :: b)))).
    by rewrite app_nil_r, dedup_first_two_level, fmap_app, concat_app.
  - split; [apply MergeResponse_names|]. split; [apply MergeResponse_names|].
    split; [apply (MergeResponse_names _ [_])|].
    split; [apply (MergeResponse_names x (a ++ y :: b))|].
    cbn [LokiLabelNamesResponse.Data LokiLabelNamesResponse.Status
         LokiLabelNamesResponse.Version LokiLabelNamesResponse.Headers].
    split; [|done].
    set (A := concat (LokiLabelNamesResponse.Data <$> x :: a)).
    set (B := concat (LokiLabelNamesResponse.Data <$> y :: b)).
    change (dedup_first id (dedup_first id A ++ (dedup_first id B ++ [])) =
            dedup_first id
              (concat (LokiLabelNamesResponse.Data <$> (x :: a) ++ (y :: b)))).
    by rewrite app_nil_r, dedup_first_two_level, fmap_app, concat_app.
Qed.

End MergeResponse_more.

(** ** What the merged streams are made of *)

Lemma elem_of_concat {A} (x : A) (ls : list (list A)) :
  x ∈ concat ls <-> exists l, x ∈ l /\ l ∈ ls.
Proof.
  induction ls as [|l ls IH]; simpl.
  - split; [by intros ?%not_elem_of_nil|]. by intros (l & _ & ?%not_elem_of_nil).
  - rewrite elem_of_app, IH. split.
    + intros [Hx|(l' & Hx & Hl')]; [exists l; split; [done|left]|].
      exists l'. split; [done|by right].
    + intros (l' & Hx & [->|Hl']%elem_of_cons); eauto.
Qed.

Lemma elem_of_flat key ss e :
  e ∈ flat key ss <-> exists s, s ∈ ss /\ Labels s = key /\ e ∈ Entries s.
Proof.
  unfold flat, with_label. rewrite elem_of_concat. split.
  - intros (es & He & Hes). apply list_elem_of_fmap in Hes as (s & -> & Hs).
    apply list_elem_of_filter in Hs as [Hk Hs]. eauto.
  - intros (s & Hs & Hk & He). exists (Entries s). split; [done|].
    apply list_elem_of_fmap_2, list_elem_of_filter. done.
Qed.

(** Popping the queue moves an entry; it makes none. *)
Lemma heap_Pop_from (P : string -> Entry -> Prop) pq next pq' :
  Forall (λ s, Forall (P (Labels s)) (Entries s)) (streams pq) ->
  heap_Pop pq = Some (next, pq') ->
  Forall (P (Labels next)) (Entries next) /\
  Forall (λ s, Forall (P (Labels s)) (Entries s)) (streams pq').
Proof.
  unfold heap_Pop. intros Hq. destruct (streams pq) as [|s l]; [done|].
  destruct (pick (pq_direction pq) s l) as [m r] eqn:Hp.
  apply pick_Permutation in Hp. rewrite <- Hp in Hq.
  apply Forall_cons in Hq as [Hm Hr]. intros [= <- <-]. simpl.
  split; [by apply Forall_take|].
  destruct (drop 1 (Entries m)) as [|e es] eqn:Hd; [done|].
  apply Forall_app. split; [done|]. apply Forall_cons. split; [|constructor].
  simpl. rewrite <- Hd. by apply Forall_drop.
Qed.

Lemma pop_loop_from (P : string -> Entry -> Prop) n pq resultDict :
  Forall (λ s, Forall (P (Labels s)) (Entries s)) (streams pq) ->
  (forall key s, resultDict !! key = Some s -> Forall (P key) (Entries s)) ->
  forall key s, pop_loop n pq resultDict !! key = Some s ->
    Forall (P key) (Entries s).
Proof.
  revert pq resultDict. induction n as [|n IH]; intros pq rd Hq Hrd; simpl; [done|].
  destruct (heap_Pop pq) as [[next pq']|] eqn:Hpop; [|done].
  destruct (heap_Pop_from P _ _ _ Hq Hpop) as [Hnext Hq'].
  apply IH; [done|]. intros key s.
  destruct (decide (Labels next = key)) as [<-|Hne].
  - rewrite lookup_insert_eq. intros [= <-]. simpl. apply Forall_app. split; [|done].
    destruct (rd !! Labels next) as [s0|] eqn:H0; simpl; [|constructor].
    by eapply Hrd.
  - rewrite lookup_insert_ne by done. apply Hrd.
Qed.

(** X6. The merged streams are made of the inputs: each stream of the
    output carries a label-set that a stream of the inputs carries, and
    each of its entries is an entry of an input stream with that
    label-set. *)
Theorem X6_merged_entries_from_inputs (resps : list LokiResponse) (limit : N)
    (d : logproto.Direction) :
  Forall (λ s,
            (exists s', s' ∈ all_streams resps /\ Labels s' = Labels s) /\
            Forall (λ e, exists s', s' ∈ all_streams resps /\
                                     Labels s' = Labels s /\ e ∈ Entries s')
              (Entries s))
    (mergeOrderedNonOverlappingStreams resps limit d).
Proof.
  unfold mergeOrderedNonOverlappingStreams.
  destruct (group_resps_spec d limit resps ∅ 0%nat [] (groups_of_empty d))
    as (groups & seen & unread & -> & -> & Hg & _).
  simpl in Hg. rewrite all_streams_app.
  set (keys := sort_keys d (map_to_list groups).*1).
  set (P := λ key e, e ∈ flat key (all_streams seen)).
  assert (forall key, key ∈ keys ->
            exists s', s' ∈ all_streams seen ++ all_streams unread /\ Labels s' = key)
    as Hkeys.
  { intros key Hk. apply keys_elem_of in Hk. rewrite Hg in Hk.
    apply grouped_is_Some in Hk as (s' & Hs' & Hl). exists s'.
    split; [apply elem_of_app; by left|done]. }
  assert (forall key e, P key e ->
            exists s', s' ∈ all_streams seen ++ all_streams unread /\
                       Labels s' = key /\ e ∈ Entries s') as HP.
  { intros key e (s' & Hs' & Hl & He)%elem_of_flat. exists s'.
    split; [apply elem_of_app; by left|done]. }
  assert (forall key, Forall (P key) (group_entries groups key)) as Hentries.
  { intros key. apply Forall_forall. intros e He. unfold P.
    by rewrite <- (group_entries_Permutation d groups _ key Hg). }
  destruct (_ <=? _)%nat.
  - apply Forall_fmap, Forall_forall. intros key Hk. simpl.
    split; [by apply Hkeys|].
    eapply Forall_impl; [apply Hentries|]. intros e He. by apply HP.
  - set (pq := mkPQ _ d).
    destruct (pop_loop_spec keys (N.to_nat limit) pq ∅ (keys_NoDup d groups)
                (keyed_pq_ok groups keys d) rd_ok_empty) as [Hrd _].
    apply Forall_forall. intros s Hs.
    apply list_elem_of_omap in Hs as (key & Hk & Hl).
    rewrite (Hrd _ _ Hl). split; [by apply Hkeys|].
    eapply Forall_impl; [|intros e He; apply HP, He].
    apply (pop_loop_from P (N.to_nat limit) pq ∅); [| |done].
    + unfold pq. simpl. apply Forall_forall. intros s0 Hs0.
      apply list_elem_of_filter in Hs0 as [_ Hs0].
      apply list_elem_of_fmap in Hs0 as (k & -> & _). apply Hentries.
    + intros k s0. by rewrite lookup_empty.
Qed.

(** ** Responses that are not read *)

Lemma group_streams_total d l st :
  (foldl (group_stream d) st l).2 = (st.2 + entries_total l)%nat.
Proof.
  revert st. induction l as [|s l IH]; intros [groups total]; simpl.
  - unfold entries_total. simpl. lia.
  - rewrite IH. unfold entries_total. simpl. lia.
Qed.

(** Once the responses read hold as many entries as the limit, the loop
    has left. *)
Lemma group_resps_stop d limit r seen rest st :
  (N.to_nat limit <= st.2 + entries_total (all_streams (r :: seen)))%nat ->
  group_resps d limit ((r :: seen) ++ rest) st = group_resps d limit (r :: seen) st.
Proof.
  revert r st. induction seen as [|x seen IH]; intros r st Hle.
  - cbn [app group_resps].
    pose proof (group_streams_total d (Result (Data r)) st) as Ht.
    change (all_streams [r]) with (Result (Data r) ++ []) in Hle.
    rewrite app_nil_r in Hle.
    destruct (Nat.leb_spec (N.to_nat limit)
                (foldl (group_stream d) st (Result (Data r))).2); [done|lia].
  - change ((r :: x :: seen) ++ rest) with (r :: ((x :: seen) ++ rest)).
    cbn [group_resps]. destruct (_ <=? _)%nat; [done|]. apply IH.
    rewrite group_streams_total.
    change (all_streams (r :: x :: seen))
      with (Result (Data r) ++ all_streams (x :: seen)) in Hle.
    rewrite entries_total_app in Hle. lia.
Qed.

Section MergeResponse_streams.

Context {env : MergeEnv}.

Lemma MergeResponse_loki r rs :
  MergeResponse (RLokiResponse <$> r :: rs) =
  Returns (Ok (RLokiResponse {|
    Status := QueryStatusSuccess;
    Direction := Direction r;
    Limit := Limit r;
    Version := Version r;
    ErrorType := ErrorType r;
    Error := Error r;
    Statistics := foldl stats.MergeSplit stats.zero (Statistics <$> r :: rs);
    Data := {| ResultType := ResultTypeStream;
               Result := mergeOrderedNonOverlappingStreams (r :: rs)
                           (Limit r) (Direction r) |};
    Headers := []
  |})).
Proof.
  unfold MergeResponse. rewrite fmap_cons at 1.
  by rewrite mergeLokiResponse_eq.
Qed.

(** X7. Once the limit is reached, the rest is not read: when the
    LokiResponses [r :: seen] hold at least as many entries as the limit
    of [r], the responses that follow them change nothing in the data of
    the merged response. *)
Theorem X7_limit_reached_rest_ignored (r : LokiResponse)
    (seen rest : list LokiResponse) :
  Z.of_N (Limit r) <= total_available (r :: seen) ->
  exists m1 m2,
    MergeResponse (RLokiResponse <$> (r :: seen) ++ rest) =
      Returns (Ok (RLokiResponse m1)) /\
    MergeResponse (RLokiResponse <$> r :: seen) =
      Returns (Ok (RLokiResponse m2)) /\
    Data m1 = Data m2 /\
    Count m1 = Z.of_N (Limit r).
Proof.
  intros Hle. rewrite total_available_entries in Hle.
  eexists _, _. split; [apply (MergeResponse_loki r (seen ++ rest))|].
  split; [apply MergeResponse_loki|]. cbn [Data]. split.
  - f_equal. unfold mergeOrderedNonOverlappingStreams.
    change (r :: seen ++ rest) with ((r :: seen) ++ rest).
    rewrite group_resps_stop; [done|]. cbn [snd]. lia.
  - rewrite Count_entries_total. cbn [Data Result].
    change (r :: seen ++ rest) with ((r :: seen) ++ rest).
    rewrite merged_entries_total, all_streams_app, entries_total_app. lia.
Qed.

End MergeResponse_streams.

(** * Further properties of the request codec *)

Section Codec_more.

Context {QueryLimits : Type} {env : CodecEnv QueryLimits}.

Lemma encode_header_Ok (ctx : Context QueryLimits) (header : Values) :
  encode_header ctx = Ok header ->
  exists orgID,
    ctx_orgID ctx = Some orgID /\
    header !! CanonicalMIMEHeaderKey OrgIDHeaderName = Some [orgID].
Proof.
  unfold encode_header.
  destruct (match ctx_queryLimits ctx with
            | Some limits => InjectQueryLimitsHeader _ limits
            | None => Ok _
            end) as [h|]; [|discriminate].
  destruct (ctx_orgID ctx) as [orgID|]; [|discriminate].
  intros [= <-]. exists orgID. split; [done|].
  unfold Header_Set. by rewrite lookup_insert_eq.
Qed.

Lemma encode_header_no_tenant (ctx : Context QueryLimits) :
  ctx_orgID ctx = None -> exists err, encode_header ctx = Err err.
Proof.
  intros Hnone. unfold encode_header. rewrite Hnone.
  destruct (match ctx_queryLimits ctx with
            | Some limits => InjectQueryLimitsHeader _ limits
            | None => Ok _
            end); eauto.
Qed.

(** What [EncodeRequest] returns once the headers are built. *)
Lemma EncodeRequest_Ok (ctx : Context QueryLimits) (r : Request) (h : HTTPRequest) :
  EncodeRequest ctx r = Returns (Ok h) ->
  encode_header ctx = Ok (Header h) /\ Method h = "GET".
Proof.
  unfold EncodeRequest.
  destruct (encode_header ctx) as [header|]; [|discriminate].
  destruct r as [r|r|r|r|r|r|]; try (by intros [= <-]).
  - destruct (LabelRequest.Start r), (LabelRequest.End_ r); try discriminate.
    by intros [= <-].
  - case_decide; by intros [= <-].
Qed.

(** X8. The tenant on the wire: without an org ID in the context,
    encoding fails with an error for every request, an unsupported one
    and a label request without bounds included; when it succeeds, the
    transport request is a GET whose org-ID header, stored under the
    canonical form of its name, holds the org ID of the context and
    nothing else. *)
Theorem X8_encode_tenant (ctx : Context QueryLimits) (r : Request) :
  (ctx_orgID ctx = None -> exists err, EncodeRequest ctx r = Returns (Err err)) /\
  (forall h, EncodeRequest ctx r = Returns (Ok h) ->
     Method h = "GET" /\
     exists orgID,
       ctx_orgID ctx = Some orgID /\
       Header h !! CanonicalMIMEHeaderKey OrgIDHeaderName = Some [orgID] /\
       Header_Get (Header h) OrgIDHeaderName = orgID).
Proof.
  split.
  - intros (err & Herr)%encode_header_no_tenant.
    exists err. unfold EncodeRequest. by rewrite Herr.
  - intros h [Hh Hm]%EncodeRequest_Ok. split; [done|].
    apply encode_header_Ok in Hh as (orgID & Horg & Hl).
    exists orgID. split; [done|]. split; [done|].
    unfold Header_Get. by rewrite Hl.
Qed.

(** X9. [Codec.Path] and the path [EncodeRequest] sends a request to: they
    are the same for instant, label and index-stats requests and for a
    volume request with a step; for range and series requests [Path]
    lacks the leading slash, and a volume request without a step is sent
    to the instant volume path, which [Path] never returns. *)
Theorem X9_path_of_encoded (ctx : Context QueryLimits) (r : Request)
    (h : HTTPRequest) :
  EncodeRequest ctx r = Returns (Ok h) ->
  match r with
  | ReqLokiRequest _ | ReqLokiSeriesRequest _ =>
      URL_Path h = "/" +:+ Codec_Path r
  | ReqVolumeRequest request =>
      if decide (VolumeRequest.Step request = 0)
      then URL_Path h = "/loki/api/v1/index/volume" /\ URL_Path h <> Codec_Path r
      else URL_Path h = Codec_Path r
  | _ => URL_Path h = Codec_Path r
  end.
Proof.
  unfold EncodeRequest.
  destruct (encode_header ctx) as [header|]; [|discriminate].
  destruct r as [r|r|r|r|r|r|]; try (by intros [= <-]).
  - destruct (LabelRequest.Start r), (LabelRequest.End_ r); try discriminate.
    by intros [= <-].
  - case_decide; by intros [= <-].
Qed.

(** X10. The errors of the decoders: [DecodeRequest] fails with status
    400, or with status 404 and then the path matches no route;
    [DecodeHTTPGrpcRequest] fails with status 500 and then the request
    could not be built, with the error of a missing org ID and then it
    returns no context, or with status 400. Neither returns another
    error. *)
Theorem X10_decode_errors (r : HTTPRequest) (ctx : Context QueryLimits)
    (g : httpgrpc_HTTPRequest) :
  (forall err, DecodeRequest r = Err err ->
     exists msg,
       err = httpgrpc_Errorf StatusBadRequest msg \/
       (err = httpgrpc_Errorf StatusNotFound msg /\
        getOperation (URL_Path r) = None)) /\
  (forall err c, DecodeHTTPGrpcRequest ctx g = (Err err, c) ->
     exists msg,
       (err = httpgrpc_Errorf StatusInternalServerError msg /\
        exists e, http_NewRequest (grpc_Method g) (grpc_Url g) (grpc_Body g) = Err e) \/
       (err = errors_New "no org id" /\ c = None /\ ctx_orgID ctx = None) \/
       err = httpgrpc_Errorf StatusBadRequest msg).
Proof.
  assert (forall hr path grpc unknown err,
            decode_route hr path grpc unknown = Err err ->
            (exists msg, err = httpgrpc_Errorf StatusBadRequest msg) \/
            (err = unknown /\ getOperation (URL_Path hr) = None)) as Hroute.
  { intros hr path grpc unknown err. unfold decode_route, BadRequest.
    destruct (getOperation (URL_Path hr)) as [[]|]; [..|intros [= <-]; by right];
      repeat case_match; intros [=]; subst; left; eauto. }
  split.
  - intros err. unfold DecodeRequest, BadRequest.
    destruct (Form r); [|intros [= <-]; eauto].
    intros [[msg ->]|[-> Hnone]]%Hroute; eauto.
  - intros err c. unfold DecodeHTTPGrpcRequest, BadRequest.
    destruct (http_NewRequest _ _ _) as [httpReq|e]; [|intros [= <- <-]; eauto 6].
    destruct (ctx_orgID ctx) as [orgID|] eqn:Horg.
    + cbn [Form]. destruct (Form httpReq); [|intros [= <- <-]; eauto 6].
      intros [= Hr _]. apply Hroute in Hr as [[msg ->]|[-> _]]; eauto 6.
    + case_decide; [intros [= <- <-]; exists ""; eauto 6|].
      cbn [Form]. destruct (Form httpReq); [|intros [= <- <-]; eauto 6].
      intros [= Hr _]. apply Hroute in Hr as [[msg ->]|[-> _]]; eauto 6.
Qed.

Lemma Milliseconds_zero (d : Z) : Milliseconds d = 0 <-> -1000000 < d < 1000000.
Proof.
  unfold Milliseconds. rewrite Z.quot_small_iff by lia. lia.
Qed.

(** X11. A volume query decoded and encoded again: the instant route
    gives a request without a step, which is sent to the instant volume
    path; the range route gives the step in whole milliseconds, and the
    request is sent to the range path unless the step is within a
    millisecond of zero, when it is sent to the instant volume path
    without a step. *)
Theorem X11_volume_reencoded (r : HTTPRequest) (form header : Values)
    (q : loghttp.VolumeQuery) (ctx : Context QueryLimits) :
  Form r = Ok form -> encode_header ctx = Ok header ->
  (getOperation (URL_Path r) = Some VolumeOp ->
   ParseVolumeInstantQuery r = Ok q ->
   exists req h,
     DecodeRequest r = Ok req /\ EncodeRequest ctx req = Returns (Ok h) /\
     URL_Path h = "/loki/api/v1/index/volume" /\ wire_lookup h "step" = None) /\
  (getOperation (URL_Path r) = Some VolumeRangeOp ->
   ParseVolumeRangeQuery r = Ok q ->
   exists req h,
     DecodeRequest r = Ok req /\ EncodeRequest ctx req = Returns (Ok h) /\
     if decide (-1000000 < loghttp.VStep q < 1000000)
     then URL_Path h = "/loki/api/v1/index/volume" /\ wire_lookup h "step" = None
     else URL_Path h = "/loki/api/v1/index/volume_range" /\
          wire_lookup h "step" = Some [fmt_seconds (Milliseconds (loghttp.VStep q))]).
Proof.
  intros Hform Hheader.
  assert (forall (params : Values) path,
            params !! "step" = None ->
            wire_lookup (GET path params header) "step" = None) as Hnostep.
  { intros params path Hp. unfold wire_lookup, GET, url_Encode. cbn [Form].
    by rewrite map_lookup_filter, Hp. }
  assert (forall (a b c d e : list string),
            ({[ "start" := a; "end" := b; "query" := c; "limit" := d;
                "aggregateBy" := e ]} : Values) !! "step" = None) as Hbase
    by done.
  assert (forall (tl : list string) (params : Values),
            params !! "step" = None ->
            (match tl with
             | [] => params
             | s :: l => <["targetLabels" := [String.concat "," (s :: l)]]> params
             end) !! "step" = None) as Hparams.
  { intros tl params Hp. destruct tl; [done|]. by rewrite lookup_insert_ne. }
  split; intros Hop Hparse; unfold DecodeRequest, decode_route;
    rewrite Hform, Hop, Hparse;
    destruct (RoundToMilliseconds _ _) as [from through].
  - eexists _, _. split; [reflexivity|]. unfold EncodeRequest. rewrite Hheader.
    cbn [VolumeRequest.Step VolumeRequest.TargetLabels VolumeRequest.From
         VolumeRequest.Through VolumeRequest.Matchers VolumeRequest.Limit
         VolumeRequest.AggregateBy].
    rewrite decide_True by done. split; [reflexivity|].
    split; [reflexivity|]. apply Hnostep, Hparams, Hbase.
  - destruct (decide (Milliseconds (loghttp.VStep q) = 0)) as [Hz|Hnz];
      eexists _, _; (split; [reflexivity|]); unfold EncodeRequest;
      rewrite Hheader;
      cbn [VolumeRequest.Step VolumeRequest.TargetLabels VolumeRequest.From
           VolumeRequest.Through VolumeRequest.Matchers VolumeRequest.Limit
           VolumeRequest.AggregateBy].
    + rewrite (decide_True (P := Milliseconds _ = 0)) by done.
      split; [reflexivity|]. rewrite decide_True by (by apply Milliseconds_zero).
      split; [reflexivity|]. apply Hnostep, Hparams, Hbase.
    + rewrite (decide_False (P := Milliseconds _ = 0)) by done.
      split; [reflexivity|].
      rewrite decide_False by (by rewrite <- Milliseconds_zero).
      split; [reflexivity|].
      unfold wire_lookup, GET, url_Encode. cbn [Form].
      rewrite map_lookup_filter, lookup_insert_eq. done.
Qed.

(** X12. The context the RPC-wrapped decode returns with a request has a
    tenant: the org ID the given context had, or else the one of the
    org-ID header, which is the first value stored under the canonical
    form of the header's name, and is not empty; the headers are those
    of the request built, with the listed headers assigned under their
    keys as they are spelled. The query limits and the actor path of the
    given context are kept. *)
Theorem X12_grpc_context_has_tenant (ctx : Context QueryLimits)
    (g : httpgrpc_HTTPRequest) (req : Request)
    (c : option (Context QueryLimits)) :
  DecodeHTTPGrpcRequest ctx g = (Ok req, c) ->
  exists c' httpReq orgID,
    c = Some c' /\
    http_NewRequest (grpc_Method g) (grpc_Url g) (grpc_Body g) = Ok httpReq /\
    ctx_orgID c' = Some orgID /\
    match ctx_orgID ctx with
    | Some o => orgID = o
    | None =>
        orgID <> "" /\
        exists values,
          foldl (λ h kv, <[kv.1 := kv.2]> h) (Header httpReq) (grpc_Headers g)
            !! CanonicalMIMEHeaderKey OrgIDHeaderName = Some (orgID :: values)
    end /\
    ctx_queryLimits c' = ctx_queryLimits ctx /\
    ctx_actorPath c' = ctx_actorPath ctx.
Proof.
  unfold DecodeHTTPGrpcRequest.
  destruct (http_NewRequest _ _ _) as [httpReq|e]; [|discriminate].
  set (hdr := foldl _ _ _).
  destruct (ctx_orgID ctx) as [orgID|] eqn:Horg.
  - cbn [Form Header]. destruct (Form httpReq); [|discriminate].
    intros [= _ <-].
    repeat first [case_decide | case_match];
      (eexists _, httpReq, orgID; split; [reflexivity|]; cbn;
       split; [done|]; split; [done|]; split; [done|done]).
  - cbn [Header].
    destruct (decide (Header_Get hdr OrgIDHeaderName = "")) as [|Hne];
      [discriminate|].
    assert (exists values,
              hdr !! CanonicalMIMEHeaderKey OrgIDHeaderName =
                Some (Header_Get hdr OrgIDHeaderName :: values)) as Hstored.
    { revert Hne. unfold Header_Get.
      destruct (hdr !! CanonicalMIMEHeaderKey OrgIDHeaderName) as [[|v vs]|];
        [done| |done].
      intros _. by exists vs. }
    cbn [Form]. destruct (Form httpReq); [|discriminate].
    intros [= _ <-].
    repeat first [case_decide | case_match];
      (eexists _, httpReq, _; split; [reflexivity|]; cbn;
       split; [done|]; split; [reflexivity|]; split; [by split|done]).
Qed.

(** A listed header is looked up under the canonical form of the name
    asked for, so the org ID is read from a header listed under that
    form and from no other spelling of the name. *)
Lemma DecodeHTTPGrpcRequest_org_header (ctx : Context QueryLimits)
    (g : httpgrpc_HTTPRequest) (httpReq : HTTPRequest) :
  http_NewRequest (grpc_Method g) (grpc_Url g) (grpc_Body g) = Ok httpReq ->
  ctx_orgID ctx = None ->
  Header httpReq !! CanonicalMIMEHeaderKey OrgIDHeaderName = None ->
  Forall (λ kv, kv.1 <> CanonicalMIMEHeaderKey OrgIDHeaderName) (grpc_Headers g) ->
  DecodeHTTPGrpcRequest ctx g = (Err (errors_New "no org id"), None).
Proof.
  intros Hnew Horg Hnone Hkeys. unfold DecodeHTTPGrpcRequest.
  rewrite Hnew, Horg. cbn [Header]. unfold Header_Get.
  assert (foldl (λ (h : Values) kv, <[kv.1 := kv.2]> h) (Header httpReq)
            (grpc_Headers g) !! CanonicalMIMEHeaderKey OrgIDHeaderName = None)
    as ->.
  { revert Hnone. generalize (Header httpReq).
    induction Hkeys as [|[k v] l Hk _ IH]; intros h Hnone; [done|].
    cbn [foldl]. apply IH. by rewrite lookup_insert_ne. }
  by rewrite decide_True.
Qed.

(** X13. A request decoded and encoded again is sent to the path of its
    route, not to the path it came in on; only a label request is sent
    to the path it came in on. *)
Theorem X13_reencoded_path (r : HTTPRequest) (req : Request)
    (ctx : Context QueryLimits) (h : HTTPRequest) :
  DecodeRequest r = Ok req -> EncodeRequest ctx req = Returns (Ok h) ->
  match getOperation (URL_Path r) with
  | Some QueryRangeOp => URL_Path h = "/loki/api/v1/query_range"
  | Some InstantQueryOp => URL_Path h = "/loki/api/v1/query"
  | Some SeriesOp => URL_Path h = "/loki/api/v1/series"
  | Some LabelNamesOp => URL_Path h = URL_Path r
  | Some IndexStatsOp => URL_Path h = "/loki/api/v1/index/stats"
  | Some VolumeOp => URL_Path h = "/loki/api/v1/index/volume"
  | Some VolumeRangeOp =>
      URL_Path h = "/loki/api/v1/index/volume" \/
      URL_Path h = "/loki/api/v1/index/volume_range"
  | None => False
  end.
Proof.
  unfold DecodeRequest, decode_route, BadRequest, EncodeRequest.
  destruct (Form r); [|discriminate].
  destruct (encode_header ctx) as [header|]; [|intros _; discriminate].
  destruct (getOperation (URL_Path r)) as [[]|]; [..|discriminate].
  - destruct (ParseRangeQuery r); [|discriminate].
    intros [= <-]. by intros [= <-].
  - destruct (ParseInstantQuery r); [|discriminate].
    intros [= <-]. by intros [= <-].
  - destruct (ParseAndValidateSeriesQuery r); [|discriminate].
    intros [= <-]. by intros [= <-].
  - destruct (ParseLabelQuery r) as [l|]; [|discriminate].
    cbn [andb]. intros [= <-].
    cbn [LabelRequest.Start LabelRequest.End_ LabelRequest.path].
    destruct (LabelRequest.Start l), (LabelRequest.End_ l); try discriminate.
    by intros [= <-].
  - destruct (ParseIndexStatsQuery r); [|discriminate].
    destruct (RoundToMilliseconds _ _). intros [= <-]. by intros [= <-].
  - destruct (ParseVolumeInstantQuery r); [|discriminate].
    destruct (RoundToMilliseconds _ _). intros [= <-].
    cbn [VolumeRequest.Step]. rewrite decide_True by done. by intros [= <-].
  - destruct (ParseVolumeRangeQuery r); [|discriminate].
    destruct (RoundToMilliseconds _ _). intros [= <-].
    case_decide; intros [= <-]; auto.
Qed.

(** X14. A range query decoded and encoded again carries what the parser
    read: its query, limit, direction and shards, and its bounds as
    nanosecond timestamps; the step and the interval are written in whole
    milliseconds, and not at all when within a millisecond of zero. *)
Theorem X14_range_reencoded (r : HTTPRequest) (form header : Values)
    (q : loghttp.RangeQuery) (ctx : Context QueryLimits) :
  Form r = Ok form -> encode_header ctx = Ok header ->
  getOperation (URL_Path r) = Some QueryRangeOp ->
  ParseRangeQuery r = Ok q ->
  exists req h,
    DecodeRequest r = Ok req /\ EncodeRequest ctx req = Returns (Ok h) /\
    fields_of req =
      Some (mkFields (loghttp.Query q) (Some (loghttp.Start q))
              (Some (loghttp.End_ q)) (Z.of_N (loghttp.Limit q))
              (loghttp.Direction q) (loghttp.Shards q)) /\
    wire h =
      mkWire (Some [pretty (time.UnixNano (loghttp.Start q))])
        (Some [pretty (time.UnixNano (loghttp.End_ q))])
        (Some [loghttp.Query q])
        (Some [Direction_String (loghttp.Direction q)])
        (Some [pretty (loghttp.Limit q)])
        (nonempty (loghttp.Shards q)) None /\
    wire_lookup h "step" =
      (if decide (-1000000 < loghttp.Step q < 1000000) then None
       else Some [fmt_seconds (Milliseconds (loghttp.Step q))]) /\
    wire_lookup h "interval" =
      (if decide (-1000000 < loghttp.Interval q < 1000000) then None
       else Some [fmt_seconds (Milliseconds (loghttp.Interval q))]).
Proof.
  intros Hform Hheader Hop Hparse.
  unfold DecodeRequest, decode_route. rewrite Hform, Hop, Hparse.
  eexists _, _. split; [reflexivity|].
  unfold EncodeRequest. rewrite Hheader.
  cbn [LokiRequest.StartTs LokiRequest.EndTs LokiRequest.Query
       LokiRequest.Direction LokiRequest.Limit LokiRequest.Shards
       LokiRequest.Step LokiRequest.Interval time.UTC].
  split; [reflexivity|]. split; [reflexivity|].
  split; [apply wire_range|].
  set (base := with_shards _ _).
  assert (base !! "step" = None /\ base !! "interval" = None) as [Hs Hi].
  { unfold base, with_shards. destruct (loghttp.Shards q).
    - split; reflexivity.
    - rewrite !lookup_insert_ne by done. split; reflexivity. }
  unfold wire_lookup, GET, url_Encode, with_seconds. cbn [Form].
  rewrite !map_lookup_filter. unfold time.UTC.
  destruct (decide (Milliseconds (loghttp.Step q) = 0)) as [Hz|Hnz];
    destruct (decide (Milliseconds (loghttp.Interval q) = 0)) as [Hz'|Hnz'];
    repeat first [rewrite lookup_insert_eq | rewrite lookup_insert_ne by done];
    rewrite ?Hs, ?Hi; simpl; split.
  all: first [rewrite decide_True by (by apply Milliseconds_zero)
             |rewrite decide_False by (by rewrite <- Milliseconds_zero)];
    done.
Qed.

End Codec_more.

Section Decoders.

Context {QueryLimits : Type} {env : CodecEnv QueryLimits}.

(** X30. The two decoders agree. On the request the RPC-wrapped decoder
    builds from the wrapped one, the plain decoder fails exactly when
    the RPC-wrapped decoder does, with the same error unless the path
    matches no route; otherwise the two return requests of one kind with
    the same query, bounds, limit, direction and shards. *)
Theorem X30_decoders_agree (ctx : Context QueryLimits)
    (g : httpgrpc_HTTPRequest) (httpReq : HTTPRequest) (orgID : string) :
  http_NewRequest (grpc_Method g) (grpc_Url g) (grpc_Body g) = Ok httpReq ->
  ctx_orgID ctx = Some orgID ->
  let built :=
    mkHTTPRequest (Method httpReq) (URL_Path httpReq) (Form httpReq)
      (foldl (λ h kv, <[kv.1 := kv.2]> h) (Header httpReq) (grpc_Headers g)) in
  match DecodeRequest built, (DecodeHTTPGrpcRequest ctx g).1 with
  | Ok plain, Ok wrapped =>
      fields_of plain = fields_of wrapped /\ is_Some (fields_of plain)
  | Err err, Err err' => err = err' \/ getOperation (URL_Path built) = None
  | _, _ => False
  end.
Proof.
  intros Hnew Horg built. unfold DecodeRequest, DecodeHTTPGrpcRequest.
  rewrite Hnew, Horg. fold built. cbn [Form].
  destruct (Form built) as [form|err] eqn:Hform; cbn [fst BadRequest]; [|by left].
  unfold decode_route.
  destruct (getOperation (URL_Path built)) as [[]|]; [..|by right].
  - destruct (ParseRangeQuery built); cbn; eauto.
  - destruct (ParseInstantQuery built); cbn; eauto.
  - destruct (ParseAndValidateSeriesQuery built); cbn; eauto.
  - destruct (ParseLabelQuery built) as [l|]; cbn [BadRequest]; [|by left].
    cbn [andb]. case_bool_decide; [|cbn; eauto].
    destruct (labelNamesRoutes_FindSubmatch (URL_Path built)) as [|? [|? ?]];
      cbn; eauto.
  - destruct (ParseIndexStatsQuery built); cbn [BadRequest]; [|by left].
    destruct (RoundToMilliseconds _ _). cbn. eauto.
  - destruct (ParseVolumeInstantQuery built); cbn [BadRequest]; [|by left].
    destruct (RoundToMilliseconds _ _). cbn. eauto.
  - destruct (ParseVolumeRangeQuery built); cbn [BadRequest]; [|by left].
    destruct (RoundToMilliseconds _ _). cbn. eauto.
Qed.

End Decoders.

(** ** Requests with new bounds *)

Section Request_methods.

Context {QueryLimits : Type} {env : CodecEnv QueryLimits}.

(** X15. New bounds on the wire. Encoding the request that
    [WithStartEnd(s, e)] returns never panics and fails only as building
    the headers fails. A range or series request then carries [s] as its
    start and [e] as its end; an instant request carries [s] as its time
    and no bounds; a label request carries [e] both as its start and as
    its end, because both of its bounds are the address of one
    variable. *)
Theorem X15_WithStartEnd_encoded (ctx : Context QueryLimits) (s e : time.Time) :
  (forall r,
     match EncodeRequest ctx (LokiRequest_WithStartEnd r s e) with
     | Returns (Ok h) =>
         w_start (wire h) = Some [pretty (time.UnixNano s)] /\
         w_end (wire h) = Some [pretty (time.UnixNano e)] /\
         w_query (wire h) = Some [LokiRequest.Query r]
     | Returns (Err err) => encode_header ctx = Err err
     | Panics => False
     end) /\
  (forall r,
     match EncodeRequest ctx (LokiInstantRequest_WithStartEnd r s e) with
     | Returns (Ok h) =>
         w_time (wire h) = Some [pretty (time.UnixNano s)] /\
         w_start (wire h) = None /\ w_end (wire h) = None /\
         w_query (wire h) = Some [LokiInstantRequest.Query r]
     | Returns (Err err) => encode_header ctx = Err err
     | Panics => False
     end) /\
  (forall r,
     match EncodeRequest ctx (LokiSeriesRequest_WithStartEnd r s e) with
     | Returns (Ok h) =>
         w_start (wire h) = Some [pretty (time.UnixNano s)] /\
         w_end (wire h) = Some [pretty (time.UnixNano e)]
     | Returns (Err err) => encode_header ctx = Err err
     | Panics => False
     end) /\
  (forall r,
     match EncodeRequest ctx (LabelRequest_WithStartEnd r s e) with
     | Returns (Ok h) =>
         w_start (wire h) = Some [pretty (time.UnixNano e)] /\
         w_end (wire h) = Some [pretty (time.UnixNano e)] /\
         w_query (wire h) = Some [LabelRequest.Query r]
     | Returns (Err err) => encode_header ctx = Err err
     | Panics => False
     end).
Proof.
  unfold EncodeRequest, LokiRequest_WithStartEnd, LokiRequest_WithStartEndTime,
    LokiInstantRequest_WithStartEnd, LokiSeriesRequest_WithStartEnd,
    LabelRequest_WithStartEnd.
  destruct (encode_header ctx) as [header|err];
    cbn [mret outcome_ret LokiRequest.StartTs LokiRequest.EndTs LokiRequest.Query
         LokiRequest.Direction LokiRequest.Limit LokiRequest.Shards
         LokiRequest.Step LokiRequest.Interval
         LokiInstantRequest.Query LokiInstantRequest.Direction
         LokiInstantRequest.Limit LokiInstantRequest.TimeTs
         LokiInstantRequest.Shards
         LokiSeriesRequest.StartTs LokiSeriesRequest.EndTs LokiSeriesRequest.Match
         LokiSeriesRequest.Shards
         LabelRequest.Start LabelRequest.End_ LabelRequest.Query LabelRequest.path];
    [|by repeat split].
  repeat split.
  all: first [rewrite wire_range | rewrite wire_instant | rewrite wire_series
             | rewrite wire_label]; reflexivity.
Qed.

(** X16. The bounds of a label request. A request built by
    [NewLabelRequest] has both bounds: its getters return them, and it is
    encoded to the path given, with the query and the bounds given. A
    label request with a nil bound makes the getter of that bound panic,
    and makes [EncodeRequest] panic once the headers are built. *)
Theorem X16_label_bounds (ctx : Context QueryLimits) (header : Values) :
  encode_header ctx = Ok header ->
  (forall start end_ query name path,
     let r := NewLabelRequest start end_ query name path in
     LabelRequest_GetStart r = Returns start /\
     LabelRequest_GetEnd r = Returns end_ /\
     (LabelRequest.Values r = true <-> name <> "") /\
     exists h,
       EncodeRequest ctx (ReqLabelRequest r) = Returns (Ok h) /\
       URL_Path h = path /\
       wire h = mkWire (Some [pretty (time.UnixNano start)])
                  (Some [pretty (time.UnixNano end_)]) (Some [query])
                  None None None None) /\
  (forall r,
     (LabelRequest.Start r = None -> LabelRequest_GetStart r = Panics) /\
     (LabelRequest.End_ r = None -> LabelRequest_GetEnd r = Panics) /\
     (LabelRequest.Start r = None \/ LabelRequest.End_ r = None ->
      EncodeRequest ctx (ReqLabelRequest r) = Panics)).
Proof.
  intros Hheader. split.
  - intros start end_ query name path r.
    split; [done|]. split; [done|]. split.
    { unfold r, NewLabelRequest. cbn [LabelRequest.Values].
      by rewrite bool_decide_eq_true. }
    eexists. unfold EncodeRequest. rewrite Hheader.
    split; [reflexivity|]. split; [reflexivity|]. apply wire_label.
  - intros r. unfold LabelRequest_GetStart, LabelRequest_GetEnd, EncodeRequest.
    rewrite Hheader. split; [by intros ->|]. split; [by intros ->|].
    intros [->| ->]; [done|]. by destruct (LabelRequest.Start r).
Qed.

End Request_methods.

(** * Properties of the response codec *)

Lemma quot_100_eq_2 (code : Z) : Z.quot code 100 = 2 <-> 200 <= code <= 299.
Proof.
  pose proof (Z.quot_rem' code 100) as Hqr.
  destruct (Z.le_gt_cases 0 code) as [Hpos|Hneg].
  - pose proof (Z.rem_bound_pos code 100 Hpos ltac:(lia)). lia.
  - assert (Z.quot code 100 = - Z.quot (- code) 100) as ->.
    { rewrite <- (Z.opp_involutive code) at 1. apply Z.quot_opp_l. lia. }
    pose proof (Z.quot_pos (- code) 100 ltac:(lia) ltac:(lia)). lia.
Qed.

Lemma int64_scaled (t : Z) :
  -9223372036854 <= t <= 9223372036854 ->
  Z.quot (time.int64 (t * 1000000)) 1000000 = t.
Proof.
  intros Ht. rewrite int64_id by lia. apply Z.quot_mul. lia.
Qed.

(** X17. The headers of a decoded response: each key of the headers of
    the transport response gives one header of the response, with the
    values of that key, and nothing else does. *)
Theorem X17_headers_converted (httpHeaders : Values) :
  NoDup (HeaderName <$> httpResponseHeadersToPromResponseHeaders httpHeaders) /\
  (forall name values,
     mkHeader name values ∈ httpResponseHeadersToPromResponseHeaders httpHeaders <->
     httpHeaders !! name = Some values) /\
  length (httpResponseHeadersToPromResponseHeaders httpHeaders) = size httpHeaders.
Proof.
  unfold httpResponseHeadersToPromResponseHeaders. split; [|split].
  - rewrite <- list_fmap_compose.
    apply (NoDup_fst_map_to_list httpHeaders).
  - intros name values. rewrite list_elem_of_fmap. split.
    + intros ([k v] & [= -> ->] & Hkv). by apply elem_of_map_to_list.
    + intros Hl. exists (name, values). split; [done|].
      by apply elem_of_map_to_list.
  - by rewrite length_fmap, length_map_to_list.
Qed.

Section Responses_properties.

Context {renv : ResponseEnv}.

(** X18. The numeric results: a matrix is converted stream by stream and
    sample by sample, in order; a vector into one stream of one sample
    for each of its samples; a scalar into one stream without labels and
    with one sample, whose millisecond timestamp is that of the scalar as
    long as its nanosecond count fits an int64. *)
Theorem X18_numeric_results :
  (forall m,
     queryrangebase.samples <$> toProtoMatrix m =
       (λ stream, (λ s, (json.PairValue s, json.PairTimestamp s))
                    <$> json.Values stream) <$> m /\
     queryrangebase.labels <$> toProtoMatrix m =
       (λ stream, FromMetricsToLabelAdapters (json.Metric stream)) <$> m) /\
  (forall v,
     queryrangebase.samples <$> toProtoVector v =
       (λ s, [(json.SampleValue s, json.SampleTimestamp s)]) <$> v /\
     Forall (λ stream, length (queryrangebase.samples stream) = 1%nat)
       (toProtoVector v)) /\
  (forall v,
     -9223372036854 <= json.ScalarTimestamp v <= 9223372036854 ->
     toProtoScalar v =
       [queryrangebase.mkSampleStream []
          [(json.ScalarValue v, json.ScalarTimestamp v)]]).
Proof.
  split; [|split].
  - intros m. unfold toProtoMatrix. destruct m as [|x m]; [done|].
    by rewrite <- !list_fmap_compose.
  - intros v. unfold toProtoVector. destruct v as [|x v]; [done|].
    split; [by rewrite <- list_fmap_compose|].
    apply Forall_fmap, Forall_forall. done.
  - intros v Ht. unfold toProtoScalar, model_UnixNano, LegacySample.
    by rewrite int64_scaled.
Qed.

(** X19. The view of a request that [ParamsFromRequest] gives. It fails
    for a request type it has no case for, and for no other. For a range,
    instant, series, label or index-stats request the query, bounds,
    limit, direction and shards it gives are the fields of the request,
    with direction FORWARD, limit 0 and interval 0 for the three kinds
    that have none. A volume request is read as a range request with
    direction FORWARD, no interval, no shards and its int32 limit
    converted to uint32. The step of a range request is its milliseconds
    in nanoseconds, as long as they fit an int64. *)
Theorem X19_params_of_request (req : Request) :
  match req, ParamsFromRequest req with
  | ReqOther, res => exists err, res = Err err
  | _, Err _ => False
  | ReqVolumeRequest r, Ok p =>
      Params_Query p = VolumeRequest.Matchers r /\
      Params_Direction p = FORWARD /\
      Params_Limit p = uint32 (VolumeRequest.Limit r) /\
      Params_Interval p = 0 /\ Params_Shards p = []
  | _, Ok p =>
      fields_of req =
        Some {| f_query := Params_Query p;
                f_start := match Params_Start p with
                           | Returns t => Some t | Panics => None end;
                f_end := match Params_End p with
                         | Returns t => Some t | Panics => None end;
                f_limit := Z.of_N (Params_Limit p);
                f_direction := Params_Direction p;
                f_shards := Params_Shards p |} /\
      match req with
      | ReqLokiRequest r =>
          -9223372036854 <= LokiRequest.Step r <= 9223372036854 ->
          Params_Step p = LokiRequest.Step r * 1000000
      | ReqLokiInstantRequest _ | ReqLokiSeriesRequest _ | ReqLabelRequest _ =>
          Params_Step p = 0 /\ Params_Interval p = 0
      | _ => Params_Interval p = 0
      end
  end.
Proof.
  destruct req as [r|r|r|r|r|r|]; cbn.
  - split; [done|]. intros Hs. apply int64_id. lia.
  - done.
  - done.
  - split; [|done]. unfold LabelRequest_GetStartTs, LabelRequest_GetEndTs,
      LabelRequest_GetStart, LabelRequest_GetEnd.
    by destruct (LabelRequest.Start r), (LabelRequest.End_ r).
  - done.
  - done.
  - eauto.
Qed.

(** X20. The status of a transport response comes first: a response
    whose status is not one of 200 to 299 is decoded into an error with
    that status, whatever the request, the content type and the body
    are. The body is the format of the message, printed without
    arguments: where a format without a [%] is printed as it is, the
    message of a body without a [%] is that body. For the other
    statuses, the content type alone picks the decoder, and the
    RPC-wrapped response is decoded from its body and from the headers
    it lists, a later header of one key replacing an earlier one. *)
Theorem X20_status_gate (r : HTTPResponse) (g : httpgrpc_HTTPResponse)
    (req : Request) :
  (~ 200 <= StatusCode r <= 299 ->
   DecodeResponse r req =
     Returns (Err (httpgrpc_Errorf (StatusCode r)
                     (fmt_Sprintf (String.string_of_list_byte
                                     (io_ReadAll (ResponseBody r)).1))))) /\
  (200 <= StatusCode r <= 299 ->
   DecodeResponse r req =
     if decide (Header_Get (ResponseHeader r) "Content-Type" = ProtobufType)
     then decodeResponseProtobuf r req else decodeResponseJSON r req) /\
  (~ 200 <= grpc_Code g <= 299 ->
   DecodeHTTPGrpcResponse g req =
     Returns (Err (httpgrpc_Errorf (grpc_Code g)
                     (fmt_Sprintf (String.string_of_list_byte
                                     (grpc_ResponseBody g)))))) /\
  (200 <= grpc_Code g <= 299 ->
   DecodeHTTPGrpcResponse g req =
     decodeResponseJSONFrom (grpc_ResponseBody g) req
       (list_to_map (reverse (grpc_ResponseHeaders g)))) /\
  ((forall format, plain_format format = true -> fmt_Sprintf format = format) ->
   (~ 200 <= StatusCode r <= 299 ->
    plain_format
      (String.string_of_list_byte (io_ReadAll (ResponseBody r)).1) = true ->
    DecodeResponse r req =
      Returns (Err (httpgrpc_Errorf (StatusCode r)
                      (String.string_of_list_byte
                         (io_ReadAll (ResponseBody r)).1)))) /\
   (~ 200 <= grpc_Code g <= 299 ->
    plain_format (String.string_of_list_byte (grpc_ResponseBody g)) = true ->
    DecodeHTTPGrpcResponse g req =
      Returns (Err (httpgrpc_Errorf (grpc_Code g)
                      (String.string_of_list_byte (grpc_ResponseBody g)))))).
Proof.
  unfold DecodeResponse, DecodeHTTPGrpcResponse.
  split; [|split; [|split; [|split]]].
  - intros Hcode. rewrite <- quot_100_eq_2 in Hcode. by rewrite decide_True.
  - intros Hcode. rewrite <- quot_100_eq_2 in Hcode.
    by rewrite decide_False by (intros ?; congruence).
  - intros Hcode. rewrite <- quot_100_eq_2 in Hcode. by rewrite decide_True.
  - intros Hcode. rewrite <- quot_100_eq_2 in Hcode.
    rewrite decide_False by (intros ?; congruence). f_equal.
    generalize (grpc_ResponseHeaders g). intros l.
    induction l as [|[k v] l IH] using rev_ind; [done|].
    rewrite foldl_app, reverse_app. simpl. by rewrite IH.
  - intros Hplain. split; intros Hcode Hbody; rewrite <- quot_100_eq_2 in Hcode;
      rewrite decide_True by done; cbn zeta; by rewrite (Hplain _ Hbody).
Qed.

(** The type a JSON body is decoded into. *)
Lemma decodeResponseJSONFrom_type buf req headers res :
  decodeResponseJSONFrom buf req headers = Returns (Ok res) ->
  match req with
  | ReqLokiSeriesRequest _ => type_of res = TLokiSeriesResponse
  | ReqLabelRequest _ => type_of res = TLokiLabelNamesResponse
  | ReqIndexStatsRequest _ => type_of res = TIndexStatsResponse
  | ReqVolumeRequest _ => type_of res = TVolumeResponse
  | ReqLokiRequest _ | ReqLokiInstantRequest _ =>
      type_of res = TLokiPromResponse \/
      (exists r, res = RLokiResponse r)
  | ReqOther => type_of res = TLokiPromResponse
  end.
Proof.
  unfold decodeResponseJSONFrom, decoding_error, prom_response.
  destruct req as [r|r|r|r|r|r|].
  1,2,7:
    destruct (QueryResponse_UnmarshalJSON buf) as [resp|]; [|discriminate];
    cbn zeta; repeat case_decide;
    cbn [ParamsFromRequest];
    try (destruct (json.Result (json.Data resp)); try discriminate;
         intros [= <-]; simpl; eauto);
    try discriminate.
  - destruct (Unmarshal_SeriesResponse buf); [|discriminate]. by intros [= <-].
  - destruct (Unmarshal_LabelResponse buf); [|discriminate]. by intros [= <-].
  - destruct (Unmarshal_IndexStatsResponse buf); [|discriminate]. by intros [= <-].
  - destruct (Unmarshal_VolumeResponse buf); [|discriminate]. by intros [= <-].
Qed.

(** X21. What a JSON body is decoded into. The request picks the type of
    the response: a SeriesResponse, LabelNamesResponse,
    IndexStatsResponse or VolumeResponse for a request of that kind, and
    for a range or instant request a Prometheus-shaped response or a
    LokiResponse, as the result type of the body says. A LokiResponse
    takes its direction and its limit from the request, not from the
    body, its version from the path of the request, and the result type
    "streams". An error is one with status 500, or the error of an
    unsupported request when the body holds streams. *)
Theorem X21_json_decoded (buf : list Byte.byte) (req : Request)
    (headers : Values) :
  match decodeResponseJSONFrom buf req headers with
  | Returns (Ok res) =>
      match req with
      | ReqLokiSeriesRequest _ => type_of res = TLokiSeriesResponse
      | ReqLabelRequest _ => type_of res = TLokiLabelNamesResponse
      | ReqIndexStatsRequest _ => type_of res = TIndexStatsResponse
      | ReqVolumeRequest _ => type_of res = TVolumeResponse
      | ReqLokiRequest r =>
          type_of res = TLokiPromResponse \/
          exists res', res = RLokiResponse res' /\
            Direction res' = LokiRequest.Direction r /\
            Limit res' = LokiRequest.Limit r /\
            Version res' = uint32 (GetVersion (LokiRequest.Path r)) /\
            ResultType (Data res') = ResultTypeStream /\
            Headers res' = httpResponseHeadersToPromResponseHeaders headers
      | ReqLokiInstantRequest r =>
          type_of res = TLokiPromResponse \/
          exists res', res = RLokiResponse res' /\
            Direction res' = LokiInstantRequest.Direction r /\
            Limit res' = LokiInstantRequest.Limit r /\
            Version res' = uint32 (GetVersion (LokiInstantRequest.Path r)) /\
            ResultType (Data res') = ResultTypeStream /\
            Headers res' = httpResponseHeadersToPromResponseHeaders headers
      | ReqOther => type_of res = TLokiPromResponse
      end
  | Returns (Err err) =>
      (exists msg, err = httpgrpc_Errorf StatusInternalServerError msg) \/
      (req = ReqOther /\ ParamsFromRequest req = Err err)
  | Panics => True
  end.
Proof.
  unfold decodeResponseJSONFrom, decoding_error, prom_response.
  destruct req as [r|r|r|r|r|r|].
  1,2,7:
    destruct (QueryResponse_UnmarshalJSON buf) as [resp|]; [|simpl; by eauto];
    cbn zeta; repeat case_decide;
    cbn [ParamsFromRequest];
    try (destruct (json.Result (json.Data resp)); simpl; by eauto 10);
    simpl; by eauto.
  - destruct (Unmarshal_SeriesResponse buf); simpl; eauto.
  - destruct (Unmarshal_LabelResponse buf); simpl; eauto.
  - destruct (Unmarshal_IndexStatsResponse buf); simpl; eauto.
  - destruct (Unmarshal_VolumeResponse buf); simpl; eauto.
Qed.

End Responses_properties.

(** ** Decoding, merging and encoding together *)

Lemma Forall_as_fmap {X Y : Type} (f : X -> Y) (l : list Y) :
  Forall (λ y, exists x, y = f x) l -> exists xs, l = f <$> xs.
Proof.
  induction 1 as [|y l [x ->] _ [xs ->]]; [by exists []|].
  by exists (x :: xs).
Qed.

Lemma foldl_insert_reverse (l : list (string * list string)) (m : Values) :
  foldl (λ headers header, <[header.1 := header.2]> headers) m l =
  list_to_map (reverse l) ∪ m.
Proof.
  revert m. induction l as [|[k v] l IH] using rev_ind; intros m.
  - rewrite reverse_nil. simpl. by rewrite (left_id_L ∅ (∪)).
  - rewrite foldl_app, reverse_app. simpl. rewrite IH.
    by rewrite insert_union_l.
Qed.

Section Codec_and_merger.

Context {env : MergeEnv} {renv : ResponseEnv}.

Lemma decoded_series buf r headers res :
  decodeResponseJSONFrom buf (ReqLokiSeriesRequest r) headers = Returns (Ok res) ->
  exists x, res = RLokiSeriesResponse x.
Proof.
  unfold decodeResponseJSONFrom.
  destruct (Unmarshal_SeriesResponse buf); [|discriminate].
  intros [= <-]. eauto.
Qed.

Lemma decoded_names buf r headers res :
  decodeResponseJSONFrom buf (ReqLabelRequest r) headers = Returns (Ok res) ->
  exists x, res = RLokiLabelNamesResponse x.
Proof.
  unfold decodeResponseJSONFrom.
  destruct (Unmarshal_LabelResponse buf); [|discriminate].
  intros [= <-]. eauto.
Qed.

Lemma decoded_index_stats buf r headers res :
  decodeResponseJSONFrom buf (ReqIndexStatsRequest r) headers = Returns (Ok res) ->
  exists x, res = RIndexStatsResponse x.
Proof.
  unfold decodeResponseJSONFrom.
  destruct (Unmarshal_IndexStatsResponse buf); [|discriminate].
  intros [= <-]. eauto.
Qed.

Lemma decoded_volume buf r headers res :
  decodeResponseJSONFrom buf (ReqVolumeRequest r) headers = Returns (Ok res) ->
  exists x, res = RVolumeResponse x /\ is_Some (VolumeResponse.Response x).
Proof.
  unfold decodeResponseJSONFrom.
  destruct (Unmarshal_VolumeResponse buf); [|discriminate].
  intros [= <-]. eauto.
Qed.

(** X22. Decoded responses merge: the responses that JSON bodies are
    decoded into for one series, label, index-stats or volume request
    are merged into a response of their type; the merge neither panics
    nor fails, whatever the bodies and the headers were. *)
Theorem X22_decoded_responses_merge (req : Request) (first : Response)
    (rest : list Response) :
  match req with
  | ReqLokiSeriesRequest _ | ReqLabelRequest _
  | ReqIndexStatsRequest _ | ReqVolumeRequest _ => True
  | _ => False
  end ->
  Forall (λ res, exists buf headers,
            decodeResponseJSONFrom buf req headers = Returns (Ok res))
    (first :: rest) ->
  exists merged,
    MergeResponse (first :: rest) = Returns (Ok merged) /\
    type_of merged = type_of first.
Proof.
  intros Hkind Hall. destruct req as [r|r|r|r|r|r|]; try done.
  - assert (exists xs, first :: rest = RLokiSeriesResponse <$> xs) as [xs Hxs].
    { apply Forall_as_fmap. eapply Forall_impl; [exact Hall|].
      intros res (buf & headers & Hd). by eapply decoded_series. }
    destruct xs as [|x xs]; [done|]. rewrite Hxs, MergeResponse_series.
    injection Hxs as -> _. eauto.
  - assert (exists xs, first :: rest = RLokiLabelNamesResponse <$> xs) as [xs Hxs].
    { apply Forall_as_fmap. eapply Forall_impl; [exact Hall|].
      intros res (buf & headers & Hd). by eapply decoded_names. }
    destruct xs as [|x xs]; [done|]. rewrite Hxs, MergeResponse_names.
    injection Hxs as -> _. eauto.
  - assert (exists xs, first :: rest = RIndexStatsResponse <$> xs) as [xs Hxs].
    { apply Forall_as_fmap. eapply Forall_impl; [exact Hall|].
      intros res (buf & headers & Hd). by eapply decoded_index_stats. }
    destruct xs as [|x xs]; [done|]. rewrite Hxs, MergeResponse_index_stats.
    injection Hxs as -> _. eauto.
  - assert (exists xs, first :: rest = RVolumeResponse <$> xs) as [xs Hxs].
    { apply Forall_as_fmap. eapply Forall_impl; [exact Hall|].
      intros res (buf & headers & Hd).
      destruct (decoded_volume _ _ _ _ Hd) as (x & -> & _). eauto. }
    destruct xs as [|x xs]; [done|]. rewrite Hxs, MergeResponse_volume.
    injection Hxs as Hfirst _.
    apply Forall_cons in Hall as [(buf & headers & Hd) _].
    destruct (decoded_volume _ _ _ _ Hd) as (x' & Hx' & [v Hv]).
    assert (x' = x) as -> by congruence. rewrite Hv, Hfirst. eauto.
Qed.

(** X23. The limit of the request bounds the merged result: when the
    first of the LokiResponses merged was decoded from a JSON body for a
    range request, the merged response has the limit and the direction
    of that request, holds no more entries than that limit, and has its
    streams in the key order of that direction. *)
Theorem X23_request_limit_bounds_merge (r : LokiRequest.t)
    (buf : list Byte.byte) (headers : Values)
    (first : LokiResponse) (rest : list LokiResponse) :
  decodeResponseJSONFrom buf (ReqLokiRequest r) headers =
    Returns (Ok (RLokiResponse first)) ->
  exists merged,
    MergeResponse (RLokiResponse <$> first :: rest) =
      Returns (Ok (RLokiResponse merged)) /\
    Limit merged = LokiRequest.Limit r /\
    Direction merged = LokiRequest.Direction r /\
    Count merged <= Z.of_N (LokiRequest.Limit r) /\
    keys_ordered (LokiRequest.Direction r) (Labels <$> Result (Data merged)).
Proof.
  intros Hd.
  assert (Limit first = LokiRequest.Limit r /\
          Direction first = LokiRequest.Direction r) as [Hl Hdir].
  { revert Hd. unfold decodeResponseJSONFrom, prom_response.
    destruct (QueryResponse_UnmarshalJSON buf) as [resp|]; [|discriminate].
    cbn zeta. repeat case_decide; cbn [ParamsFromRequest];
      try discriminate;
      destruct (json.Result (json.Data resp)); try discriminate;
      by intros [= <-]. }
  eexists. split; [apply MergeResponse_loki|].
  cbn [Limit Direction Data Result]. rewrite Hl, Hdir.
  split; [done|]. split; [done|]. split.
  - rewrite Count_entries_total. cbn [Data Result].
    rewrite merged_entries_total. lia.
  - apply merged_keys_ordered.
Qed.

Lemma sort_keys_nil d : sort_keys d [] = [].
Proof. by destruct d. Qed.

(** X24. The empty response is neutral. The empty response of a series
    or label request, merged in front of responses of its kind, leaves
    their data: the merged response holds what merging them alone holds,
    with the status "success" and the version of the request. The empty
    response of a range request for logs holds no entries and carries
    the limit and direction of the request; merged in front of
    LokiResponses it gives their merge under that limit and direction,
    and no streams at all when the limit is 0. *)
Theorem X24_empty_response_is_neutral :
  (forall req rs,
     exists e m,
       NewEmptyResponse (ReqLokiSeriesRequest req) = Ok e /\
       MergeResponse (e :: (RLokiSeriesResponse <$> rs)) =
         Returns (Ok (RLokiSeriesResponse m)) /\
       LokiSeriesResponse.Data m =
         dedup_first Hash (concat (LokiSeriesResponse.Data <$> rs)) /\
       LokiSeriesResponse.Status m = QueryStatusSuccess /\
       LokiSeriesResponse.Version m =
         uint32 (GetVersion (LokiSeriesRequest.Path req))) /\
  (forall req rs,
     exists e m,
       NewEmptyResponse (ReqLabelRequest req) = Ok e /\
       MergeResponse (e :: (RLokiLabelNamesResponse <$> rs)) =
         Returns (Ok (RLokiLabelNamesResponse m)) /\
       LokiLabelNamesResponse.Data m =
         dedup_first id (concat (LokiLabelNamesResponse.Data <$> rs)) /\
       LokiLabelNamesResponse.Status m = QueryStatusSuccess /\
       LokiLabelNamesResponse.Version m =
         uint32 (GetVersion (LabelRequest.path req))) /\
  (forall req expr rs,
     ParseExpr (LokiRequest.Query req) = Ok expr -> is_SampleExpr expr = false ->
     exists e m,
       NewEmptyResponse (ReqLokiRequest req) = Ok (RLokiResponse e) /\
       Count e = 0 /\
       MergeResponse (RLokiResponse e :: (RLokiResponse <$> rs)) =
         Returns (Ok (RLokiResponse m)) /\
       Limit m = LokiRequest.Limit req /\
       Direction m = LokiRequest.Direction req /\
       Result (Data m) =
         if decide (LokiRequest.Limit req = 0%N) then []
         else mergeOrderedNonOverlappingStreams rs
                (LokiRequest.Limit req) (LokiRequest.Direction req)).
Proof.
  split; [|split].
  - intros req rs. eexists _, _. split; [reflexivity|].
    rewrite <- fmap_cons. split; [apply MergeResponse_series|]. done.
  - intros req rs. eexists _, _. split; [reflexivity|].
    rewrite <- fmap_cons. split; [apply MergeResponse_names|]. done.
  - intros req expr rs Hparse Hlog. eexists _, _.
    unfold NewEmptyResponse. rewrite Hparse, Hlog.
    split; [reflexivity|]. split; [done|].
    rewrite <- fmap_cons. split; [apply MergeResponse_loki|].
    cbn [Limit Direction Data Result]. split; [done|]. split; [done|].
    unfold mergeOrderedNonOverlappingStreams. cbn [group_resps Data Result foldl snd].
    case_decide as Hz.
    + rewrite Hz. change (N.to_nat 0) with 0%nat. cbn [Nat.leb].
      rewrite map_to_list_empty. cbn [fmap list_fmap].
      by rewrite sort_keys_nil.
    + rewrite (proj2 (Nat.leb_gt _ _)) by lia. done.
Qed.

(** X25. The empty response of a volume request cannot be merged: its
    payload is nil, and merging it in front of any responses panics. The
    empty response of an index-stats request has a nil payload too, and
    is merged like any other. *)
Theorem X25_empty_volume_response :
  (forall req rest,
     exists e,
       NewEmptyResponse (ReqVolumeRequest req) = Ok e /\
       MergeResponse (e :: rest) = Panics) /\
  (forall req rs,
     exists e,
       NewEmptyResponse (ReqIndexStatsRequest req) = Ok e /\
       MergeResponse (e :: (RIndexStatsResponse <$> rs)) =
         Returns (Ok (RIndexStatsResponse {|
           IndexStatsResponse.Response :=
             Some (indexStats_MergeStats
                     (None :: (IndexStatsResponse.Response <$> rs)));
           IndexStatsResponse.Headers := [] |}))).
Proof.
  split.
  - intros req rest. eexists. split; [reflexivity|].
    unfold MergeResponse. cbn zeta.
    destruct (range collect_volumes _ _); done.
  - intros req rs. eexists. split; [reflexivity|].
    rewrite <- fmap_cons. apply MergeResponse_index_stats.
Qed.

(** X26. What can be written as JSON. A response that [MergeResponse]
    returns is of a type the JSON encoder has a case for, and is no nil
    pointer. A series view by itself is not: encoding it fails with
    status 500; merged, even alone, it becomes a merged view, which is
    written by the writer of series views. *)
Theorem X26_merged_responses_have_a_json_case :
  (forall responses merged,
     MergeResponse responses = Returns (Ok merged) ->
     type_of merged ∈ [TLokiPromResponse; TLokiResponse; TLokiSeriesResponse;
                       TMergedSeriesResponseView; TLokiLabelNamesResponse;
                       TIndexStatsResponse; TVolumeResponse] /\
     merged <> RNilLokiResponse) /\
  (forall view views version encodeFlags,
     encodeResponseJSONTo version (RLokiSeriesResponseView view) encodeFlags =
       Returns (Err (httpgrpc_Errorf StatusInternalServerError
                       (fmt_Sprintf "invalid response format"))) /\
     exists merged,
       MergeResponse (RLokiSeriesResponseView <$> view :: views) =
         Returns (Ok merged) /\
       encodeResponseJSONTo version merged encodeFlags =
         WriteSeriesResponseViewJSON (mkMergedView (view :: views) [])).
Proof.
  split.
  - intros responses merged. destruct responses as [|first rest]; [discriminate|].
    unfold MergeResponse.
    destruct first as [r|r| |r|r|r|r|r|r| |]; cbn zeta; try discriminate.
    + destruct (range collect_prom _ _) as [[? ?]|]; [|discriminate].
      cbn [mbind outcome_bind].
      destruct (PrometheusCodec_MergeResponse _); [|discriminate].
      intros [= <-]. split; [set_solver|done].
    + unfold mergeLokiResponse. cbn [as_LokiResponse mbind outcome_bind].
      destruct (range collect_loki _ _) as [[? ?]|]; [|discriminate].
      intros [= <-]. split; [set_solver|done].
    + destruct (range collect_series _ _) as [[? [? ?]]|]; [|discriminate].
      intros [= <-]. split; [set_solver|done].
    + destruct (range collect_views _ _); [|discriminate].
      intros [= <-]. split; [set_solver|done].
    + destruct (range collect_merged_views _ _); [|discriminate].
      intros [= <-]. split; [set_solver|done].
    + destruct (range collect_names _ _) as [[? [? ?]]|]; [|discriminate].
      intros [= <-]. split; [set_solver|done].
    + destruct (range collect_index_stats _ _); [|discriminate].
      intros [= <-]. split; [set_solver|done].
    + destruct (range collect_volumes _ _); [|discriminate].
      cbn [mbind outcome_bind].
      destruct (VolumeResponse.Response r); [|discriminate].
      intros [= <-]. split; [set_solver|done].
  - intros view views version encodeFlags. split; [done|].
    eexists. split; [apply MergeResponse_views|]. done.
Qed.

(** X27. The response a request asked for: a response that
    [EncodeResponse] returns has status 200 and a body that is read, not
    a buffer; as long as the protobuf content type is not the JSON one,
    [DecodeResponse] decodes it with the protobuf decoder when the
    request accepted protobuf and with the JSON decoder otherwise, from
    the bytes the encoder of that format wrote. *)
Theorem X27_content_negotiation (httpReq : HTTPRequest) (res : Response)
    (r : HTTPResponse) (req : Request) :
  ProtobufType <> "application/json; charset=UTF-8" ->
  EncodeResponse httpReq res = Returns (Ok r) ->
  StatusCode r = 200 /\
  exists buf,
    ResponseBody r = mkBody None (buf, None) /\
    if decide (Header_Get (Header httpReq) "Accept" = ProtobufType) then
      ResponseHeader r = {[ "Content-Type" := [ProtobufType] ]} /\
      DecodeResponse r req = decodeResponseProtobuf r req /\
      decodeResponseProtobuf r req =
        match req with
        | ReqLokiSeriesRequest _ => GetLokiSeriesResponseView buf
        | _ => decode_envelope buf req [mkHeader "Content-Type" [ProtobufType]]
        end
    else
      ResponseHeader r = {[ "Content-Type" := ["application/json; charset=UTF-8"] ]} /\
      encodeResponseJSONTo (GetVersion (RequestURI httpReq)) res
        (ExtractEncodingFlags httpReq) = Returns (Ok buf) /\
      DecodeResponse r req = decodeResponseJSONFrom buf req (ResponseHeader r).
Proof.
  intros Hpb. unfold EncodeResponse.
  assert (forall ct : string,
            httpResponseHeadersToPromResponseHeaders
              ({[ "Content-Type" := [ct] ]} : Values) = [mkHeader "Content-Type" [ct]])
    as Hconv.
  { intros ct. unfold httpResponseHeadersToPromResponseHeaders.
    by rewrite map_to_list_singleton. }
  destruct (decide (Header_Get (Header httpReq) "Accept" = ProtobufType)).
  - unfold encodeResponseProtobuf.
    destruct (QueryResponseWrap res) as [[p|]|]; try discriminate.
    cbn [mbind outcome_bind].
    destruct (QueryResponse_Marshal p) as [[buf|]|]; try discriminate.
    intros [= <-]. split; [done|]. exists buf. split; [done|].
    split; [done|]. unfold DecodeResponse, decodeResponseProtobuf, response_with.
    cbn [StatusCode ResponseHeader ResponseBody body_bytes Buffer_Bytes io_ReadAll].
    rewrite decide_False by (by vm_compute).
    unfold Header_Get. rewrite lookup_singleton_eq.
    rewrite decide_True by done. split; [done|].
    rewrite Hconv. by destruct req.
  - unfold encodeResponseJSON.
    destruct (encodeResponseJSONTo _ _ _) as [[buf|]|]; try discriminate.
    intros [= <-]. split; [done|]. exists buf. split; [done|].
    split; [done|]. split; [done|].
    unfold DecodeResponse, decodeResponseJSON, response_with.
    cbn [StatusCode ResponseHeader ResponseBody body_bytes Buffer_Bytes io_ReadAll].
    rewrite decide_False by (by vm_compute).
    unfold Header_Get. rewrite lookup_singleton_eq.
    by rewrite decide_False by done.
Qed.

End Codec_and_merger.

Section Grpc_responses.

Context {QueryLimits : Type} {env : CodecEnv QueryLimits} {renv : ResponseEnv}.

(** X28. The RPC-wrapped response, encoded and decoded: a response that
    [EncodeHTTPGrpcResponse] returns has status 200 and holds the JSON
    the encoder wrote, so [DecodeHTTPGrpcResponse] decodes it from that
    JSON, with the JSON content type and the headers of the response as
    transport headers; a header of the response named like an earlier
    one, the content type included, replaces it. *)
Theorem X28_grpc_response_round_trip (g : httpgrpc_HTTPRequest) (res : Response)
    (r : httpgrpc_HTTPResponse) (req : Request) :
  EncodeHTTPGrpcResponse g res = Returns (Ok r) ->
  grpc_Code r = 200 /\
  encodeResponseJSONTo (GetVersion (grpc_Url g)) res
    (ExtractEncodingFlagsFromProto g) = Returns (Ok (grpc_ResponseBody r)) /\
  DecodeHTTPGrpcResponse r req =
    decodeResponseJSONFrom (grpc_ResponseBody r) req
      (list_to_map
         (reverse (("Content-Type", ["application/json; charset=UTF-8"])
                   :: ((λ h, (HeaderName h, HeaderValues h)) <$> GetHeaders res)))).
Proof.
  unfold EncodeHTTPGrpcResponse. cbn zeta.
  destruct (encodeResponseJSONTo _ _ _) as [[buf|]|]; try discriminate.
  intros [= <-]. split; [done|]. split; [done|].
  unfold DecodeHTTPGrpcResponse.
  cbn [grpc_Code grpc_ResponseBody grpc_ResponseHeaders].
  rewrite decide_False by (by vm_compute).
  cbn zeta. rewrite foldl_insert_reverse. by rewrite (right_id_L ∅ (∪)).
Qed.

(** X29. The protobuf request codec encodes as the JSON one does and
    then asks for protobuf: it panics or fails as [Codec.EncodeRequest]
    does, and on success returns the same request but for the [Accept]
    header, which names the protobuf content type. When that is the
    content type the response encoder knows as protobuf, the response to
    such a request is encoded as protobuf. *)
Theorem X29_protobuf_request_codec (ctx : Context QueryLimits) (r : Request) :
  match EncodeRequest ctx r, RequestProtobufCodec_EncodeRequest ctx r with
  | Returns (Ok h), Returns (Ok h') =>
      Method h' = Method h /\ URL_Path h' = URL_Path h /\ Form h' = Form h /\
      Header_Get (Header h') "Accept" = "application/vnd.google.protobuf" /\
      (forall key, key <> "Accept" -> Header h' !! key = Header h !! key) /\
      (ProtobufType = "application/vnd.google.protobuf" ->
       forall res, EncodeResponse h' res = encodeResponseProtobuf res)
  | Returns (Err err), Returns (Err err') => err' = err
  | Panics, Panics => True
  | _, _ => False
  end.
Proof.
  unfold RequestProtobufCodec_EncodeRequest.
  destruct (EncodeRequest ctx r) as [[h|err]|]; cbn; [|done..].
  split; [done|]. split; [done|]. split; [done|].
  unfold Header_Get, Header_Set. rewrite lookup_insert_eq. split; [done|].
  split.
  - intros key Hkey. by rewrite lookup_insert_ne.
  - intros Hpb res. unfold EncodeResponse. cbn [Header]. unfold Header_Get.
    rewrite lookup_insert_eq. by rewrite decide_True.
Qed.

End Grpc_responses.

(** * Examples *)

(** *** C4 *)

Lemma C4_merge_single_witness :
  @merge_fixed_point example_merge_env (RLokiResponse C4_fixed) /\
  @MergeResponse example_merge_env [RLokiResponse C4_fixed] =
    Returns (Ok (RLokiResponse C4_fixed)).
Proof.
  assert (@merge_fixed_point example_merge_env (RLokiResponse C4_fixed)) as Hfix.
  { simpl. repeat split; try reflexivity.
    - repeat constructor.
    - vm_compute. discriminate. }
  split; [exact Hfix|].
  apply (@C4_merge_single example_merge_env (RLokiResponse C4_fixed) Hfix).
Defined.

(** C4, as stated, fails: the merged LogResponse carries no headers, so
    merging a response that has some does not return it. *)
Lemma C4_counterexample :
  @MergeResponse example_merge_env [RLokiResponse C4_decoded] =
    Returns (Ok (RLokiResponse
      (mkLokiResponse "success" (Data C4_decoded) "" "" FORWARD 10 1 stats.zero []))) /\
  @MergeResponse example_merge_env [RLokiResponse C4_decoded] <>
    Returns (Ok (RLokiResponse C4_decoded)).
Proof.
  assert (@MergeResponse example_merge_env [RLokiResponse C4_decoded] =
    Returns (Ok (RLokiResponse
      (mkLokiResponse "success" (Data C4_decoded) "" "" FORWARD 10 1 stats.zero []))))
    as Heq by (vm_compute; reflexivity).
  split; [exact Heq|]. rewrite Heq. discriminate.
Qed.

(** *** C8 *)

Lemma C8_statistics_additivity_witness :
  @MergeResponse example_merge_env [C8_first; C8_second] = Returns (Ok C8_merged) /\
  statistics_of C8_merged =
    stats.sum <$> mapM statistics_of [C8_first; C8_second].
Proof.
  assert (@MergeResponse example_merge_env [C8_first; C8_second] =
          Returns (Ok C8_merged)) as Hm by (vm_compute; reflexivity).
  split; [exact Hm|].
  apply (@C8_statistics_additivity example_merge_env
           [C8_first; C8_second] C8_merged Hm).
Defined.

(** *** C5 *)

Lemma C5_unknown_path_not_found_witness :
  @getOperation unit example_codec_env (URL_Path C5_request) = None /\
  (forall httpReq,
     @http_NewRequest unit example_codec_env (grpc_Method C5_wrapped)
       (grpc_Url C5_wrapped) (grpc_Body C5_wrapped) = Ok httpReq ->
     @getOperation unit example_codec_env (URL_Path httpReq) = None) /\
  (exists err,
     @DecodeRequest unit example_codec_env C5_request = Err err /\
     (forall form, Form C5_request = Ok form ->
        err = httpgrpc_Errorf StatusNotFound
                ("unknown request path: " +:+ URL_Path C5_request))) /\
  (exists err,
     (@DecodeHTTPGrpcRequest unit example_codec_env example_ctx C5_wrapped).1 =
       Err err).
Proof.
  assert (@getOperation unit example_codec_env (URL_Path C5_request) = None)
    as H1 by reflexivity.
  assert (forall httpReq,
     @http_NewRequest unit example_codec_env (grpc_Method C5_wrapped)
       (grpc_Url C5_wrapped) (grpc_Body C5_wrapped) = Ok httpReq ->
     @getOperation unit example_codec_env (URL_Path httpReq) = None) as H2.
  { intros httpReq [= <-]. reflexivity. }
  split; [exact H1|]. split; [exact H2|].
  apply (@C5_unknown_path_not_found unit example_codec_env
           C5_request example_ctx C5_wrapped H1 H2).
Defined.

(** C5, as stated, fails on both decoders: for the unknown path [/foo]
    the plain decode reports a query string that does not parse as a bad
    request, and the RPC-wrapped decode answers with the status of a bad
    request where the plain decode answers NotFound. *)
Lemma C5_counterexample :
  @getOperation unit example_codec_env "/foo" = None /\
  @DecodeRequest unit example_codec_env C5_malformed =
    Err (httpgrpc_Errorf StatusBadRequest "invalid semicolon separator in query") /\
  (@DecodeHTTPGrpcRequest unit example_codec_env example_ctx C5_wrapped).1 =
    Err (httpgrpc_Errorf StatusBadRequest "unknown request path: /foo") /\
  StatusBadRequest <> StatusNotFound.
Proof. repeat split; try reflexivity. discriminate. Qed.

(** *** C2 *)

Lemma C2_round_trip_witness :
  (exists h,
     @EncodeRequest unit example_reading_env example_ctx C2_legacy =
       Returns (Ok h) /\
     bounds_representable C2_legacy /\ well_typed C2_legacy /\
     @getOperation unit example_reading_env (URL_Path h) = route_of C2_legacy /\
     @parser_reads unit example_reading_env h /\
     @rounds_back unit example_reading_env C2_legacy /\
     @DecodeRequest unit example_reading_env h = Ok C2_current /\
     exists r',
       @DecodeRequest unit example_reading_env h = Ok r' /\
       fields_of r' = fields_of C2_legacy) /\
  (exists h,
     @EncodeRequest unit example_reading_env example_ctx C2_volume =
       Returns (Ok h) /\
     bounds_representable C2_volume /\ well_typed C2_volume /\
     @getOperation unit example_reading_env (URL_Path h) = route_of C2_volume /\
     @parser_reads unit example_reading_env h /\
     @rounds_back unit example_reading_env C2_volume /\
     @DecodeRequest unit example_reading_env h = Ok C2_volume /\
     exists r',
       @DecodeRequest unit example_reading_env h = Ok r' /\
       fields_of r' = fields_of C2_volume).
Proof.
  split.
  - eexists. split; [vm_compute; reflexivity|].
    assert (bounds_representable C2_legacy) as Hb.
    { unfold bounds_representable. simpl.
      unfold time.nano_representable, time.wf. simpl. lia. }
    assert (well_typed C2_legacy) as Ht by exact I.
    match goal with
    | |- _ /\ _ /\ @getOperation _ _ (URL_Path ?h) = _ /\ _ => set (sent := h)
    end.
    assert (@getOperation unit example_reading_env (URL_Path sent) =
            route_of C2_legacy) as Hroute by reflexivity.
    assert (@parser_reads unit example_reading_env sent) as Hparse.
    { unfold parser_reads. rewrite Hroute. cbn [route_of C2_legacy].
      exists (loghttp.mkRangeQuery (time.mkTime 1700000000 0)
                (time.mkTime 1700003600 0) 0 0 "{job=a}" FORWARD 100
                ["0_of_2"]).
      split; [vm_compute; reflexivity|].
      split; [split; [unfold time.nano_representable, time.wf; simpl; lia
                     |vm_compute; reflexivity]|].
      split; [split; [unfold time.nano_representable, time.wf; simpl; lia
                     |vm_compute; reflexivity]|].
      repeat split; vm_compute; reflexivity. }
    assert (@rounds_back unit example_reading_env C2_legacy) as Hround
      by exact I.
    split; [exact Hb|]. split; [exact Ht|]. split; [exact Hroute|].
    split; [exact Hparse|]. split; [exact Hround|].
    split; [vm_compute; reflexivity|].
    apply (@C2_round_trip unit example_reading_env example_ctx C2_legacy sent
             Hb Ht);
      [vm_compute; reflexivity|exact Hroute|exact Hparse|exact Hround].
  - eexists. split; [vm_compute; reflexivity|].
    assert (bounds_representable C2_volume) as Hb.
    { unfold bounds_representable, C2_volume.
      cbn [fields_of f_start f_end representable VolumeRequest.From
           VolumeRequest.Through].
      change (model_Time 1700000000123)
        with (time.mkTime 1700000000 123000000).
      change (model_Time 1700003600456)
        with (time.mkTime 1700003600 456000000).
      unfold time.nano_representable, time.wf. simpl. lia. }
    assert (well_typed C2_volume) as Ht by reflexivity.
    match goal with
    | |- _ /\ _ /\ @getOperation _ _ (URL_Path ?h) = _ /\ _ => set (sent := h)
    end.
    assert (@getOperation unit example_reading_env (URL_Path sent) =
            route_of C2_volume) as Hroute by reflexivity.
    assert (@parser_reads unit example_reading_env sent) as Hparse.
    { unfold parser_reads. rewrite Hroute.
      change (route_of C2_volume) with (Some VolumeOp). cbv iota.
      exists (loghttp.mkVolumeQuery (time.mkTime 1700000000 123000000)
                (time.mkTime 1700003600 456000000) 0 "{job=a}" 10 []
                "series").
      split; [vm_compute; reflexivity|].
      split; [split; [unfold time.nano_representable, time.wf; simpl; lia
                     |vm_compute; reflexivity]|].
      split; [split; [unfold time.nano_representable, time.wf; simpl; lia
                     |vm_compute; reflexivity]|].
      repeat split; vm_compute; reflexivity. }
    assert (@rounds_back unit example_reading_env C2_volume) as Hround
      by (vm_compute; reflexivity).
    split; [exact Hb|]. split; [exact Ht|]. split; [exact Hroute|].
    split; [exact Hparse|]. split; [exact Hround|].
    split; [vm_compute; reflexivity|].
    apply (@C2_round_trip unit example_reading_env example_ctx C2_volume sent
             Hb Ht);
      [vm_compute; reflexivity|exact Hroute|exact Hparse|exact Hround].
Defined.

Lemma C2_zero_wraps :
  time.UnixNano (time.mkTime (-62135596800) 0) = -6795364578871345152 /\
  time.UnixNano (time.mkTime (-6795364579) 128654848) = -6795364578871345152.
Proof. split; vm_compute; reflexivity. Qed.

(** C2, as stated, fails: two requests with different start times are
    encoded to one transport request, so no decoder reproduces the time
    bounds of both. *)
Lemma C2_counterexample :
  exists h,
    @EncodeRequest unit example_codec_env example_ctx C2_zero = Returns (Ok h) /\
    @EncodeRequest unit example_codec_env example_ctx C2_1754 = Returns (Ok h) /\
    fields_of C2_zero <> fields_of C2_1754 /\
    forall decode : HTTPRequest -> result Request,
      ~ ((exists r', decode h = Ok r' /\ fields_of r' = fields_of C2_zero) /\
         (exists r', decode h = Ok r' /\ fields_of r' = fields_of C2_1754)).
Proof.
  eexists. split; [reflexivity|].
  assert (fields_of C2_zero <> fields_of C2_1754) as Hne by discriminate.
  split; [|split; [exact Hne|]].
  - unfold EncodeRequest, C2_zero, C2_1754.
    cbn [encode_header LokiRequest.StartTs LokiRequest.EndTs
      LokiRequest.Query LokiRequest.Direction LokiRequest.Limit
      LokiRequest.Shards LokiRequest.Step LokiRequest.Interval].
    destruct C2_zero_wraps as [-> ->]. reflexivity.
  - intros decode [(r1 & Hd1 & Hf1) (r2 & Hd2 & Hf2)].
    apply Hne. rewrite <- Hf1, <- Hf2. congruence.
Qed.

(** With a parser that reads the parameters, the request that starts at
    the zero time comes back as the one that starts in 1754. *)
Lemma C2_zero_decoded :
  exists h,
    @EncodeRequest unit example_reading_env example_ctx C2_zero =
      Returns (Ok h) /\
    @DecodeRequest unit example_reading_env h = Ok C2_1754 /\
    fields_of C2_1754 <> fields_of C2_zero.
Proof.
  eexists. split; [vm_compute; reflexivity|].
  split; [vm_compute; reflexivity|discriminate].
Qed.

(** *** Further properties *)

Lemma X3_mixed_types_panic_witness :
  mergeable (type_of (RLokiResponse C3_A)) = true /\
  Exists (λ res, type_of res <> type_of (RLokiResponse C3_A)) [C8_first] /\
  @MergeResponse example_merge_env [RLokiResponse C3_A; C8_first] = Panics.
Proof.
  assert (Exists (λ res, type_of res <> type_of (RLokiResponse C3_A)) [C8_first])
    as Hex by (left; discriminate).
  split; [reflexivity|]. split; [exact Hex|].
  apply (@X3_mixed_types_panic example_merge_env (RLokiResponse C3_A) [C8_first]
           eq_refl Hex).
Defined.

Lemma X7_limit_reached_rest_ignored_witness :
  Z.of_N (Limit C3_A) <= total_available [C3_A] /\
  exists m1 m2,
    @MergeResponse example_merge_env (RLokiResponse <$> [C3_A] ++ [C3_B]) =
      Returns (Ok (RLokiResponse m1)) /\
    @MergeResponse example_merge_env (RLokiResponse <$> [C3_A]) =
      Returns (Ok (RLokiResponse m2)) /\
    Data m1 = Data m2 /\
    Count m1 = Z.of_N (Limit C3_A).
Proof.
  assert (Z.of_N (Limit C3_A) <= total_available [C3_A]) as Hle
    by (vm_compute; discriminate).
  split; [exact Hle|].
  apply (@X7_limit_reached_rest_ignored example_merge_env C3_A [] [C3_B] Hle).
Defined.

Lemma X9_path_of_encoded_witness :
  exists h,
    @EncodeRequest unit example_codec_env example_ctx C2_current = Returns (Ok h) /\
    URL_Path h = "/" +:+ Codec_Path C2_current.
Proof.
  eexists. split; [reflexivity|].
  apply (@X9_path_of_encoded unit example_codec_env example_ctx C2_current _
           eq_refl).
Defined.

Lemma X11_volume_reencoded_witness :
  Form example_volume_range_request = Ok ∅ /\
  @encode_header unit example_parsing_env example_ctx = Ok example_header /\
  @getOperation unit example_parsing_env
    (URL_Path example_volume_range_request) = Some VolumeRangeOp /\
  @ParseVolumeRangeQuery unit example_parsing_env example_volume_range_request =
    Ok example_volume_query /\
  exists req h,
    @DecodeRequest unit example_parsing_env example_volume_range_request = Ok req /\
    @EncodeRequest unit example_parsing_env example_ctx req = Returns (Ok h) /\
    URL_Path h = "/loki/api/v1/index/volume" /\ wire_lookup h "step" = None.
Proof.
  split; [reflexivity|]. split; [reflexivity|]. split; [reflexivity|].
  split; [reflexivity|].
  destruct (@X11_volume_reencoded unit example_parsing_env
              example_volume_range_request ∅ example_header example_volume_query
              example_ctx eq_refl eq_refl) as [_ Hrange].
  exact (Hrange eq_refl eq_refl).
Defined.

Lemma X12_grpc_context_has_tenant_witness :
  exists req c,
    @DecodeHTTPGrpcRequest unit example_parsing_env example_anonymous_ctx
      example_wrapped_tenant_request = (Ok req, c) /\
    exists c' httpReq orgID,
      c = Some c' /\
      @http_NewRequest unit example_parsing_env
        (grpc_Method example_wrapped_tenant_request)
        (grpc_Url example_wrapped_tenant_request)
        (grpc_Body example_wrapped_tenant_request) = Ok httpReq /\
      ctx_orgID c' = Some orgID /\
      match ctx_orgID example_anonymous_ctx with
      | Some o => orgID = o
      | None =>
          orgID <> "" /\
          exists values,
            foldl (λ h kv, <[kv.1 := kv.2]> h) (Header httpReq)
              (grpc_Headers example_wrapped_tenant_request)
              !! CanonicalMIMEHeaderKey (@OrgIDHeaderName unit example_parsing_env) =
              Some (orgID :: values)
      end /\
      ctx_queryLimits c' = ctx_queryLimits example_anonymous_ctx /\
      ctx_actorPath c' = ctx_actorPath example_anonymous_ctx.
Proof.
  eexists _, _. split; [reflexivity|].
  apply (@X12_grpc_context_has_tenant unit example_parsing_env
           example_anonymous_ctx example_wrapped_tenant_request _ _ eq_refl).
Defined.

(** The tenant the example finds is the one of the listed header; a
    header listed as [X-Scope-OrgID] is not found, the canonical form of
    that name being [X-Scope-Orgid]. *)
Lemma example_org_header :
  CanonicalMIMEHeaderKey "X-Scope-OrgID" = "X-Scope-Orgid" /\
  (exists req c,
     @DecodeHTTPGrpcRequest unit example_parsing_env example_anonymous_ctx
       example_wrapped_tenant_request = (Ok req, Some c) /\
     ctx_orgID c = Some "tenant") /\
  @DecodeHTTPGrpcRequest unit example_parsing_env example_anonymous_ctx
    example_wrapped_range_request = (Err (errors_New "no org id"), None).
Proof.
  split; [reflexivity|]. split; [|reflexivity].
  eexists _, _. split; reflexivity.
Qed.

Lemma X13_reencoded_path_witness :
  exists req h,
    @DecodeRequest unit example_parsing_env example_label_request = Ok req /\
    @EncodeRequest unit example_parsing_env example_ctx req = Returns (Ok h) /\
    URL_Path h = URL_Path example_label_request.
Proof.
  eexists _, _. split; [reflexivity|]. split; [reflexivity|].
  apply (@X13_reencoded_path unit example_parsing_env example_label_request
           _ example_ctx _ eq_refl eq_refl).
Defined.

Lemma X14_range_reencoded_witness :
  Form example_range_request = Ok ∅ /\
  @encode_header unit example_parsing_env example_ctx = Ok example_header /\
  @getOperation unit example_parsing_env (URL_Path example_range_request) =
    Some QueryRangeOp /\
  @ParseRangeQuery unit example_parsing_env example_range_request =
    Ok example_range_query /\
  exists req h,
    @DecodeRequest unit example_parsing_env example_range_request = Ok req /\
    @EncodeRequest unit example_parsing_env example_ctx req = Returns (Ok h) /\
    fields_of req =
      Some (mkFields "{job=a}" (Some (time.mkTime 1700000000 0))
              (Some (time.mkTime 1700003600 0)) 100 BACKWARD ["0_of_2"]) /\
    wire_lookup h "step" =
      Some [@fmt_seconds unit example_parsing_env 60000] /\
    wire_lookup h "interval" = None.
Proof.
  split; [reflexivity|]. split; [reflexivity|]. split; [reflexivity|].
  split; [reflexivity|].
  destruct (@X14_range_reencoded unit example_parsing_env example_range_request
              ∅ example_header example_range_query example_ctx
              eq_refl eq_refl eq_refl eq_refl)
    as (req & h & Hd & He & Hf & _ & Hs & Hi).
  exists req, h. repeat split; assumption.
Defined.

Lemma X16_label_bounds_witness :
  @encode_header unit example_codec_env example_ctx = Ok example_header /\
  exists h,
    @EncodeRequest unit example_codec_env example_ctx
      (ReqLabelRequest
         (NewLabelRequest (time.mkTime 1700000000 0) (time.mkTime 1700003600 0)
            "" "job" "/loki/api/v1/label/job/values")) = Returns (Ok h) /\
    URL_Path h = "/loki/api/v1/label/job/values".
Proof.
  split; [reflexivity|].
  destruct (@X16_label_bounds unit example_codec_env example_ctx example_header
              eq_refl) as [Hnew _].
  destruct (Hnew (time.mkTime 1700000000 0) (time.mkTime 1700003600 0)
              "" "job" "/loki/api/v1/label/job/values")
    as (_ & _ & _ & h & He & Hp & _).
  exists h. split; assumption.
Defined.

Lemma X20_status_gate_witness :
  (forall format,
     plain_format format = true ->
     @fmt_Sprintf example_response_env format = format) /\
  @DecodeResponse example_response_env example_failed_response
    example_series_request =
    Returns (Err (httpgrpc_Errorf 502 "no backend")) /\
  @DecodeHTTPGrpcResponse example_response_env example_failed_wrapped_response
    example_series_request =
    Returns (Err (httpgrpc_Errorf 502 "no backend")).
Proof.
  assert (forall format,
            plain_format format = true ->
            @fmt_Sprintf example_response_env format = format) as Hplain
    by (intros format _; reflexivity).
  split; [exact Hplain|].
  destruct (@X20_status_gate example_response_env example_failed_response
              example_failed_wrapped_response example_series_request)
    as (_ & _ & _ & _ & Hbody).
  destruct (Hbody Hplain) as [Hplain_http Hplain_grpc].
  split.
  - apply Hplain_http; [simpl; lia|reflexivity].
  - apply Hplain_grpc; [simpl; lia|reflexivity].
Defined.

Lemma X22_decoded_responses_merge_witness :
  Forall (λ res, exists buf headers,
            @decodeResponseJSONFrom example_response_env buf
              example_series_request headers = Returns (Ok res))
    [example_decoded_series; example_decoded_series] /\
  exists merged,
    @MergeResponse example_merge_env
      [example_decoded_series; example_decoded_series] = Returns (Ok merged) /\
    type_of merged = type_of example_decoded_series.
Proof.
  assert (Forall (λ res, exists buf headers,
            @decodeResponseJSONFrom example_response_env buf
              example_series_request headers = Returns (Ok res))
            [example_decoded_series; example_decoded_series]) as Hall.
  { repeat constructor; exists [], ∅; reflexivity. }
  split; [exact Hall|].
  apply (@X22_decoded_responses_merge example_merge_env example_response_env
           example_series_request example_decoded_series
           [example_decoded_series] I Hall).
Defined.

Lemma X23_request_limit_bounds_merge_witness :
  @decodeResponseJSONFrom example_response_env []
    (ReqLokiRequest example_range) ∅ =
    Returns (Ok (RLokiResponse example_decoded_streams)) /\
  exists merged,
    @MergeResponse example_merge_env
      (RLokiResponse <$> [example_decoded_streams; C3_B]) =
      Returns (Ok (RLokiResponse merged)) /\
    Limit merged = 100%N /\ Direction merged = FORWARD /\
    Count merged <= 100 /\
    keys_ordered FORWARD (Labels <$> Result (Data merged)).
Proof.
  assert (@decodeResponseJSONFrom example_response_env []
            (ReqLokiRequest example_range) ∅ =
          Returns (Ok (RLokiResponse example_decoded_streams))) as Hd
    by (vm_compute; reflexivity).
  split; [exact Hd|].
  apply (@X23_request_limit_bounds_merge example_merge_env example_response_env
           example_range [] ∅ example_decoded_streams [C3_B] Hd).
Defined.

Lemma X27_content_negotiation_witness :
  @ProtobufType example_response_env <> "application/json; charset=UTF-8" /\
  exists r,
    @EncodeResponse example_response_env example_range_request
      example_decoded_series = Returns (Ok r) /\
    StatusCode r = 200 /\
    exists buf, ResponseBody r = mkBody None (buf, None).
Proof.
  assert (@ProtobufType example_response_env <> "application/json; charset=UTF-8")
    as Hpb by discriminate.
  split; [exact Hpb|]. eexists. split; [reflexivity|].
  destruct (@X27_content_negotiation example_response_env
              example_range_request example_decoded_series _
              example_series_request Hpb eq_refl)
    as (Hcode & buf & Hbody & _).
  split; [exact Hcode|]. exists buf. exact Hbody.
Defined.

Lemma X28_grpc_response_round_trip_witness :
  exists r,
    @EncodeHTTPGrpcResponse unit example_codec_env example_response_env
      example_wrapped_range_request example_decoded_series = Returns (Ok r) /\
    grpc_Code r = 200 /\
    @DecodeHTTPGrpcResponse example_response_env r example_series_request =
      @decodeResponseJSONFrom example_response_env (grpc_ResponseBody r)
        example_series_request
        (list_to_map
           (reverse [("Content-Type", ["application/json; charset=UTF-8"])])).
Proof.
  eexists. split; [reflexivity|].
  destruct (@X28_grpc_response_round_trip unit example_codec_env
              example_response_env example_wrapped_range_request
              example_decoded_series _ example_series_request eq_refl)
    as (Hcode & _ & Hdecode).
  split; [exact Hcode|exact Hdecode].
Defined.

Lemma X30_decoders_agree_witness :
  @http_NewRequest unit example_parsing_env
    (grpc_Method example_wrapped_range_request)
    (grpc_Url example_wrapped_range_request)
    (grpc_Body example_wrapped_range_request) = Ok example_range_request /\
  ctx_orgID example_ctx = Some "tenant" /\
  exists plain wrapped,
    @DecodeRequest unit example_parsing_env
      (mkHTTPRequest "GET" "/loki/api/v1/query_range" (Ok ∅)
         {[ "X-Scope-OrgID" := ["tenant"] ]}) = Ok plain /\
    (@DecodeHTTPGrpcRequest unit example_parsing_env example_ctx
       example_wrapped_range_request).1 = Ok wrapped /\
    fields_of plain = fields_of wrapped /\ is_Some (fields_of plain).
Proof.
  split; [reflexivity|]. split; [reflexivity|].
  eexists _, _. split; [reflexivity|]. split; [reflexivity|].
  apply (@X30_decoders_agree unit example_parsing_env example_ctx
           example_wrapped_range_request example_range_request "tenant"
           eq_refl eq_refl).
Defined.
